(** * SANTOOR TV optimizer: optimization utilities

    Shallow embedding of [calculateStatus], [getProtectedChannels] and
    [runOptimization] (the optimization utilities module), together with the
    properties of the decision table they implement.

    Numbers are ECMAScript numbers, i.e. IEEE-754 binary64 values; they are
    represented by [spec_float] at precision 53 and maximal exponent 1024, and
    every arithmetic operation and comparison below is the correctly rounded
    binary64 one. *)

From Stdlib Require Import Reals Lra.
From Stdlib Require Import ZArith List String Ascii Bool Lia.
From Stdlib Require Import Permutation Sorted SpecFloat.
Import ListNotations.

Open Scope Z_scope.
Open Scope list_scope.

(* ================================================================= *)
(** ** ECMAScript numbers *)

Module Number.

Definition prec : Z := 53.
Definition emax : Z := 1024.

Definition number : Type := spec_float.

  (** Integer literals ([0], [100], [-3], ...) and array lengths. *)
Definition of_Z (z : Z) : number := binary_normalize prec emax z 0 false.

  (** Literals with a finite binary expansion: [dyadic m e] is [m * 2^e]
      ([1.5] is [dyadic 3 (-1)]). *)
Definition dyadic (m e : Z) : number := binary_normalize prec emax m e false.

  (** [x === y], [x < y], [x <= y], [x > y], [x >= y]: every comparison with
      NaN is false, and the two zeros are equal. *)
Definition eqb (x y : number) : bool := SFeqb x y.
Definition ltb (x y : number) : bool := SFltb x y.
Definition leb (x y : number) : bool := SFleb x y.
Definition gtb (x y : number) : bool := SFltb y x.
Definition geb (x y : number) : bool := SFleb y x.

Definition sub (x y : number) : number := SFsub prec emax x y.
Definition mul (x y : number) : number := SFmul prec emax x y.
Definition div (x y : number) : number := SFdiv prec emax x y.

  (** [Math.ceil]: NaN, the infinities and the zeros are returned unchanged;
      a value in (-1, 0) gives [-0]. *)
Definition ceil (x : number) : number :=
    match x with
    | S754_finite s m e =>
        if 0 <=? e then x
        else
          let d := 2 ^ (- e) in
          if s then
            match Zpos m / d with
            | 0 => S754_zero true
            | q => binary_normalize prec emax (- q) 0 true
            end
          else binary_normalize prec emax ((Zpos m + d - 1) / d) 0 false
    | _ => x
    end.

  (** The abstract operation [ToIntegerOrInfinity]. *)
Inductive integer_or_infinity : Type :=
  | NegInfinity
  | Integer (z : Z)
  | PosInfinity.

Definition ToIntegerOrInfinity (x : number) : integer_or_infinity :=
    match x with
    | S754_nan => Integer 0
    | S754_zero _ => Integer 0
    | S754_infinity s => if s then NegInfinity else PosInfinity
    | S754_finite s m e =>
        let a := Z.shiftl (Zpos m) e in
        Integer (if s then - a else a)
    end.

End Number.

Import Number.

Declare Scope num_scope.
Delimit Scope num_scope with num.
Notation "x === y" := (Number.eqb x y) (at level 70, no associativity) : num_scope.
Notation "x <? y" := (Number.ltb x y) (at level 70, no associativity) : num_scope.
Notation "x <=? y" := (Number.leb x y) (at level 70, no associativity) : num_scope.
Notation "x >? y" := (Number.gtb x y) (at level 70, no associativity) : num_scope.
Notation "x >=? y" := (Number.geb x y) (at level 70, no associativity) : num_scope.
Notation "# z" := (Number.of_Z z) (at level 5, format "# z") : num_scope.

(* ================================================================= *)
(** ** Arrays *)

Module Array.

Section Sort.
Context {A : Type}.
Variable comparefn : A -> A -> number.

    (** [Array.prototype.sort] with a comparator is a stable sort: [a] is
        placed after [b] when [comparefn a b > 0]; a NaN result counts as
        [+0].  The element [x] comes from an earlier index than everything
        in [l], so it stays in front of the elements it ties with. *)
Fixpoint insert (x : A) (l : list A) : list A :=
      match l with
      | [] => [x]
      | y :: l' =>
          if (comparefn x y >? #0)%num then y :: insert x l'
          else x :: y :: l'
      end.

Fixpoint sort (l : list A) : list A :=
      match l with
      | [] => []
      | x :: l' => insert x (sort l')
      end.
End Sort.

  (** [arr.slice(0, end)] *)
Definition slice0 {A : Type} (l : list A) (fin : number) : list A :=
    let len := Z.of_nat (List.length l) in
    let final :=
      match ToIntegerOrInfinity fin with
      | NegInfinity => 0
      | Integer relativeEnd =>
          if relativeEnd <? 0 then Z.max (len + relativeEnd) 0
          else Z.min relativeEnd len
      | PosInfinity => len
      end in
    firstn (Z.to_nat final) l.

  (** [arr.includes(s)] on an array of strings *)
Definition includes (l : list string) (s : string) : bool :=
    existsb (String.eqb s) l.

End Array.

(* ================================================================= *)
(** ** Data model *)

Record ChannelRecord : Type := {
  channel : string;
  genre : string;
  santoorReach : number;
  maxCompReach : number;
  gap : number;
  channelShare : number;
  indexVsBaseline : number;
  indexVsCompetition : number;
  godrejReach : option number;
  luxReach : option number;
  lifebuoyReach : option number;
  mysore_sandalReach : option number;
  atcIndex : option number;
  optimizationType : option string
}.

Inductive Recommendation : Type := INCREASE | MAINTAIN | ADD | DECREASE.
Inductive Priority : Type := HIGH | MEDIUM | LOW.

(** A template literal, kept as its sequence of parts: the literal chunks
    and the numbers substituted into it, each with the conversion the
    source applies ([x.toFixed(d)], or the plain [ToString] of [${x}]). *)
Inductive part : Type :=
| Lit (s : string)
| ToFixed (x : number) (digits : nat)
| ToString (x : number).

Definition text : Type := list part.

Record OptimizationResult : Type := {
  result_channel : string;
  recommendation : Recommendation;
  priority : Priority;
  reason : text
}.

(** [Map<string, OptimizationResult>]: entries in insertion order;
    [set] on a key that is present replaces the value in place. *)
Module ResultMap.

Definition t : Type := list (string * OptimizationResult).

Definition empty : t := [].

Fixpoint set (k : string) (v : OptimizationResult) (m : t) : t :=
    match m with
    | [] => [(k, v)]
    | (k', v') :: m' =>
        if String.eqb k' k then (k, v) :: m' else (k', v') :: set k v m'
    end.

Fixpoint get (k : string) (m : t) : option OptimizationResult :=
    match m with
    | [] => None
    | (k', v') :: m' => if String.eqb k' k then Some v' else get k m'
    end.

Definition keys (m : t) : list string := map fst m.
Definition values (m : t) : list OptimizationResult := map snd m.

End ResultMap.

(* ================================================================= *)
(** ** STATUS: status from the competitive position *)

Definition calculateStatus (ch : ChannelRecord) : string :=
  if ((santoorReach ch === #0) && (maxCompReach ch === #0))%num then
    "INACTIVE"
  else if ((santoorReach ch === #0) && (maxCompReach ch >=? #2)
           && (channelShare ch >=? #1))%num then
    "OPPORTUNITY"
  else if ((santoorReach ch === #0) && (maxCompReach ch >? #0))%num then
    "INACTIVE"
  else if ((santoorReach ch >? #0) && (maxCompReach ch === #0))%num then
    "MONOPOLY"
  else if (indexVsCompetition ch >=? #150)%num then "DOMINANT"
  else if (indexVsCompetition ch >=? #100)%num then "LEADING"
  else if (indexVsCompetition ch >=? #80)%num then "CLOSE"
  else if (indexVsCompetition ch >=? #50)%num then "BEHIND"
  else "CRITICAL".

(* ================================================================= *)
(** ** PROTECTED CHANNELS: top performers for a threshold *)

Definition withSantoor (channels : list ChannelRecord) : list ChannelRecord :=
  filter (fun ch => (santoorReach ch >? #0)%num) channels.

(** [(a, b) => b.santoorReach - a.santoorReach] *)
Definition byReachDesc (a b : ChannelRecord) : number :=
  Number.sub (santoorReach b) (santoorReach a).

Definition sorted (channels : list ChannelRecord) : list ChannelRecord :=
  Array.sort byReachDesc (withSantoor channels).

Definition cutoff (channels : list ChannelRecord) (threshold : number) : number :=
  Number.ceil
    (Number.mul (#(Z.of_nat (List.length (sorted channels))))%num
                (Number.div threshold (#100)%num)).

Definition getProtectedChannels
    (channels : list ChannelRecord) (threshold : number) : list string :=
  map channel (Array.slice0 (sorted channels) (cutoff channels threshold)).

(* ================================================================= *)
(** ** OPTIMIZATION: recommendations *)

Definition gapThreshold (intensity : number) : number :=
  if (intensity <=? #10)%num then (#(-3))%num
  else if (intensity <=? #20)%num then (#(-2))%num
  else (#(-1))%num.

Definition indexThreshold (intensity : number) : number :=
  if (intensity <=? #10)%num then (#70)%num
  else if (intensity <=? #20)%num then (#80)%num
  else (#90)%num.

(** What one iteration of the loop stores under [ch.channel], if anything:
    [Some r] for a branch that calls [results.set] and then [continue]s,
    [None] when the iteration leaves [results] untouched. *)
Definition recommend
    (protectedChannels : list string) (intensity threshold : number)
    (ch : ChannelRecord) : option OptimizationResult :=
  if ((santoorReach ch === #0) && (maxCompReach ch === #0))%num then None
  else
    let isProtected := Array.includes protectedChannels (channel ch) in
    if ((santoorReach ch === #0) && (maxCompReach ch >=? #2)
        && (channelShare ch >=? #1))%num then
      Some {| result_channel := channel ch;
              recommendation := ADD;
              priority := if (maxCompReach ch >? #5)%num then HIGH
                          else if (maxCompReach ch >? #3)%num then MEDIUM
                          else LOW;
              reason := [Lit "Competitor at "; ToFixed (maxCompReach ch) 1;
                         Lit "%, Share "; ToFixed (channelShare ch) 1;
                         Lit "%"] |}
    else if ((santoorReach ch >? #0)
             && (gap ch <? gapThreshold intensity)
             && (indexVsCompetition ch <? indexThreshold intensity))%num then
      Some {| result_channel := channel ch;
              recommendation := INCREASE;
              priority := if (gap ch <? #(-5))%num then HIGH
                          else if (gap ch <? #(-2))%num then MEDIUM
                          else LOW;
              reason := [Lit "Gap of "; ToFixed (gap ch) 1;
                         Lit " pts, Index ";
                         ToFixed (indexVsCompetition ch) 0] |}
    else if (isProtected || (indexVsCompetition ch >=? #100)%num) then
      Some {| result_channel := channel ch;
              recommendation := MAINTAIN;
              priority := LOW;
              reason := if isProtected
                        then [Lit "Top "; ToString threshold;
                              Lit "% - protected"]
                        else [Lit "Leading competition"] |}
    else if (negb isProtected && (santoorReach ch >? #0)%num
             && (santoorReach ch <? dyadic 3 (-1))%num
             && (indexVsCompetition ch >? #120)%num) then
      Some {| result_channel := channel ch;
              recommendation := DECREASE;
              priority := LOW;
              reason := [Lit "Low reach ("; ToFixed (santoorReach ch) 1;
                         Lit "%), reallocate budget"] |}
    else if (santoorReach ch >? #0)%num then
      Some {| result_channel := channel ch;
              recommendation := MAINTAIN;
              priority := LOW;
              reason := [Lit "Stable performance"] |}
    else None.

Definition loop_body
    (protectedChannels : list string) (intensity threshold : number)
    (results : ResultMap.t) (ch : ChannelRecord) : ResultMap.t :=
  match recommend protectedChannels intensity threshold ch with
  | Some r => ResultMap.set (channel ch) r results
  | None => results
  end.

Definition runOptimization
    (channels : list ChannelRecord) (intensity threshold : number)
    : ResultMap.t :=
  let protectedChannels := getProtectedChannels channels threshold in
  fold_left (loop_body protectedChannels intensity threshold)
            channels ResultMap.empty.

(* ================================================================= *)
(** ** Vocabulary of the specification *)

(** The conditions of the decision table of the status classifier, in
    the order in which they are tried. *)
Definition both_zero (ch : ChannelRecord) : Prop :=
  (santoorReach ch === #0)%num = true /\ (maxCompReach ch === #0)%num = true.

Definition opportunity (ch : ChannelRecord) : Prop :=
  (santoorReach ch === #0)%num = true /\
  (maxCompReach ch >=? #2)%num = true /\
  (channelShare ch >=? #1)%num = true.

Definition competitor_only (ch : ChannelRecord) : Prop :=
  (santoorReach ch === #0)%num = true /\ (maxCompReach ch >? #0)%num = true.

Definition santoor_only (ch : ChannelRecord) : Prop :=
  (santoorReach ch >? #0)%num = true /\ (maxCompReach ch === #0)%num = true.

(** None of the first four rows applies: the status is read off the
    competitive index. *)
Definition by_index (ch : ChannelRecord) : Prop :=
  ~ both_zero ch /\ ~ opportunity ch /\ ~ competitor_only ch /\
  ~ santoor_only ch.

Definition statuses : list string :=
  ["INACTIVE"; "OPPORTUNITY"; "MONOPOLY"; "DOMINANT"; "LEADING"; "CLOSE";
   "BEHIND"; "CRITICAL"]%string.

(** A record with the given name and figures; the fields that no rule
    reads are left empty. *)
Definition record (name : string)
    (reach comp gap_ share index : number) : ChannelRecord :=
  {| channel := name; genre := ""; santoorReach := reach;
     maxCompReach := comp; gap := gap_; channelShare := share;
     indexVsBaseline := (#0)%num; indexVsCompetition := index;
     godrejReach := None; luxReach := None; lifebuoyReach := None;
     mysore_sandalReach := None; atcIndex := None;
     optimizationType := None |}.

(** [lo <= x && x <= hi] *)
Definition in_range (lo hi x : number) : bool :=
  ((lo <=? x) && (x <=? hi))%num.

(** Records of the scenarios of the specification. *)
Definition scenarioA : ChannelRecord :=
  record "A" (#0)%num (#3)%num (#(-3))%num (#2)%num (#0)%num.

Definition scenarioB : ChannelRecord :=
  record "B" (#5)%num (#8)%num (#(-6))%num (#2)%num (#60)%num.

Definition scenarioC : ChannelRecord :=
  record "C" (#10)%num (#0)%num (#10)%num (#2)%num (#0)%num.

(** A protected channel with index 40 that trails by 6 points. *)
Definition scenarioD : ChannelRecord :=
  record "D" (#5)%num (#11)%num (#(-6))%num (#2)%num (#40)%num.

(** A borderline record: gap -1.5, index 85. *)
Definition scenarioE : ChannelRecord :=
  record "E" (#5)%num (dyadic 13 (-1)) (dyadic (-3) (-1)) (#2)%num (#85)%num.

(** A channel on which nobody advertises, and one at the edge of a band. *)
Definition silent : ChannelRecord :=
  record "S" (#0)%num (#0)%num (#0)%num (#1)%num (#0)%num.

Definition edge150 : ChannelRecord :=
  record "X" (#6)%num (#4)%num (#2)%num (#1)%num (#150)%num.

(* ================================================================= *)
(** ** Further operators, [Math] and object literals *)

Module Operators.

(** [x + y] *)
Definition add (x y : number) : number := SFadd prec emax x y.

(** The value of a decimal literal [n/d] with small [n] and [d] ([0.1] is
    [decimal 1 10]): the double nearest to the quotient, which is what the
    correctly rounded division of the two integers returns. *)
Definition decimal (n d : Z) : number := Number.div (#n)%num (#d)%num.

(** [ToBoolean] of a number: [0], [-0] and NaN are falsy. *)
Definition truthy (x : number) : bool :=
  match x with
  | S754_zero _ => false
  | S754_nan => false
  | _ => true
  end.

End Operators.

Module Math.

Definition abs (x : number) : number := SFabs x.

(** [Math.min(x, y)]: NaN if either is NaN, and [-0] is below [+0]. *)
Definition min (x y : number) : number :=
  match SFcompare x y with
  | None => S754_nan
  | Some Lt => x
  | Some Gt => y
  | Some Eq =>
      match x, y with
      | S754_zero sx, S754_zero sy => S754_zero (sx || sy)
      | _, _ => x
      end
  end.

End Math.

(** An object literal used as a lookup table: its own properties, in
    source order. *)
Module Object.

Fixpoint get {V : Type} (o : list (string * V)) (k : string) : option V :=
  match o with
  | [] => None
  | (k', v) :: o' => if String.eqb k' k then Some v else get o' k
  end.

End Object.

(* ================================================================= *)
(** ** FILTER: channels that matter *)

Definition filterRelevantChannels
    (channels : list ChannelRecord) : list ChannelRecord :=
  filter (fun ch =>
            (santoorReach ch >? dyadic 1 (-1))%num
            || (maxCompReach ch >? dyadic 1 (-1))%num
            || (channelShare ch >? Operators.decimal 1 10)%num)
         channels.

(* ================================================================= *)
(** ** STYLES: colors for status and recommendations *)

Module Style.

Record t : Type := { bg : string; text : string; icon : string }.

End Style.

Definition STATUS_STYLES : list (string * Style.t) :=
  [ ("DOMINANT",
     {| Style.bg := "bg-green-100"; Style.text := "text-green-800";
        Style.icon := "🏆" |});
    ("LEADING",
     {| Style.bg := "bg-green-50"; Style.text := "text-green-700";
        Style.icon := "↑" |});
    ("CLOSE",
     {| Style.bg := "bg-yellow-50"; Style.text := "text-yellow-700";
        Style.icon := "~" |});
    ("BEHIND",
     {| Style.bg := "bg-orange-100"; Style.text := "text-orange-700";
        Style.icon := "↓" |});
    ("CRITICAL",
     {| Style.bg := "bg-red-100"; Style.text := "text-red-800";
        Style.icon := "⚠" |});
    ("OPPORTUNITY",
     {| Style.bg := "bg-purple-100"; Style.text := "text-purple-800";
        Style.icon := "+" |});
    ("MONOPOLY",
     {| Style.bg := "bg-blue-100"; Style.text := "text-blue-800";
        Style.icon := "★" |});
    ("INACTIVE",
     {| Style.bg := "bg-gray-100"; Style.text := "text-gray-400";
        Style.icon := "-" |}) ]%string.

Definition RECOMMENDATION_STYLES : list (string * Style.t) :=
  [ ("INCREASE",
     {| Style.bg := "bg-green-100"; Style.text := "text-green-800";
        Style.icon := "↑" |});
    ("MAINTAIN",
     {| Style.bg := "bg-blue-100"; Style.text := "text-blue-800";
        Style.icon := "—" |});
    ("ADD",
     {| Style.bg := "bg-purple-100"; Style.text := "text-purple-800";
        Style.icon := "+" |});
    ("DECREASE",
     {| Style.bg := "bg-red-100"; Style.text := "text-red-800";
        Style.icon := "↓" |}) ]%string.

(** The string a recommendation is in the source. *)
Definition Recommendation_name (r : Recommendation) : string :=
  match r with
  | INCREASE => "INCREASE"
  | MAINTAIN => "MAINTAIN"
  | ADD => "ADD"
  | DECREASE => "DECREASE"
  end.

Definition Recommendation_eqb (a b : Recommendation) : bool :=
  match a, b with
  | INCREASE, INCREASE | MAINTAIN, MAINTAIN | ADD, ADD
  | DECREASE, DECREASE => true
  | _, _ => false
  end.

Definition Priority_eqb (a b : Priority) : bool :=
  match a, b with
  | HIGH, HIGH | MEDIUM, MEDIUM | LOW, LOW => true
  | _, _ => false
  end.

(* ================================================================= *)
(** ** SUMMARY HELPERS *)

Module Summary.

Record t : Type := {
  increase : nat;
  maintain : nat;
  add : nat;
  decrease : nat;
  highPriority : nat
}.

End Summary.

Definition count_recommendation
    (rec : Recommendation) (arr : list OptimizationResult) : nat :=
  List.length
    (filter (fun r => Recommendation_eqb (recommendation r) rec) arr).

Definition getOptimizationSummary (results : ResultMap.t) : Summary.t :=
  let arr := ResultMap.values results in
  {| Summary.increase := count_recommendation INCREASE arr;
     Summary.maintain := count_recommendation MAINTAIN arr;
     Summary.add := count_recommendation ADD arr;
     Summary.decrease := count_recommendation DECREASE arr;
     Summary.highPriority :=
       List.length (filter (fun r => Priority_eqb (priority r) HIGH) arr) |}.

(* ================================================================= *)
(** ** The application: summary panel, badges and sort state *)

Module App.

Definition STATUS_CLASSES : list (string * string) :=
  [ ("LEADING", "signal-badge signal-positive");
    ("CLOSE", "signal-badge signal-warning");
    ("BEHIND", "signal-badge signal-negative");
    ("CRITICAL", "signal-badge signal-negative");
    ("OPPORTUNITY", "signal-badge signal-purple");
    ("MONOPOLY", "signal-badge signal-info") ]%string.

Definition REC_CLASSES : list (string * string) :=
  [ ("INCREASE", "signal-badge signal-positive");
    ("MAINTAIN", "signal-badge signal-info");
    ("ADD", "signal-badge signal-purple");
    ("DECREASE", "signal-badge signal-negative") ]%string.

(** [TABLE[key] || 'signal-badge signal-neutral'] *)
Definition classOr (table : list (string * string)) (key : string) : string :=
  match Object.get table key with
  | Some c => if String.eqb c "" then "signal-badge signal-neutral" else c
  | None => "signal-badge signal-neutral"
  end.

Definition statusClass (st : string) : string := classOr STATUS_CLASSES st.

Definition recClass (r : Recommendation) : string :=
  classOr REC_CLASSES (Recommendation_name r).

Record Summary : Type := {
  total : nat;
  rel : nat;
  active : nat;
  opp : nat;
  avgGap : number;
  avgATC : option number;
  status : string
}.

(** [(c as any).atcIndex || 0] *)
Definition atcIndexOr0 (c : ChannelRecord) : number :=
  match atcIndex c with
  | Some x => if Operators.truthy x then x else (#0)%num
  | None => (#0)%num
  end.

Definition summary (rawChannels : list ChannelRecord) (market : string)
    : Summary :=
  let rel_ := filterRelevantChannels rawChannels in
  let withS := filter (fun c => (santoorReach c >? #0)%num) rel_ in
  let opp_ :=
    filter (fun c => ((santoorReach c === #0) && (maxCompReach c >=? #2)
                      && (channelShare c >=? #1))%num) rel_ in
  let len := List.length withS in
  let avgGap_ :=
    if Nat.eqb len 0 then (#0)%num
    else Number.div
           (fold_left (fun s c => Operators.add s (gap c)) withS (#0)%num)
           (#(Z.of_nat len))%num in
  let avgATC_ :=
    if String.eqb market "Karnataka" && negb (Nat.eqb len 0) then
      Some (Number.div
              (fold_left (fun s c => Operators.add s (atcIndexOr0 c))
                         withS (#0)%num)
              (#(Z.of_nat len))%num)
    else None in
  {| total := List.length rawChannels;
     rel := List.length rel_;
     active := len;
     opp := List.length opp_;
     avgGap := avgGap_;
     avgATC := avgATC_;
     status := if (avgGap_ >=? #2)%num then "LEADING"
               else if (avgGap_ >=? #0)%num then "CLOSE"
               else if (avgGap_ >=? #(-2))%num then "BEHIND"
               else "CRITICAL" |}.

Inductive SortDir : Type := asc | desc.

Record SortState : Type := { sortCol : string; sortDir : SortDir }.

Definition handleSort (col : string) (s : SortState) : SortState :=
  if String.eqb (sortCol s) col then
    {| sortCol := sortCol s;
       sortDir := match sortDir s with asc => desc | desc => asc end |}
  else {| sortCol := col; sortDir := desc |}.

End App.

(* ================================================================= *)
(** ** The timeband heatmap: cell color and opacity *)

Module Heatmap.

Definition getHeatmapColor (value : number) (metric : string) : string :=
  if String.eqb metric "reach" || String.eqb metric "atcIndex" then
    if (value >=? #10)%num then "#10b981"
    else if (value >=? #5)%num then "#34d399"
    else if (value >=? #2)%num then "#6ee7b7"
    else if (value >=? dyadic 1 (-1))%num then "#a7f3d0"
    else "#d1fae5"
  else
    if (value >=? #5)%num then "#10b981"
    else if (value >=? #0)%num then "#fbbf24"
    else if (value >=? #(-5))%num then "#f59e0b"
    else "#ef4444".

Definition getHeatmapOpacity (value : number) : number :=
  if (value === #0)%num then Operators.decimal 1 5
  else
    Math.min (#1)%num
      (Operators.add (Operators.decimal 3 10)
         (Number.mul (Number.div (Math.abs value) (#20)%num)
                     (Operators.decimal 7 10))).

(** The two color scales, from the lowest band to the highest. *)
Definition reachScale : list string :=
  ["#d1fae5"; "#a7f3d0"; "#6ee7b7"; "#34d399"; "#10b981"]%string.

Definition gapScale : list string :=
  ["#ef4444"; "#f59e0b"; "#fbbf24"; "#10b981"]%string.

(** Position of a color in a scale (the length of the scale if absent). *)
Fixpoint band (scale : list string) (c : string) : nat :=
  match scale with
  | [] => 0
  | c' :: scale' => if String.eqb c' c then 0 else S (band scale' c)
  end.

End Heatmap.

(** A number that is not NaN and whose sign bit is clear. *)
Definition sign_clear (x : number) : Prop :=
  match x with
  | S754_nan => False
  | S754_zero s => s = false
  | S754_infinity s => s = false
  | S754_finite s _ _ => s = false
  end.

(* ================================================================= *)
(** ** The real numbers behind the doubles *)

(** [2^e] and the real number [m * 2^e]. *)
Definition bpow (e : Z) : R := powerRZ 2 e.

Definition F2R (m e : Z) : R := (IZR m * bpow e)%R.

(** The real value of a finite number; the zeros are [0]. *)
Definition B2R (x : number) : R :=
  match x with
  | S754_finite s m e => F2R (cond_Zopp s (Zpos m)) e
  | _ => 0%R
  end.

(** [inbetween m l y]: the integer part of [y] is [m], and [l] says where
    [y] lies between [m] and [m + 1]: on [m], below the middle, on the
    middle, or above it. *)
Definition inbetween (m : Z) (l : location) (y : R) : Prop :=
  match l with
  | loc_Exact => y = IZR m
  | loc_Inexact Lt => (IZR m < y < IZR m + / 2)%R
  | loc_Inexact Eq => y = (IZR m + / 2)%R
  | loc_Inexact Gt => (IZR m + / 2 < y < IZR m + 1)%R
  end.

Definition inbetween_record (mrs : shr_record) (y : R) : Prop :=
  inbetween (shr_m mrs) (loc_of_shr_record mrs) y.

(** [is_cexp x e]: [e] is the exponent at which a positive real [x] is
    rounded: the smallest exponent -1074 below [2^-1021], and otherwise
    the one that leaves 53 digits. *)
Definition is_cexp (x : R) (e : Z) : Prop :=
  (e = -1074 /\ (x < bpow (-1021))%R) \/
  (-1074 < e /\ (bpow (e + 52) <= x < bpow (e + 53))%R).

(** [rounded x mz ez]: [mz * 2^ez] is [x] rounded to nearest, ties to
    even, before any overflow. *)
Definition rounded (x : R) (mz ez : Z) : Prop :=
  exists m l,
    0 <= m /\ is_cexp x ez /\ inbetween m l (x * bpow (- ez)) /\
    mz = round_nearest_even m l.

(** [represents v f]: the number [f] stands for the non-negative real
    [v], infinity taking over from [2^1024] on. *)
Definition represents (v : R) (f : number) : Prop :=
  (v = 0%R /\ f = S754_zero false) \/
  (exists m e, f = S754_finite false m e /\
               bounded prec emax m e = true /\ F2R (Zpos m) e = v) \/
  ((bpow 1024 <= v)%R /\ f = S754_infinity false).

(** [Rounded x f]: [f] is the double nearest to the positive real [x]. *)
Definition Rounded (x : R) (f : number) : Prop :=
  exists mz ez, rounded x mz ez /\ represents (F2R mz ez) f.

(** A zero or a valid positive finite number. *)
Definition small (f : number) : Prop :=
  match f with
  | S754_zero _ => True
  | S754_finite s m e => s = false /\ bounded prec emax m e = true
  | _ => False
  end.

(** [Rounded0 x f]: [f] is the double nearest to the real [x >= 0]. *)
Definition Rounded0 (x : R) (f : number) : Prop :=
  (x = 0%R /\ exists s, f = S754_zero s) \/ ((0 < x)%R /\ Rounded x f).

(* ================================================================= *)
(** ** The store: arrays and maps as objects *)

(** [runOptimization] and [getProtectedChannels] once more, this time as
    the statements of the source acting on a store of objects: an array
    or a [Map] is a reference, [filter], the spread [[...a]], [slice],
    [map] and [new Map()] allocate a new object, [sort] and [set]
    update the object they are called on.  The records in an array are
    values: the two functions read the fields of a record and never
    assign to one.  Neither function reads a variable of the module. *)
Module Store.

Inductive object : Type :=
| RecordArray (elements : list ChannelRecord)
| StringArray (elements : list string)
| MapObject (entries : ResultMap.t).

Definition ref : Type := nat.

Definition t : Type := list object.

Definition get (r : ref) (h : t) : option object := nth_error h r.

Definition alloc (o : object) (h : t) : ref * t :=
  (List.length h, h ++ [o]).

Fixpoint put (r : ref) (o : object) (h : t) : t :=
  match h, r with
  | [], _ => []
  | _ :: h', O => o :: h'
  | x :: h', S r' => x :: put r' o h'
  end.

(** Every object of [h] is in [h'], unchanged, under the same
    reference. *)
Definition preserved (h h' : t) : Prop :=
  forall r o, get r h = Some o -> get r h' = Some o.

End Store.

(** A computation on the store; [None] is a call on a reference that
    does not hold an object of the expected kind, or a loop that ran
    out of fuel. *)
Definition Run (A : Type) : Type := Store.t -> option (A * Store.t).

Definition ret {A : Type} (a : A) : Run A := fun h => Some (a, h).

Definition bind {A B : Type} (c : Run A) (k : A -> Run B) : Run B :=
  fun h => match c h with
           | Some (a, h') => k a h'
           | None => None
           end.

Definition stuck {A : Type} : Run A := fun _ => None.

Declare Scope run_scope.
Delimit Scope run_scope with run.
Notation "x <- c ;; k" := (bind c (fun x => k))
  (at level 61, c at next level, right associativity) : run_scope.
Notation "c ;;; k" := (bind c (fun _ => k))
  (at level 61, right associativity) : run_scope.

Module Imperative.

(** [a.filter(p)]: a new array *)
Definition filter (a : Store.ref) (p : ChannelRecord -> bool)
    : Run Store.ref :=
  fun h => match Store.get a h with
           | Some (Store.RecordArray l) =>
               Some (Store.alloc (Store.RecordArray (List.filter p l)) h)
           | _ => None
           end.

(** [[...a]]: a new array with the elements of [a] *)
Definition spread (a : Store.ref) : Run Store.ref :=
  fun h => match Store.get a h with
           | Some (Store.RecordArray l) =>
               Some (Store.alloc (Store.RecordArray l) h)
           | _ => None
           end.

(** [a.sort(comparefn)]: sorts [a] in place and returns [a] *)
Definition sort (a : Store.ref)
    (comparefn : ChannelRecord -> ChannelRecord -> number)
    : Run Store.ref :=
  fun h => match Store.get a h with
           | Some (Store.RecordArray l) =>
               Some (a, Store.put a
                          (Store.RecordArray (Array.sort comparefn l)) h)
           | _ => None
           end.

(** [a.length] *)
Definition length (a : Store.ref) : Run number :=
  fun h => match Store.get a h with
           | Some (Store.RecordArray l) =>
               Some ((#(Z.of_nat (List.length l)))%num, h)
           | _ => None
           end.

(** [a.slice(0, end)]: a new array *)
Definition slice0 (a : Store.ref) (fin : number) : Run Store.ref :=
  fun h => match Store.get a h with
           | Some (Store.RecordArray l) =>
               Some (Store.alloc (Store.RecordArray (Array.slice0 l fin)) h)
           | _ => None
           end.

(** [a.map(f)] with a callback to strings: a new array *)
Definition map (a : Store.ref) (f : ChannelRecord -> string)
    : Run Store.ref :=
  fun h => match Store.get a h with
           | Some (Store.RecordArray l) =>
               Some (Store.alloc (Store.StringArray (List.map f l)) h)
           | _ => None
           end.

(** [a.includes(s)] on an array of strings *)
Definition includes (a : Store.ref) (s : string) : Run bool :=
  fun h => match Store.get a h with
           | Some (Store.StringArray l) => Some (Array.includes l s, h)
           | _ => None
           end.

(** [new Map()] *)
Definition newMap : Run Store.ref :=
  fun h => Some (Store.alloc (Store.MapObject ResultMap.empty) h).

(** [m.set(k, v)]: updates [m] *)
Definition set (m : Store.ref) (k : string) (v : OptimizationResult)
    : Run unit :=
  fun h => match Store.get m h with
           | Some (Store.MapObject entries) =>
               Some (tt, Store.put m
                           (Store.MapObject (ResultMap.set k v entries)) h)
           | _ => None
           end.

(** [for (const ch of a) body]: the array iterator reads the array anew
    at every step, [a[index]] while [index < a.length]; [continue]
    ends the step.  One unit of [fuel] per step. *)
Fixpoint forOf (fuel : nat) (a : Store.ref) (index : nat)
    (body : ChannelRecord -> Run unit) : Run unit :=
  match fuel with
  | O => stuck
  | S fuel' =>
      fun h =>
        match Store.get a h with
        | Some (Store.RecordArray l) =>
            match nth_error l index with
            | None => Some (tt, h)
            | Some ch => bind (body ch)
                              (fun _ => forOf fuel' a (S index) body) h
            end
        | _ => None
        end
  end.

Local Open Scope run_scope.

Definition getProtectedChannels (channels : Store.ref) (threshold : number)
    : Run Store.ref :=
  withSantoor <- filter channels (fun ch => (santoorReach ch >? #0)%num) ;;
  copy <- spread withSantoor ;;
  sorted <- sort copy byReachDesc ;;
  len <- length sorted ;;
  let cutoff :=
    Number.ceil (Number.mul len (Number.div threshold (#100)%num)) in
  top <- slice0 sorted cutoff ;;
  map top channel.

(** The body of the loop of [runOptimization] for the record [ch]; [ret tt]
    where the source [continue]s without a [set], and where it falls
    off the end of the body. *)
Definition iteration (protectedChannels results : Store.ref)
    (intensity threshold : number) (ch : ChannelRecord) : Run unit :=
  if ((santoorReach ch === #0) && (maxCompReach ch === #0))%num then ret tt
  else
    isProtected <- includes protectedChannels (channel ch) ;;
    if ((santoorReach ch === #0) && (maxCompReach ch >=? #2)
        && (channelShare ch >=? #1))%num then
      set results (channel ch)
        {| result_channel := channel ch;
           recommendation := ADD;
           priority := if (maxCompReach ch >? #5)%num then HIGH
                       else if (maxCompReach ch >? #3)%num then MEDIUM
                       else LOW;
           reason := [Lit "Competitor at "; ToFixed (maxCompReach ch) 1;
                      Lit "%, Share "; ToFixed (channelShare ch) 1;
                      Lit "%"] |}
    else if ((santoorReach ch >? #0)
             && (gap ch <? gapThreshold intensity)
             && (indexVsCompetition ch <? indexThreshold intensity))%num then
      set results (channel ch)
        {| result_channel := channel ch;
           recommendation := INCREASE;
           priority := if (gap ch <? #(-5))%num then HIGH
                       else if (gap ch <? #(-2))%num then MEDIUM
                       else LOW;
           reason := [Lit "Gap of "; ToFixed (gap ch) 1;
                      Lit " pts, Index ";
                      ToFixed (indexVsCompetition ch) 0] |}
    else if (isProtected || (indexVsCompetition ch >=? #100)%num) then
      set results (channel ch)
        {| result_channel := channel ch;
           recommendation := MAINTAIN;
           priority := LOW;
           reason := if isProtected
                     then [Lit "Top "; ToString threshold;
                           Lit "% - protected"]
                     else [Lit "Leading competition"] |}
    else if (negb isProtected && (santoorReach ch >? #0)%num
             && (santoorReach ch <? dyadic 3 (-1))%num
             && (indexVsCompetition ch >? #120)%num) then
      set results (channel ch)
        {| result_channel := channel ch;
           recommendation := DECREASE;
           priority := LOW;
           reason := [Lit "Low reach ("; ToFixed (santoorReach ch) 1;
                      Lit "%), reallocate budget"] |}
    else if (santoorReach ch >? #0)%num then
      set results (channel ch)
        {| result_channel := channel ch;
           recommendation := MAINTAIN;
           priority := LOW;
           reason := [Lit "Stable performance"] |}
    else ret tt.

Definition runOptimization (fuel : nat) (channels : Store.ref)
    (intensity threshold : number) : Run Store.ref :=
  protectedChannels <- getProtectedChannels channels threshold ;;
  results <- newMap ;;
  forOf fuel channels 0
        (iteration protectedChannels results intensity threshold) ;;;
  ret results.

End Imperative.

(* ================================================================= *)
(** * Properties *)

(** ** Comparisons of numbers *)

Module NumberFacts.

Ltac cmp_cases :=
  repeat match goal with
    | H : context [Z.compare ?a ?b] |- _ =>
        destruct (Z.compare_spec a b); simpl in H
    | |- context [Z.compare ?a ?b] =>
        destruct (Z.compare_spec a b); simpl
    | H : context [Pos.compare_cont Eq ?a ?b] |- _ =>
        change (Pos.compare_cont Eq a b) with (Pos.compare a b) in H;
        destruct (Pos.compare_spec a b); simpl in H
    | |- context [Pos.compare_cont Eq ?a ?b] =>
        change (Pos.compare_cont Eq a b) with (Pos.compare a b);
        destruct (Pos.compare_spec a b); simpl
    end;
  try discriminate; try reflexivity; try lia.

Ltac by_cases x :=
  destruct x as [[|]|[|]| |[|] ? ?]; simpl in *;
  try discriminate; try reflexivity.

(** The comparisons order the triples (sign, exponent, mantissa), so they
    are transitive on every pair of numbers they relate. *)
Lemma ltb_leb_trans (a b c : number) :
  (a <? b)%num = true -> (b <=? c)%num = true -> (a <? c)%num = true.
Proof.
  unfold Number.ltb, Number.leb, SFltb, SFleb.
  by_cases a; by_cases b; by_cases c; cmp_cases.
Qed.

Lemma leb_ltb_trans (a b c : number) :
  (a <=? b)%num = true -> (b <? c)%num = true -> (a <? c)%num = true.
Proof.
  unfold Number.ltb, Number.leb, SFltb, SFleb.
  by_cases a; by_cases b; by_cases c; cmp_cases.
Qed.

Lemma leb_trans (a b c : number) :
  (a <=? b)%num = true -> (b <=? c)%num = true -> (a <=? c)%num = true.
Proof.
  unfold Number.leb, SFleb.
  by_cases a; by_cases b; by_cases c; cmp_cases.
Qed.

Lemma ltb_leb (a b : number) : (a <? b)%num = true -> (a <=? b)%num = true.
Proof.
  unfold Number.ltb, Number.leb, SFltb, SFleb.
  destruct (SFcompare a b) as [[| |]|]; congruence.
Qed.

Lemma ltb_not_geb (a b : number) :
  (a <? b)%num = true -> (a >=? b)%num = false.
Proof.
  unfold Number.ltb, Number.geb, SFltb, SFleb.
  by_cases a; by_cases b; cmp_cases.
Qed.

Lemma ltb_not_eqb (a b : number) :
  (a <? b)%num = true -> (a === b)%num = false.
Proof.
  unfold Number.ltb, Number.eqb, SFltb, SFeqb.
  destruct (SFcompare a b) as [[| |]|]; congruence.
Qed.

Lemma gtb_not_eqb (a b : number) :
  (a >? b)%num = true -> (a === b)%num = false.
Proof.
  unfold Number.gtb, Number.eqb, SFltb, SFeqb.
  by_cases a; by_cases b; cmp_cases.
Qed.

Lemma gtb_ltb (a b : number) : (a >? b)%num = (b <? a)%num.
Proof. reflexivity. Qed.

Lemma geb_leb (a b : number) : (a >=? b)%num = (b <=? a)%num.
Proof. reflexivity. Qed.

End NumberFacts.

Import NumberFacts.

(** ** The result map *)

Module ResultMapFacts.

Lemma keys_set (k : string) (v : OptimizationResult) (m : ResultMap.t) :
  ResultMap.keys (ResultMap.set k v m) =
    if existsb (fun k' => String.eqb k' k) (ResultMap.keys m)
    then ResultMap.keys m
    else ResultMap.keys m ++ [k].
Proof.
  unfold ResultMap.keys.
  induction m as [|[k' v'] m IH]; simpl; [reflexivity|].
  destruct (String.eqb_spec k' k) as [->|Hne]; simpl; [reflexivity|].
  rewrite IH. destruct (existsb _ (map fst m)); reflexivity.
Qed.

Lemma NoDup_keys_set (k : string) (v : OptimizationResult) (m : ResultMap.t) :
  NoDup (ResultMap.keys m) -> NoDup (ResultMap.keys (ResultMap.set k v m)).
Proof.
  intros Hnd. rewrite keys_set.
  destruct (existsb _ (ResultMap.keys m)) eqn:Hex; [exact Hnd|].
  apply NoDup_app; [exact Hnd | constructor; [intros [] | constructor] |].
  intros x Hx [<-|[]].
  assert (existsb (fun k' => String.eqb k' k) (ResultMap.keys m) = true)
    by (apply existsb_exists; exists k; split;
        [exact Hx | apply String.eqb_refl]).
  congruence.
Qed.

Lemma In_set (k k0 : string) (v v0 : OptimizationResult) (m : ResultMap.t) :
  In (k0, v0) (ResultMap.set k v m) -> (k0, v0) = (k, v) \/ In (k0, v0) m.
Proof.
  induction m as [|[k' v'] m IH]; simpl.
  - intros [H|[]]; left; congruence.
  - destruct (String.eqb k' k); simpl; intros [H|H]; auto.
    destruct (IH H); auto.
Qed.

Lemma get_set (k k0 : string) (v : OptimizationResult) (m : ResultMap.t) :
  ResultMap.get k0 (ResultMap.set k v m) =
    if String.eqb k k0 then Some v else ResultMap.get k0 m.
Proof.
  induction m as [|[k' v'] m IH]; simpl.
  - reflexivity.
  - destruct (String.eqb_spec k' k) as [->|Hne]; simpl.
    + destruct (String.eqb k k0); reflexivity.
    + rewrite IH. destruct (String.eqb_spec k' k0) as [->|Hne0];
        [|reflexivity].
      destruct (String.eqb_spec k k0); congruence.
Qed.

Lemma get_In (k : string) (v : OptimizationResult) (m : ResultMap.t) :
  ResultMap.get k m = Some v -> In (k, v) m.
Proof.
  induction m as [|[k' v'] m IH]; simpl; [discriminate|].
  destruct (String.eqb_spec k' k) as [->|Hne]; intros H.
  - left; congruence.
  - right; auto.
Qed.

Lemma In_get (k : string) (v : OptimizationResult) (m : ResultMap.t) :
  NoDup (ResultMap.keys m) -> In (k, v) m -> ResultMap.get k m = Some v.
Proof.
  induction m as [|[k' v'] m IH]; simpl; [intros _ []|].
  intros Hnd [H|H]; inversion Hnd as [|? ? Hnotin Hnd']; subst.
  - inversion H; subst. now rewrite String.eqb_refl.
  - destruct (String.eqb_spec k' k) as [->|Hne]; [|auto].
    exfalso. apply Hnotin. apply (in_map fst) in H. exact H.
Qed.

End ResultMapFacts.

Import ResultMapFacts.

(** ** The loop of [runOptimization] *)

Section Loop.

Variable protectedChannels : list string.
Variables intensity threshold : number.

Let body := loop_body protectedChannels intensity threshold.
Let rec := recommend protectedChannels intensity threshold.

Lemma loop_NoDup (l : list ChannelRecord) (m : ResultMap.t) :
  NoDup (ResultMap.keys m) -> NoDup (ResultMap.keys (fold_left body l m)).
Proof.
  revert m; induction l as [|ch l IH]; simpl; intros m Hm; [exact Hm|].
  apply IH. unfold body, loop_body.
  destruct (recommend _ _ _ ch); [now apply NoDup_keys_set | exact Hm].
Qed.

(** Every entry was stored by an iteration of the loop, under the channel
    name of the record of that iteration. *)
Lemma loop_entries (l : list ChannelRecord) (m : ResultMap.t)
    (k : string) (r : OptimizationResult) :
  In (k, r) (fold_left body l m) ->
  In (k, r) m \/ exists ch, In ch l /\ channel ch = k /\ rec ch = Some r.
Proof.
  revert m; induction l as [|ch l IH]; simpl; intros m H; [now left|].
  destruct (IH _ H) as [Hin|(ch' & Hin & Hk & Hr)].
  - unfold body, loop_body in Hin. fold rec in Hin.
    destruct (rec ch) as [r'|] eqn:Hrec; [|now left].
    destruct (In_set _ _ _ _ _ Hin) as [Heq|Hm]; [|now left].
    inversion Heq; subst. right; exists ch; auto.
  - right; exists ch'; auto.
Qed.

(** Records with another name leave the entry of [k] alone. *)
Lemma loop_get_other (l : list ChannelRecord) (m : ResultMap.t) (k : string) :
  (forall ch, In ch l -> channel ch = k -> rec ch = None) ->
  ResultMap.get k (fold_left body l m) = ResultMap.get k m.
Proof.
  revert m; induction l as [|ch l IH]; simpl; intros m H; [reflexivity|].
  rewrite IH by auto. unfold body, loop_body. fold rec.
  destruct (rec ch) as [r|] eqn:Hrec; [|reflexivity].
  rewrite get_set. destruct (String.eqb_spec (channel ch) k) as [Heq|Hne];
    [|reflexivity].
  rewrite (H ch (or_introl eq_refl) Heq) in Hrec. discriminate.
Qed.

(** The entry of a channel is the one stored for the last record of that
    name. *)
Lemma loop_get_last (pre post : list ChannelRecord) (ch : ChannelRecord)
    (m : ResultMap.t) (r : OptimizationResult) :
  rec ch = Some r ->
  (forall ch', In ch' post -> channel ch' <> channel ch) ->
  ResultMap.get (channel ch) (fold_left body (pre ++ ch :: post) m) = Some r.
Proof.
  intros Hr Hpost. rewrite fold_left_app. simpl.
  rewrite loop_get_other
    by (intros ch' Hin Heq; now destruct (Hpost ch' Hin)).
  unfold body at 1, loop_body. fold rec. rewrite Hr.
  rewrite get_set. now rewrite String.eqb_refl.
Qed.

End Loop.

(* ================================================================= *)
(** ** The status classifier *)

Ltac split_bools :=
  repeat match goal with
    | H : _ /\ _ |- _ => destruct H
    | H : (_ && _)%bool = true |- _ => apply andb_prop in H
    | H : ?b = true, H' : context [?b] |- _ =>
        rewrite H in H'; simpl in H'
    | H : ?b = true |- context [?b] => rewrite H; simpl
    end.

(** C1. [calculateStatus] is total and follows the five rows of its table
    in priority order: both reaches zero gives INACTIVE; otherwise Santoor
    absent with competitor reach at least 2 and share at least 1 gives
    OPPORTUNITY; otherwise Santoor absent with a positive competitor
    reach gives INACTIVE; otherwise Santoor present with competitor reach
    zero gives MONOPOLY; otherwise the index decides: at least 150
    DOMINANT, at least 100 LEADING, at least 80 CLOSE, at least 50 BEHIND,
    CRITICAL below, with the values 150, 100, 80 and 50 themselves on
    the upper side. *)
Theorem calculateStatus_decision_table (ch : ChannelRecord) :
  In (calculateStatus ch) statuses /\
  (both_zero ch -> calculateStatus ch = "INACTIVE"%string) /\
  (~ both_zero ch -> opportunity ch ->
   calculateStatus ch = "OPPORTUNITY"%string) /\
  (~ both_zero ch -> ~ opportunity ch -> competitor_only ch ->
   calculateStatus ch = "INACTIVE"%string) /\
  (~ both_zero ch -> ~ opportunity ch -> ~ competitor_only ch ->
   santoor_only ch -> calculateStatus ch = "MONOPOLY"%string) /\
  (by_index ch ->
   calculateStatus ch =
     if (indexVsCompetition ch >=? #150)%num then "DOMINANT"%string
     else if (indexVsCompetition ch >=? #100)%num then "LEADING"%string
     else if (indexVsCompetition ch >=? #80)%num then "CLOSE"%string
     else if (indexVsCompetition ch >=? #50)%num then "BEHIND"%string
     else "CRITICAL"%string) /\
  (by_index ch ->
   (indexVsCompetition ch = (#150)%num ->
    calculateStatus ch = "DOMINANT"%string) /\
   (indexVsCompetition ch = (#100)%num ->
    calculateStatus ch = "LEADING"%string) /\
   (indexVsCompetition ch = (#80)%num ->
    calculateStatus ch = "CLOSE"%string) /\
   (indexVsCompetition ch = (#50)%num ->
    calculateStatus ch = "BEHIND"%string)).
Proof.
  assert (Hidx : by_index ch ->
    calculateStatus ch =
     if (indexVsCompetition ch >=? #150)%num then "DOMINANT"%string
     else if (indexVsCompetition ch >=? #100)%num then "LEADING"%string
     else if (indexVsCompetition ch >=? #80)%num then "CLOSE"%string
     else if (indexVsCompetition ch >=? #50)%num then "BEHIND"%string
     else "CRITICAL"%string).
  { unfold by_index, both_zero, opportunity, competitor_only, santoor_only,
      calculateStatus.
    intros (H1 & H2 & H3 & H4).
    destruct (santoorReach ch === #0)%num, (maxCompReach ch === #0)%num,
      (maxCompReach ch >=? #2)%num, (channelShare ch >=? #1)%num,
      (maxCompReach ch >? #0)%num, (santoorReach ch >? #0)%num;
      cbn [andb]; try reflexivity; exfalso; tauto. }
  split; [|split; [|split; [|split; [|split; [|split]]]]].
  - unfold calculateStatus, statuses.
    repeat match goal with
      | |- context [if ?b then _ else _] => destruct b
      end; simpl; tauto.
  - unfold both_zero, calculateStatus. intros [-> ->]. reflexivity.
  - unfold both_zero, opportunity, calculateStatus.
    destruct (santoorReach ch === #0)%num, (maxCompReach ch === #0)%num,
      (maxCompReach ch >=? #2)%num, (channelShare ch >=? #1)%num;
      cbn [andb]; intros Hn (H1 & H2 & H3);
      try reflexivity; try discriminate; exfalso; tauto.
  - unfold both_zero, opportunity, competitor_only, calculateStatus.
    destruct (santoorReach ch === #0)%num, (maxCompReach ch === #0)%num,
      (maxCompReach ch >=? #2)%num, (channelShare ch >=? #1)%num,
      (maxCompReach ch >? #0)%num;
      cbn [andb]; intros Hn Ho (H1 & H2);
      try reflexivity; try discriminate; exfalso; tauto.
  - unfold both_zero, opportunity, competitor_only, santoor_only,
      calculateStatus.
    destruct (santoorReach ch === #0)%num, (maxCompReach ch === #0)%num,
      (maxCompReach ch >=? #2)%num, (channelShare ch >=? #1)%num,
      (maxCompReach ch >? #0)%num, (santoorReach ch >? #0)%num;
      cbn [andb]; intros Hn Ho Hc (H1 & H2);
      try reflexivity; try discriminate; exfalso; tauto.
  - exact Hidx.
  - intros H. rewrite (Hidx H).
    repeat split; intros ->; reflexivity.
Qed.

Lemma calculateStatus_decision_table_witness :
  by_index edge150 /\ calculateStatus edge150 = "DOMINANT"%string.
Proof.
  assert (H : by_index edge150).
  { unfold by_index, both_zero, opportunity, competitor_only, santoor_only.
    vm_compute. repeat split; intros H; decompose [and] H; discriminate. }
  split; [exact H|].
  apply (calculateStatus_decision_table edge150); [exact H | reflexivity].
Defined.

(** Scenario C: Santoor at 10 with no competitor is a MONOPOLY. *)
Example calculateStatus_scenarioC :
  calculateStatus scenarioC = "MONOPOLY"%string.
Proof. reflexivity. Qed.

(* ================================================================= *)
(** ** The recommendation engine *)

Lemma recommend_channel (pc : list string) (i t : number)
    (ch : ChannelRecord) (r : OptimizationResult) :
  recommend pc i t ch = Some r -> result_channel r = channel ch.
Proof.
  unfold recommend.
  repeat match goal with
    | |- context [if ?b then _ else _] => destruct b
    end; intros H; inversion H; reflexivity.
Qed.

Lemma recommend_both_zero (pc : list string) (i t : number)
    (ch : ChannelRecord) :
  both_zero ch -> recommend pc i t ch = None.
Proof. unfold both_zero, recommend. intros [-> ->]. reflexivity. Qed.

Lemma recommend_not_both_zero (pc : list string) (i t : number)
    (ch : ChannelRecord) (r : OptimizationResult) :
  recommend pc i t ch = Some r -> ~ both_zero ch.
Proof.
  intros Hr Hz. rewrite (recommend_both_zero pc i t ch Hz) in Hr.
  discriminate.
Qed.

(** C2. The mapping returned by [runOptimization] has at most one entry
    per channel name, and no entry of it belongs to a record whose
    [santoorReach] and [maxCompReach] are both zero: every entry was
    stored for a record of the input that carries the entry's name and
    does not have both reaches zero, and the name of a record with both
    reaches zero is absent from the mapping unless another record that
    is not of this kind shares the name. *)
Theorem runOptimization_entries
    (channels : list ChannelRecord) (intensity threshold : number) :
  let results := runOptimization channels intensity threshold in
  NoDup (ResultMap.keys results) /\
  (forall k r, In (k, r) results ->
     exists ch, In ch channels /\ channel ch = k /\
                result_channel r = k /\ ~ both_zero ch /\
                recommend (getProtectedChannels channels threshold)
                          intensity threshold ch = Some r) /\
  (forall ch, In ch channels -> both_zero ch ->
     (forall ch', In ch' channels -> channel ch' = channel ch ->
                  both_zero ch') ->
     ResultMap.get (channel ch) results = None).
Proof.
  unfold runOptimization. cbv zeta. split; [|split].
  - apply loop_NoDup. constructor.
  - intros k r Hin.
    destruct (loop_entries _ _ _ _ _ _ _ Hin) as [[]|(ch & Hch & Hk & Hr)].
    exists ch. repeat split; auto.
    + rewrite <- Hk. eapply recommend_channel; eauto.
    + eapply recommend_not_both_zero; eauto.
  - intros ch Hch Hz Hsame. rewrite loop_get_other; [reflexivity|].
    intros ch' Hin' Heq. apply recommend_both_zero. auto.
Qed.

Lemma runOptimization_entries_witness :
  ResultMap.get (channel silent)
    (runOptimization [silent; scenarioB] (#15)%num (#70)%num) = None.
Proof.
  apply (runOptimization_entries [silent; scenarioB] (#15)%num (#70)%num).
  - left; reflexivity.
  - split; reflexivity.
  - intros ch' [<-|[<-|[]]] H; [split; reflexivity | discriminate H].
Defined.

(** Scenario D as the specification reads it: a protected channel that
    the INCREASE rule does not select is maintained, and the reason says
    that it is protected. *)
Lemma recommend_protected_maintain (pc : list string) (i t : number)
    (ch : ChannelRecord) :
  Array.includes pc (channel ch) = true ->
  (santoorReach ch >? #0)%num = true ->
  ((gap ch <? gapThreshold i) &&
   (indexVsCompetition ch <? indexThreshold i))%num = false ->
  recommend pc i t ch =
    Some {| result_channel := channel ch; recommendation := MAINTAIN;
            priority := LOW;
            reason := [Lit "Top "; ToString t; Lit "% - protected"] |}.
Proof.
  intros Hp Hs Hinc. unfold recommend.
  rewrite (gtb_not_eqb _ _ Hs). cbn [andb].
  rewrite Hs. cbn [andb]. rewrite Hinc, Hp. reflexivity.
Qed.

(** C3 (the code at the failing input).  The only record of the list is
    protected at threshold 70 and has index 40, and at intensity 15 the
    INCREASE rule, which comes first and does not look at the protected
    set, gives it INCREASE with priority HIGH. *)
Theorem protected_channel_gets_INCREASE :
  getProtectedChannels [scenarioD] (#70)%num = ["D"%string] /\
  indexVsCompetition scenarioD = (#40)%num /\
  runOptimization [scenarioD] (#15)%num (#70)%num =
    [("D"%string,
      {| result_channel := "D"; recommendation := INCREASE;
         priority := HIGH;
         reason := [Lit "Gap of "; ToFixed (#(-6))%num 1;
                    Lit " pts, Index "; ToFixed (#40)%num 0] |})].
Proof. repeat split; vm_compute; reflexivity. Qed.

(** C4 as stated fails: the record of scenario A is an OPPORTUNITY and
    gets ADD, but its priority is not MEDIUM. *)
Lemma scenarioA_priority_not_MEDIUM :
  ~ (calculateStatus scenarioA = "OPPORTUNITY"%string /\
     exists r,
       ResultMap.get "A" (runOptimization [scenarioA] (#15)%num (#70)%num)
         = Some r /\
       recommendation r = ADD /\ priority r = MEDIUM).
Proof.
  intros (_ & r & Hget & _ & Hp).
  vm_compute in Hget. inversion Hget; subst r. discriminate Hp.
Qed.

(** C4 (amended).  A record with [santoorReach] 0, [maxCompReach] 3 and
    [channelShare] 2 has status OPPORTUNITY, and [runOptimization] stores
    ADD for it with priority LOW: MEDIUM needs [maxCompReach > 3], and 3
    is not above 3. *)
Theorem opportunity_3_2_ADD_LOW
    (pre post : list ChannelRecord) (ch : ChannelRecord)
    (intensity threshold : number) :
  santoorReach ch = (#0)%num -> maxCompReach ch = (#3)%num ->
  channelShare ch = (#2)%num ->
  (forall ch', In ch' post -> channel ch' <> channel ch) ->
  calculateStatus ch = "OPPORTUNITY"%string /\
  ResultMap.get (channel ch)
    (runOptimization (pre ++ ch :: post) intensity threshold) =
    Some {| result_channel := channel ch; recommendation := ADD;
            priority := LOW;
            reason := [Lit "Competitor at "; ToFixed (#3)%num 1;
                       Lit "%, Share "; ToFixed (#2)%num 1; Lit "%"] |}.
Proof.
  intros Hs Hm Hc Hpost. split.
  - unfold calculateStatus. rewrite Hs, Hm, Hc. reflexivity.
  - unfold runOptimization. apply loop_get_last; [|exact Hpost].
    unfold recommend. rewrite Hs, Hm, Hc. reflexivity.
Qed.

Lemma opportunity_3_2_ADD_LOW_witness :
  calculateStatus scenarioA = "OPPORTUNITY"%string /\
  ResultMap.get "A" (runOptimization [scenarioA] (#15)%num (#70)%num) =
    Some {| result_channel := "A"; recommendation := ADD;
            priority := LOW;
            reason := [Lit "Competitor at "; ToFixed (#3)%num 1;
                       Lit "%, Share "; ToFixed (#2)%num 1; Lit "%"] |}.
Proof.
  apply (opportunity_3_2_ADD_LOW [] [] scenarioA (#15)%num (#70)%num);
    try reflexivity.
  intros ch' [].
Defined.

(** The DECREASE rule asks for an index above 120; such an index is at
    least 100, and the MAINTAIN rule before it has taken the record. *)
Lemma gt_120_ge_100 (x : number) :
  (x >? #120)%num = true -> (x >=? #100)%num = true.
Proof.
  intros H. apply ltb_leb. eapply leb_ltb_trans; [|exact H]. reflexivity.
Qed.

Lemma recommend_not_DECREASE (pc : list string) (i t : number)
    (ch : ChannelRecord) (r : OptimizationResult) :
  recommend pc i t ch = Some r -> recommendation r <> DECREASE.
Proof.
  unfold recommend.
  destruct ((santoorReach ch === #0) && (maxCompReach ch === #0))%num;
    [discriminate|].
  destruct ((santoorReach ch === #0) && (maxCompReach ch >=? #2)
            && (channelShare ch >=? #1))%num;
    [intros H; inversion H; discriminate|].
  destruct ((santoorReach ch >? #0) && (gap ch <? gapThreshold i)
            && (indexVsCompetition ch <? indexThreshold i))%num;
    [intros H; inversion H; discriminate|].
  destruct (Array.includes pc (channel ch)); cbn [orb negb andb];
    [intros H; inversion H; discriminate|].
  destruct (indexVsCompetition ch >=? #100)%num eqn:H100;
    [intros H; inversion H; discriminate|].
  destruct (indexVsCompetition ch >? #120)%num eqn:H120.
  - apply gt_120_ge_100 in H120. congruence.
  - rewrite !andb_false_r.
    destruct (santoorReach ch >? #0)%num; intros H; inversion H;
      discriminate.
Qed.

(** C5. No entry of the mapping returned by [runOptimization] recommends
    DECREASE: the DECREASE rule needs an index above 120 on a channel
    that is not protected, and the MAINTAIN rule placed before it takes
    every protected channel and every index of at least 100. *)
Theorem runOptimization_never_DECREASE
    (channels : list ChannelRecord) (intensity threshold : number)
    (k : string) (r : OptimizationResult) :
  In (k, r) (runOptimization channels intensity threshold) ->
  recommendation r <> DECREASE.
Proof.
  intros Hin. unfold runOptimization in Hin.
  destruct (loop_entries _ _ _ _ _ _ _ Hin) as [[]|(ch & _ & _ & Hr)].
  eapply recommend_not_DECREASE; eauto.
Qed.

Lemma runOptimization_never_DECREASE_witness :
  recommendation
    {| result_channel := "B"; recommendation := INCREASE; priority := HIGH;
       reason := [Lit "Gap of "; ToFixed (#(-6))%num 1;
                  Lit " pts, Index "; ToFixed (#60)%num 0] |} <> DECREASE.
Proof.
  apply (runOptimization_never_DECREASE [silent; scenarioB]
           (#15)%num (#70)%num "B"%string).
  vm_compute. left. reflexivity.
Defined.

(** ** Intensity tiers *)

Lemma lt_5_le_10 (x : number) :
  (x <? #5)%num = true -> (x <=? #10)%num = true.
Proof.
  intros H. apply ltb_leb. eapply ltb_leb_trans; [exact H | reflexivity].
Qed.

Lemma gt_30_not_le_20 (x : number) :
  (x >? #30)%num = true -> (x <=? #20)%num = false.
Proof.
  intros H. destruct (x <=? #20)%num eqn:H20; [|reflexivity].
  assert (H' : ((#30) <? (#20))%num = true)
    by (eapply ltb_leb_trans; [exact H | exact H20]).
  discriminate H'.
Qed.

Lemma gt_30_not_le_10 (x : number) :
  (x >? #30)%num = true -> (x <=? #10)%num = false.
Proof.
  intros H. destruct (x <=? #10)%num eqn:H10; [|reflexivity].
  assert (H' : ((#30) <? (#10))%num = true)
    by (eapply ltb_leb_trans; [exact H | exact H10]).
  discriminate H'.
Qed.

(** The intensity reaches the rules through the two cutoffs only. *)
Lemma runOptimization_cutoffs
    (channels : list ChannelRecord) (i i' threshold : number) :
  gapThreshold i = gapThreshold i' ->
  indexThreshold i = indexThreshold i' ->
  runOptimization channels i threshold =
  runOptimization channels i' threshold.
Proof.
  intros Hg Hi. unfold runOptimization.
  generalize (getProtectedChannels channels threshold) as pc.
  generalize ResultMap.empty as m.
  induction channels as [|ch l IH]; intros m pc; simpl; [reflexivity|].
  rewrite IH. f_equal. unfold loop_body, recommend. now rewrite Hg, Hi.
Qed.

(** C6 as stated fails: intensity 31 is outside [5, 30], threshold 95 is
    outside [50, 90], and the cutoffs are -1 and 90, not -3 and 70; the
    borderline record of scenario E gets INCREASE there and MAINTAIN in
    the lowest tier. *)
Lemma intensity_31_not_lowest_tier :
  ~ (forall intensity threshold : number,
       in_range (#5)%num (#30)%num intensity = false ->
       in_range (#50)%num (#90)%num threshold = false ->
       gapThreshold intensity = (#(-3))%num /\
       indexThreshold intensity = (#70)%num /\
       runOptimization [scenarioE] intensity threshold =
       runOptimization [scenarioE] (#5)%num threshold).
Proof.
  intros H.
  destruct (H (#31)%num (#95)%num eq_refl eq_refl) as (Hg & _).
  vm_compute in Hg. discriminate Hg.
Qed.

(** C6 (amended).  [runOptimization] checks no range.  An intensity
    below 5 is in the lowest tier: the cutoffs are -3 and 70 and the
    result is the one for intensity 5.  An intensity above 30 is in the
    highest tier: the cutoffs are -1 and 90 and the result is the one
    for intensity 30. *)
Theorem out_of_range_intensity_tiers
    (channels : list ChannelRecord) (intensity threshold : number) :
  ((intensity <? #5)%num = true ->
   gapThreshold intensity = (#(-3))%num /\
   indexThreshold intensity = (#70)%num /\
   runOptimization channels intensity threshold =
   runOptimization channels (#5)%num threshold) /\
  ((intensity >? #30)%num = true ->
   gapThreshold intensity = (#(-1))%num /\
   indexThreshold intensity = (#90)%num /\
   runOptimization channels intensity threshold =
   runOptimization channels (#30)%num threshold).
Proof.
  split; intros H.
  - assert (Hg : gapThreshold intensity = (#(-3))%num)
      by (unfold gapThreshold; now rewrite (lt_5_le_10 _ H)).
    assert (Hi : indexThreshold intensity = (#70)%num)
      by (unfold indexThreshold; now rewrite (lt_5_le_10 _ H)).
    repeat split; auto.
    apply runOptimization_cutoffs; [rewrite Hg | rewrite Hi]; reflexivity.
  - assert (Hg : gapThreshold intensity = (#(-1))%num)
      by (unfold gapThreshold;
          now rewrite (gt_30_not_le_10 _ H), (gt_30_not_le_20 _ H)).
    assert (Hi : indexThreshold intensity = (#90)%num)
      by (unfold indexThreshold;
          now rewrite (gt_30_not_le_10 _ H), (gt_30_not_le_20 _ H)).
    repeat split; auto.
    apply runOptimization_cutoffs; [rewrite Hg | rewrite Hi]; reflexivity.
Qed.

Lemma out_of_range_intensity_tiers_witness :
  gapThreshold (#31)%num = (#(-1))%num /\
  indexThreshold (#31)%num = (#90)%num /\
  runOptimization [scenarioE] (#31)%num (#95)%num =
  runOptimization [scenarioE] (#30)%num (#95)%num.
Proof.
  apply (out_of_range_intensity_tiers [scenarioE] (#31)%num (#95)%num).
  reflexivity.
Defined.

(** Scenario E: the borderline record flips between intensity 5 and 30. *)
Example scenarioE_flips :
  map (fun e => recommendation (snd e))
      (runOptimization [scenarioE] (#5)%num (#50)%num) = [MAINTAIN] /\
  map (fun e => recommendation (snd e))
      (runOptimization [scenarioE] (#30)%num (#50)%num) = [INCREASE].
Proof. split; vm_compute; reflexivity. Qed.

(** C9. At intensity 15 the cutoffs are -2 and 80, and a record with
    [santoorReach] 5, [gap] -6 and [indexVsCompetition] 60 gets INCREASE
    with priority HIGH (the gap is below -5), whether or not it is
    protected. *)
Theorem scenarioB_INCREASE_HIGH
    (pre post : list ChannelRecord) (ch : ChannelRecord)
    (threshold : number) :
  santoorReach ch = (#5)%num -> gap ch = (#(-6))%num ->
  indexVsCompetition ch = (#60)%num ->
  (forall ch', In ch' post -> channel ch' <> channel ch) ->
  gapThreshold (#15)%num = (#(-2))%num /\
  indexThreshold (#15)%num = (#80)%num /\
  ResultMap.get (channel ch)
    (runOptimization (pre ++ ch :: post) (#15)%num threshold) =
    Some {| result_channel := channel ch; recommendation := INCREASE;
            priority := HIGH;
            reason := [Lit "Gap of "; ToFixed (#(-6))%num 1;
                       Lit " pts, Index "; ToFixed (#60)%num 0] |}.
Proof.
  intros Hs Hg Hi Hpost. repeat split.
  unfold runOptimization. apply loop_get_last; [|exact Hpost].
  unfold recommend. rewrite Hs, Hg, Hi. reflexivity.
Qed.

Lemma scenarioB_INCREASE_HIGH_witness :
  Array.includes (getProtectedChannels [scenarioC; scenarioB] (#50)%num)
    "B" = false /\
  ResultMap.get "B"
    (runOptimization [scenarioC; scenarioB] (#15)%num (#50)%num) =
    Some {| result_channel := "B"; recommendation := INCREASE;
            priority := HIGH;
            reason := [Lit "Gap of "; ToFixed (#(-6))%num 1;
                       Lit " pts, Index "; ToFixed (#60)%num 0] |}.
Proof.
  split; [vm_compute; reflexivity|].
  apply (scenarioB_INCREASE_HIGH [scenarioC] [] scenarioB (#50)%num);
    try reflexivity.
  intros ch' [].
Defined.

(* ================================================================= *)
(** ** The statements of the source on the store *)

Module StoreFacts.

Lemma get_app (r : Store.ref) (o : Store.object) (h more : Store.t) :
  Store.get r h = Some o -> Store.get r (h ++ more) = Some o.
Proof.
  unfold Store.get. intros H.
  rewrite nth_error_app1; [exact H|].
  apply nth_error_Some. congruence.
Qed.

Lemma get_new (o : Store.object) (h more : Store.t) :
  Store.get (List.length h) (h ++ o :: more) = Some o.
Proof.
  unfold Store.get. rewrite nth_error_app2 by lia.
  rewrite Nat.sub_diag. reflexivity.
Qed.

Lemma put_new (o o' : Store.object) (h more : Store.t) :
  Store.put (List.length h) o' (h ++ o :: more) = h ++ o' :: more.
Proof. induction h as [|x h IH]; simpl; [reflexivity|]. now rewrite IH. Qed.

Lemma get_fresh (h : Store.t) (n : nat) :
  Store.get (List.length h + n)%nat h = None.
Proof. unfold Store.get. apply nth_error_None. lia. Qed.

Lemma preserved_app (h more : Store.t) : Store.preserved h (h ++ more).
Proof. intros r o H. now apply get_app. Qed.

(** [getProtectedChannels] allocates four arrays: the filtered one, its
    copy, which it sorts, the slice and the names. *)
Lemma getProtectedChannels_call
    (h : Store.t) (channels : Store.ref) (l : list ChannelRecord)
    (threshold : number) :
  Store.get channels h = Some (Store.RecordArray l) ->
  Imperative.getProtectedChannels channels threshold h =
  Some ((List.length h + 3)%nat,
        h ++ [Store.RecordArray (withSantoor l);
              Store.RecordArray (sorted l);
              Store.RecordArray
                (Array.slice0 (sorted l) (cutoff l threshold));
              Store.StringArray (getProtectedChannels l threshold)]).
Proof.
  intros Hc.
  unfold Imperative.getProtectedChannels, bind.
  unfold Imperative.filter at 1. rewrite Hc. unfold Store.alloc.
  unfold Imperative.spread at 1.
  rewrite (get_new _ h []).
  unfold Store.alloc. rewrite length_app. cbn [List.length].
  unfold Imperative.sort at 1.
  replace (h ++ [Store.RecordArray (List.filter (fun ch => (santoorReach ch >? # 0)%num) l)]) with
    ((h ++ [Store.RecordArray (withSantoor l)])) by reflexivity.
  set (h1 := h ++ [Store.RecordArray (withSantoor l)]).
  replace (List.length h + 1)%nat with (List.length h1)
    by (unfold h1; rewrite length_app; reflexivity).
  rewrite (get_new _ h1 []), (put_new _ _ h1 []).
  unfold Imperative.length at 1. rewrite (get_new _ h1 []).
  unfold Imperative.slice0 at 1. rewrite (get_new _ h1 []).
  unfold Store.alloc.
  set (h2 := h1 ++ [Store.RecordArray (Array.sort byReachDesc (withSantoor l))]).
  unfold Imperative.map.
  rewrite (get_new _ h2 []). unfold Store.alloc.
  f_equal. f_equal.
  - unfold h2, h1. rewrite !length_app. cbn [List.length]. lia.
  - unfold h2, h1. rewrite <- !app_assoc. reflexivity.
Qed.

Lemma skipn_nth_error {A : Type} (l : list A) (index : nat) (x : A) :
  nth_error l index = Some x -> skipn index l = x :: skipn (S index) l.
Proof.
  revert index. induction l as [|y l IH]; intros [|index] H;
    try discriminate.
  - injection H as ->. reflexivity.
  - cbn [skipn nth_error] in *. now apply IH.
Qed.

Ltac stores :=
  unfold Imperative.set;
  rewrite (get_new _ _ []), (put_new _ _ _ []); reflexivity.

(** One pass through the body of the loop does to the map object what
    [loop_body] does to its entries, and touches nothing else. *)
Lemma iteration_step
    (G : Store.t) (protectedChannels : Store.ref) (names : list string)
    (entries : ResultMap.t) (intensity threshold : number)
    (ch : ChannelRecord) :
  Store.get protectedChannels G = Some (Store.StringArray names) ->
  Imperative.iteration protectedChannels (List.length G)
    intensity threshold ch (G ++ [Store.MapObject entries]) =
  Some (tt, G ++ [Store.MapObject
                    (loop_body names intensity threshold entries ch)]).
Proof.
  intros Hp.
  unfold Imperative.iteration, loop_body, recommend.
  destruct ((santoorReach ch === #0) && (maxCompReach ch === #0))%num;
    [reflexivity|].
  unfold bind at 1. unfold Imperative.includes at 1.
  rewrite (get_app _ _ _ _ Hp).
  set (isProtected := Array.includes names (channel ch)).
  repeat
    match goal with
    | |- (if ?c then _ else _) _ = _ => destruct c; [stores|]
    end.
  reflexivity.
Qed.

(** The loop from [index] on, with fuel for the records that are left. *)
Lemma forOf_loop
    (G : Store.t) (channels protectedChannels : Store.ref)
    (l : list ChannelRecord) (names : list string)
    (intensity threshold : number) :
  Store.get channels G = Some (Store.RecordArray l) ->
  Store.get protectedChannels G = Some (Store.StringArray names) ->
  forall (fuel index : nat) (entries : ResultMap.t),
    (List.length l - index < fuel)%nat ->
    Imperative.forOf fuel channels index
      (Imperative.iteration protectedChannels (List.length G)
         intensity threshold)
      (G ++ [Store.MapObject entries]) =
    Some (tt, G ++ [Store.MapObject
                      (fold_left (loop_body names intensity threshold)
                         (skipn index l) entries)]).
Proof.
  intros Hc Hp. induction fuel as [|fuel IH]; intros index entries Hfuel;
    [lia|].
  cbn [Imperative.forOf]. rewrite (get_app _ _ _ _ Hc).
  destruct (nth_error l index) as [ch|] eqn:Hnth.
  - unfold bind. rewrite (iteration_step _ _ _ _ _ _ _ Hp).
    rewrite IH.
    + rewrite (skipn_nth_error _ _ _ Hnth). reflexivity.
    + assert (index < List.length l)%nat
        by (apply nth_error_Some; congruence).
      lia.
  - apply nth_error_None in Hnth. rewrite skipn_all2 by exact Hnth.
    reflexivity.
Qed.

(** A call of [runOptimization]: five new objects, the last of them the
    map that is returned, with the entries that the function
    [runOptimization] on lists computes. *)
Lemma runOptimization_call
    (h : Store.t) (channels : Store.ref) (l : list ChannelRecord)
    (intensity threshold : number) (fuel : nat) :
  Store.get channels h = Some (Store.RecordArray l) ->
  (List.length l < fuel)%nat ->
  Imperative.runOptimization fuel channels intensity threshold h =
  Some ((List.length h + 4)%nat,
        h ++ [Store.RecordArray (withSantoor l);
              Store.RecordArray (sorted l);
              Store.RecordArray
                (Array.slice0 (sorted l) (cutoff l threshold));
              Store.StringArray (getProtectedChannels l threshold);
              Store.MapObject (runOptimization l intensity threshold)]).
Proof.
  intros Hc Hfuel.
  unfold Imperative.runOptimization. unfold bind at 1.
  rewrite (getProtectedChannels_call _ _ _ _ Hc).
  unfold bind at 1. unfold Imperative.newMap, Store.alloc.
  set (G := h ++ [Store.RecordArray (withSantoor l);
                  Store.RecordArray (sorted l);
                  Store.RecordArray
                    (Array.slice0 (sorted l) (cutoff l threshold));
                  Store.StringArray (getProtectedChannels l threshold)]).
  assert (HG : List.length G = (List.length h + 4)%nat)
    by (unfold G; rewrite length_app; reflexivity).
  unfold bind.
  rewrite (forOf_loop G channels (List.length h + 3)%nat l
             (getProtectedChannels l threshold)).
  - unfold ret, runOptimization. cbn [skipn]. rewrite HG.
    unfold G. rewrite <- app_assoc. reflexivity.
  - unfold G. now apply get_app.
  - unfold G, Store.get. rewrite nth_error_app2 by lia.
    replace (List.length h + 3 - List.length h)%nat with 3%nat by lia.
    reflexivity.
  - lia.
Qed.

End StoreFacts.

(** C10. [runOptimization] is deterministic.  Take any two invocations,
    each in a store of its own, on arrays that hold the same records,
    with the same intensity and the same threshold (and fuel for one
    step per record and the final test of the loop).  Both return.  Each
    returns a map object that did not exist before the call, and the two
    maps have the same entries: the same keys in the same order, with
    the same recommendation, priority and reason under each key, namely
    the entries of [runOptimization] on the list of records.  A call
    changes no object that was in the store before it, the array it is
    given included: nothing that it leaves behind can reach a later
    call. *)
Theorem runOptimization_two_invocations
    (h1 h2 : Store.t) (channels1 channels2 : Store.ref)
    (l : list ChannelRecord) (intensity threshold : number)
    (fuel1 fuel2 : nat) :
  Store.get channels1 h1 = Some (Store.RecordArray l) ->
  Store.get channels2 h2 = Some (Store.RecordArray l) ->
  (List.length l < fuel1)%nat -> (List.length l < fuel2)%nat ->
  exists (results1 results2 : Store.ref) (h1' h2' : Store.t)
         (entries : ResultMap.t),
    Imperative.runOptimization fuel1 channels1 intensity threshold h1
    = Some (results1, h1') /\
    Imperative.runOptimization fuel2 channels2 intensity threshold h2
    = Some (results2, h2') /\
    Store.get results1 h1' = Some (Store.MapObject entries) /\
    Store.get results2 h2' = Some (Store.MapObject entries) /\
    entries = runOptimization l intensity threshold /\
    Store.get results1 h1 = None /\ Store.get results2 h2 = None /\
    Store.preserved h1 h1' /\ Store.preserved h2 h2'.
Proof.
  intros Hc1 Hc2 Hfuel1 Hfuel2.
  pose proof (StoreFacts.runOptimization_call
                h1 channels1 l intensity threshold fuel1 Hc1 Hfuel1) as R1.
  pose proof (StoreFacts.runOptimization_call
                h2 channels2 l intensity threshold fuel2 Hc2 Hfuel2) as R2.
  eexists _, _, _, _, _.
  split; [exact R1|]. split; [exact R2|].
  split; [|split; [|split; [reflexivity|]]].
  - unfold Store.get. rewrite nth_error_app2 by lia.
    replace (List.length h1 + 4 - List.length h1)%nat with 4%nat by lia.
    reflexivity.
  - unfold Store.get. rewrite nth_error_app2 by lia.
    replace (List.length h2 + 4 - List.length h2)%nat with 4%nat by lia.
    reflexivity.
  - split; [apply StoreFacts.get_fresh|].
    split; [apply StoreFacts.get_fresh|].
    split; apply StoreFacts.preserved_app.
Qed.

Lemma runOptimization_two_invocations_witness :
  exists (results1 results2 : Store.ref) (h1' h2' : Store.t)
         (entries : ResultMap.t),
    Imperative.runOptimization 3%nat 0%nat (#15)%num (#70)%num
      [Store.RecordArray [scenarioA; scenarioB]]
    = Some (results1, h1') /\
    Imperative.runOptimization 5%nat 1%nat (#15)%num (#70)%num
      [Store.StringArray ["Z"%string];
       Store.RecordArray [scenarioA; scenarioB]]
    = Some (results2, h2') /\
    Store.get results1 h1' = Some (Store.MapObject entries) /\
    Store.get results2 h2' = Some (Store.MapObject entries) /\
    entries = runOptimization [scenarioA; scenarioB] (#15)%num (#70)%num /\
    Store.get results1 [Store.RecordArray [scenarioA; scenarioB]] = None /\
    Store.get results2
      [Store.StringArray ["Z"%string];
       Store.RecordArray [scenarioA; scenarioB]] = None /\
    Store.preserved [Store.RecordArray [scenarioA; scenarioB]] h1' /\
    Store.preserved
      [Store.StringArray ["Z"%string];
       Store.RecordArray [scenarioA; scenarioB]] h2'.
Proof.
  apply (runOptimization_two_invocations
           [Store.RecordArray [scenarioA; scenarioB]]
           [Store.StringArray ["Z"%string];
            Store.RecordArray [scenarioA; scenarioB]]
           0%nat 1%nat [scenarioA; scenarioB] (#15)%num (#70)%num
           3%nat 5%nat);
    [reflexivity | reflexivity | simpl; lia | simpl; lia].
Defined.

(** Two calls one after the other, on two arrays with the same records
    (or twice on the same array): both maps are in the final store, they
    are two objects, and they have the same entries; what was in the
    store before the first call is as it was. *)
Lemma runOptimization_back_to_back
    (h : Store.t) (channels1 channels2 : Store.ref)
    (l : list ChannelRecord) (intensity threshold : number)
    (fuel1 fuel2 : nat) :
  Store.get channels1 h = Some (Store.RecordArray l) ->
  Store.get channels2 h = Some (Store.RecordArray l) ->
  (List.length l < fuel1)%nat -> (List.length l < fuel2)%nat ->
  exists (results1 results2 : Store.ref) (h1 h2 : Store.t),
    Imperative.runOptimization fuel1 channels1 intensity threshold h
    = Some (results1, h1) /\
    Imperative.runOptimization fuel2 channels2 intensity threshold h1
    = Some (results2, h2) /\
    results1 <> results2 /\
    Store.get results1 h2
    = Some (Store.MapObject (runOptimization l intensity threshold)) /\
    Store.get results2 h2
    = Some (Store.MapObject (runOptimization l intensity threshold)) /\
    Store.preserved h h2.
Proof.
  intros Hc1 Hc2 Hfuel1 Hfuel2.
  pose proof (StoreFacts.runOptimization_call
                h channels1 l intensity threshold fuel1 Hc1 Hfuel1) as R1.
  set (h1 := h ++ _) in R1.
  assert (Hc2' : Store.get channels2 h1 = Some (Store.RecordArray l))
    by (now apply StoreFacts.get_app).
  pose proof (StoreFacts.runOptimization_call
                h1 channels2 l intensity threshold fuel2 Hc2' Hfuel2) as R2.
  assert (Hlen : List.length h1 = (List.length h + 5)%nat)
    by (unfold h1; rewrite length_app; reflexivity).
  assert (Hr1 : Store.get (List.length h + 4)%nat h1
                = Some (Store.MapObject
                          (runOptimization l intensity threshold))).
  { unfold h1, Store.get. rewrite nth_error_app2 by lia.
    replace (List.length h + 4 - List.length h)%nat with 4%nat by lia.
    reflexivity. }
  eexists _, _, _, _.
  split; [exact R1|]. split; [exact R2|].
  split; [lia|]. split; [now apply StoreFacts.get_app|].
  split.
  - unfold Store.get. rewrite nth_error_app2 by lia.
    replace (List.length h1 + 4 - List.length h1)%nat with 4%nat by lia.
    reflexivity.
  - intros r o Hr. apply StoreFacts.get_app. now apply StoreFacts.get_app.
Qed.

(* ================================================================= *)
(** ** Status and recommendation side by side *)

Lemma zero_not_ge_2 (x : number) :
  (x === #0)%num = true -> (x >=? #2)%num = false.
Proof.
  unfold Number.eqb, Number.geb, SFeqb, SFleb.
  by_cases x.
Qed.

Lemma ge_2_gt_half (x : number) :
  (x >=? #2)%num = true -> (x >? dyadic 1 (-1))%num = true.
Proof.
  intros H. unfold Number.gtb. fold (Number.ltb (dyadic 1 (-1)) x).
  eapply ltb_leb_trans; [|exact H]. reflexivity.
Qed.

Lemma indexThreshold_le_90 (i : number) :
  (indexThreshold i <=? #90)%num = true.
Proof.
  unfold indexThreshold.
  destruct (i <=? #10)%num; [reflexivity|].
  destruct (i <=? #20)%num; reflexivity.
Qed.

Lemma lt_indexThreshold_not_ge_100 (i x : number) :
  (x <? indexThreshold i)%num = true -> (x >=? #100)%num = false.
Proof.
  intros H. destruct (x >=? #100)%num eqn:H100; [|reflexivity].
  assert (H90 : (x <? #90)%num = true)
    by (eapply ltb_leb_trans; [exact H | apply indexThreshold_le_90]).
  assert (Habs : ((#100) <? (#90))%num = true)
    by (eapply leb_ltb_trans; [exact H100 | exact H90]).
  discriminate Habs.
Qed.

Lemma calculateStatus_in_statuses (ch : ChannelRecord) :
  In (calculateStatus ch) statuses.
Proof.
  unfold calculateStatus, statuses.
  repeat match goal with
    | |- context [if ?b then _ else _] => destruct b
    end; simpl; tauto.
Qed.

Lemma calculateStatus_OPPORTUNITY (ch : ChannelRecord) :
  calculateStatus ch = "OPPORTUNITY"%string <-> opportunity ch.
Proof.
  unfold calculateStatus, opportunity.
  destruct (santoorReach ch === #0)%num eqn:Hs;
    destruct (maxCompReach ch === #0)%num eqn:Hm;
    destruct (maxCompReach ch >=? #2)%num eqn:H2;
    destruct (channelShare ch >=? #1)%num eqn:H1;
    cbn [andb];
    try (rewrite (zero_not_ge_2 _ Hm) in H2; discriminate H2);
    repeat match goal with
      | |- context [if ?b then _ else _] => destruct b
      end;
    split; intros H; try discriminate H; try reflexivity;
    try (decompose [and] H; discriminate); auto.
Qed.

Lemma recommend_ADD (pc : list string) (i t : number)
    (ch : ChannelRecord) (r : OptimizationResult) :
  recommend pc i t ch = Some r -> recommendation r = ADD ->
  opportunity ch /\
  forall pc' i' t', recommend pc' i' t' ch = Some r.
Proof.
  unfold recommend, opportunity.
  destruct ((santoorReach ch === #0) && (maxCompReach ch === #0))%num;
    [discriminate|].
  destruct (santoorReach ch === #0)%num;
    destruct (maxCompReach ch >=? #2)%num;
    destruct (channelShare ch >=? #1)%num; cbn [andb];
    try (intros H _; split; [auto | intros; exact H]);
    repeat match goal with
      | |- context [if ?b then _ else _] => destruct b
      end;
    intros H Hr; inversion H; subst r; discriminate Hr.
Qed.

Lemma opportunity_recommend (pc : list string) (i t : number)
    (ch : ChannelRecord) :
  opportunity ch ->
  exists r, recommend pc i t ch = Some r /\ recommendation r = ADD.
Proof.
  intros (Hs & H2 & H1). unfold recommend.
  destruct (maxCompReach ch === #0)%num eqn:Hm;
    [rewrite (zero_not_ge_2 _ Hm) in H2; discriminate H2|].
  rewrite Hs, H2, H1. cbn [andb]. eexists; split; reflexivity.
Qed.

(** X1. A recommendation is ADD exactly for the channels whose status is
    OPPORTUNITY: every ADD entry of the mapping was stored for a record
    of that name with status OPPORTUNITY, and a record with status
    OPPORTUNITY that no later record of the same name follows has an
    ADD entry. *)
Theorem ADD_iff_OPPORTUNITY
    (channels : list ChannelRecord) (intensity threshold : number) :
  (forall k r,
     In (k, r) (runOptimization channels intensity threshold) ->
     recommendation r = ADD ->
     exists ch, In ch channels /\ channel ch = k /\
                calculateStatus ch = "OPPORTUNITY"%string) /\
  (forall pre ch post,
     channels = pre ++ ch :: post ->
     (forall ch', In ch' post -> channel ch' <> channel ch) ->
     calculateStatus ch = "OPPORTUNITY"%string ->
     exists r,
       ResultMap.get (channel ch)
         (runOptimization channels intensity threshold) = Some r /\
       recommendation r = ADD).
Proof.
  split.
  - intros k r Hin Hr. unfold runOptimization in Hin.
    destruct (loop_entries _ _ _ _ _ _ _ Hin) as [[]|(ch & Hch & Hk & Hrec)].
    exists ch. repeat split; auto.
    apply calculateStatus_OPPORTUNITY.
    exact (proj1 (recommend_ADD _ _ _ _ _ Hrec Hr)).
  - intros pre ch post -> Hpost Hst.
    apply calculateStatus_OPPORTUNITY in Hst.
    destruct (opportunity_recommend
                (getProtectedChannels (pre ++ ch :: post) threshold)
                intensity threshold ch Hst) as (r & Hrec & Hr).
    exists r. split; [|exact Hr].
    unfold runOptimization. now apply loop_get_last.
Qed.

Lemma ADD_iff_OPPORTUNITY_witness :
  exists r,
    ResultMap.get "A"
      (runOptimization [scenarioB; scenarioA] (#15)%num (#70)%num)
      = Some r /\
    recommendation r = ADD.
Proof.
  apply (proj2 (ADD_iff_OPPORTUNITY [scenarioB; scenarioA]
                  (#15)%num (#70)%num) [scenarioB] scenarioA []).
  - reflexivity.
  - intros ch' [].
  - reflexivity.
Defined.

(** ** Lists of records with pairwise distinct channel names *)

Lemma filterRelevantChannels_names (channels : list ChannelRecord) :
  NoDup (map channel channels) ->
  NoDup (map channel (filterRelevantChannels channels)).
Proof.
  unfold filterRelevantChannels.
  induction channels as [|c l IH]; cbn [filter map]; intros H;
    [constructor|].
  inversion H as [|? ? Hnotin Hnd]; subst.
  match goal with
  | |- context [if ?b then _ else _] => destruct b
  end; cbn [map]; [constructor|]; auto.
  intros Hin. apply Hnotin. apply in_map_iff in Hin.
  destruct Hin as (x & Hx & Hin). apply filter_In in Hin.
  apply in_map_iff. exists x. tauto.
Qed.

Lemma In_split_last (l : list ChannelRecord) (ch : ChannelRecord) :
  In ch l -> NoDup (map channel l) ->
  exists pre post,
    l = pre ++ ch :: post /\
    (forall ch', In ch' pre -> channel ch' <> channel ch) /\
    (forall ch', In ch' post -> channel ch' <> channel ch).
Proof.
  intros Hin Hnd. destruct (in_split _ _ Hin) as (pre & post & ->).
  exists pre, post. split; [reflexivity|].
  rewrite map_app in Hnd. simpl in Hnd.
  pose proof (NoDup_remove_2 _ _ _ Hnd) as Hnot.
  split; intros ch' Hin' Heq; apply Hnot; apply in_or_app;
    [left | right]; rewrite <- Heq; now apply in_map.
Qed.

(** With distinct names, the entry of a channel is what the iteration on
    its record stores. *)
Lemma runOptimization_get (channels : list ChannelRecord)
    (intensity threshold : number) (ch : ChannelRecord) :
  NoDup (map channel channels) -> In ch channels ->
  ResultMap.get (channel ch) (runOptimization channels intensity threshold)
  = recommend (getProtectedChannels channels threshold)
              intensity threshold ch.
Proof.
  intros Hnd Hin. unfold runOptimization.
  set (pc := getProtectedChannels channels threshold). clearbody pc.
  destruct (In_split_last _ _ Hin Hnd) as (pre & post & -> & Hpre & Hpost).
  destruct (recommend pc intensity threshold ch) as [r|] eqn:Hr.
  - now apply loop_get_last.
  - rewrite loop_get_other; [reflexivity|].
    intros ch' Hin' Heq. apply in_app_or in Hin'.
    destruct Hin' as [Hin'|[<-|Hin']]; [|exact Hr|].
    + now destruct (Hpre ch' Hin').
    + now destruct (Hpost ch' Hin').
Qed.

Lemma filterRelevantChannels_In (channels : list ChannelRecord)
    (ch : ChannelRecord) :
  In ch (filterRelevantChannels channels) -> In ch channels.
Proof. unfold filterRelevantChannels. intros H. now apply filter_In in H. Qed.

Lemma opportunity_relevant (channels : list ChannelRecord)
    (ch : ChannelRecord) :
  In ch channels -> opportunity ch -> In ch (filterRelevantChannels channels).
Proof.
  intros Hin (_ & H2 & _). unfold filterRelevantChannels.
  apply filter_In. split; [exact Hin|].
  rewrite (ge_2_gt_half _ H2). now rewrite orb_true_r.
Qed.

(** X2. The relevance filter that the application puts in front of the
    optimization loses no opportunity: it keeps every record whose
    status is OPPORTUNITY, and, when channel names are distinct, the
    ADD entries of the mapping are the same with and without the
    filter. *)
Theorem filterRelevantChannels_keeps_ADD
    (channels : list ChannelRecord) (intensity threshold : number) :
  (forall ch, In ch channels ->
     calculateStatus ch = "OPPORTUNITY"%string ->
     In ch (filterRelevantChannels channels)) /\
  (NoDup (map channel channels) ->
   forall k r, recommendation r = ADD ->
     (In (k, r) (runOptimization channels intensity threshold) <->
      In (k, r) (runOptimization (filterRelevantChannels channels)
                   intensity threshold))).
Proof.
  split.
  - intros ch Hin Hst. apply opportunity_relevant; [exact Hin|].
    now apply calculateStatus_OPPORTUNITY.
  - intros Hnd k r Hr.
    assert (Hnd' : NoDup (map channel (filterRelevantChannels channels)))
      by (now apply filterRelevantChannels_names).
    split; intros Hin; unfold runOptimization in Hin;
      destruct (loop_entries _ _ _ _ _ _ _ Hin)
        as [[]|(ch & Hch & Hk & Hrec)];
      destruct (recommend_ADD _ _ _ _ _ Hrec Hr) as (Hopp & Hany);
      subst k; apply get_In.
    + rewrite runOptimization_get;
        [apply Hany | exact Hnd' | now apply opportunity_relevant].
    + rewrite runOptimization_get;
        [apply Hany | exact Hnd | now apply filterRelevantChannels_In in Hch].
Qed.

Lemma filterRelevantChannels_keeps_ADD_witness :
  In scenarioA (filterRelevantChannels [silent; scenarioA]).
Proof.
  apply (proj1 (filterRelevantChannels_keeps_ADD [silent; scenarioA]
                  (#15)%num (#70)%num)).
  - right; left; reflexivity.
  - reflexivity.
Defined.

(** ** Which records get an entry *)

Lemma recommend_positive (pc : list string) (i t : number)
    (ch : ChannelRecord) :
  (santoorReach ch >? #0)%num = true ->
  exists r, recommend pc i t ch = Some r /\
            (recommendation r = INCREASE \/ recommendation r = MAINTAIN).
Proof.
  intros Hs. unfold recommend.
  rewrite (gtb_not_eqb _ _ Hs), Hs. cbn [andb].
  destruct ((gap ch <? gapThreshold i)
            && (indexVsCompetition ch <? indexThreshold i))%num;
    [eexists; split; [reflexivity | now left]|].
  destruct (Array.includes pc (channel ch)
            || (indexVsCompetition ch >=? #100)%num) eqn:Hm;
    [eexists; split; [reflexivity | now right]|].
  apply orb_false_elim in Hm. destruct Hm as [Hp H100].
  rewrite Hp. cbn [negb andb].
  destruct (indexVsCompetition ch >? #120)%num eqn:H120;
    [apply gt_120_ge_100 in H120; congruence|].
  rewrite andb_false_r. eexists; split; [reflexivity | now right].
Qed.

Lemma loop_get_some (pc : list string) (i t : number)
    (l : list ChannelRecord) (m : ResultMap.t) (k : string) :
  ResultMap.get k m <> None ->
  ResultMap.get k (fold_left (loop_body pc i t) l m) <> None.
Proof.
  revert m; induction l as [|ch l IH]; simpl; intros m H; [exact H|].
  apply IH. unfold loop_body.
  destruct (recommend pc i t ch); [|exact H].
  rewrite get_set. destruct (String.eqb (channel ch) k); [discriminate|].
  exact H.
Qed.

(** X3. After the optimization every record with a positive
    [santoorReach] finds a recommendation under its channel name, so the
    table row of an active channel always has one to show; with distinct
    names it is INCREASE or MAINTAIN. *)
Theorem positive_reach_has_entry
    (channels : list ChannelRecord) (intensity threshold : number)
    (ch : ChannelRecord) :
  In ch channels -> (santoorReach ch >? #0)%num = true ->
  exists r,
    ResultMap.get (channel ch)
      (runOptimization channels intensity threshold) = Some r /\
    (NoDup (map channel channels) ->
     recommendation r = INCREASE \/ recommendation r = MAINTAIN).
Proof.
  intros Hin Hs. unfold runOptimization.
  set (pc := getProtectedChannels channels threshold).
  destruct (recommend_positive pc intensity threshold ch Hs)
    as (r0 & Hr0 & Hkind).
  destruct (ResultMap.get (channel ch)
              (fold_left (loop_body pc intensity threshold) channels
                 ResultMap.empty)) as [r|] eqn:Hget.
  - exists r. split; [reflexivity|]. intros Hnd.
    pose proof (runOptimization_get channels intensity threshold ch Hnd Hin)
      as Hrun.
    unfold runOptimization in Hrun. fold pc in Hrun.
    rewrite Hget, Hr0 in Hrun. inversion Hrun; subst. exact Hkind.
  - exfalso. destruct (in_split _ _ Hin) as (pre & post & Hl).
    rewrite Hl, fold_left_app in Hget. simpl in Hget.
    revert Hget. apply loop_get_some.
    unfold loop_body at 1. rewrite Hr0, get_set.
    now rewrite String.eqb_refl.
Qed.

Lemma positive_reach_has_entry_witness :
  exists r,
    ResultMap.get "B"
      (runOptimization [scenarioB; scenarioA] (#15)%num (#70)%num)
      = Some r /\
    (NoDup (map channel [scenarioB; scenarioA]) ->
     recommendation r = INCREASE \/ recommendation r = MAINTAIN).
Proof.
  apply (positive_reach_has_entry [scenarioB; scenarioA]
           (#15)%num (#70)%num scenarioB).
  - left; reflexivity.
  - reflexivity.
Defined.

Lemma ge_150_ge_100 (x : number) :
  (x >=? #150)%num = true -> (x >=? #100)%num = true.
Proof.
  intros H. unfold Number.geb in *. fold (Number.leb (#100)%num x).
  eapply leb_trans; [|exact H]. reflexivity.
Qed.

Lemma calculateStatus_leading (ch : ChannelRecord) :
  calculateStatus ch = "DOMINANT"%string \/
  calculateStatus ch = "LEADING"%string ->
  ~ both_zero ch /\ ~ opportunity ch /\
  (indexVsCompetition ch >=? #100)%num = true.
Proof.
  unfold calculateStatus, both_zero, opportunity.
  destruct (santoorReach ch === #0)%num, (maxCompReach ch === #0)%num,
    (maxCompReach ch >=? #2)%num, (channelShare ch >=? #1)%num,
    (maxCompReach ch >? #0)%num, (santoorReach ch >? #0)%num;
    cbn [andb];
    try (intros [H|H]; discriminate H);
    (destruct (indexVsCompetition ch >=? #150)%num eqn:H150;
     [apply ge_150_ge_100 in H150; rewrite H150;
      intros _; repeat split; intros H'; decompose [and] H'; discriminate |];
     destruct (indexVsCompetition ch >=? #100)%num;
     [intros _; repeat split; intros H'; decompose [and] H'; discriminate |];
     repeat match goal with
       | |- context [if ?b then _ else _] => destruct b
       end; intros [H|H]; discriminate H).
Qed.

Lemma recommend_leading (pc : list string) (i t : number)
    (ch : ChannelRecord) :
  ~ both_zero ch -> ~ opportunity ch ->
  (indexVsCompetition ch >=? #100)%num = true ->
  exists r, recommend pc i t ch = Some r /\
            recommendation r = MAINTAIN /\ priority r = LOW.
Proof.
  unfold both_zero, opportunity, recommend. intros Hz Ho H100.
  destruct ((santoorReach ch === #0) && (maxCompReach ch === #0))%num
    eqn:Hb; [apply andb_prop in Hb; tauto|].
  destruct ((santoorReach ch === #0) && (maxCompReach ch >=? #2)
            && (channelShare ch >=? #1))%num eqn:Hopp.
  { apply andb_prop in Hopp. destruct Hopp as [Hopp ?].
    apply andb_prop in Hopp. tauto. }
  destruct (indexVsCompetition ch <? indexThreshold i)%num eqn:Hlt;
    [apply lt_indexThreshold_not_ge_100 in Hlt; congruence|].
  rewrite andb_false_r, H100, orb_true_r.
  eexists; repeat split.
Qed.

(** X4. A channel whose status is DOMINANT or LEADING is always
    maintained: whatever the intensity and the threshold, its entry is
    MAINTAIN with priority LOW. *)
Theorem leading_status_MAINTAIN
    (pre post : list ChannelRecord) (ch : ChannelRecord)
    (intensity threshold : number) :
  (forall ch', In ch' post -> channel ch' <> channel ch) ->
  calculateStatus ch = "DOMINANT"%string \/
  calculateStatus ch = "LEADING"%string ->
  exists r,
    ResultMap.get (channel ch)
      (runOptimization (pre ++ ch :: post) intensity threshold) = Some r /\
    recommendation r = MAINTAIN /\ priority r = LOW.
Proof.
  intros Hpost Hst.
  destruct (calculateStatus_leading ch Hst) as (Hz & Ho & H100).
  destruct (recommend_leading
              (getProtectedChannels (pre ++ ch :: post) threshold)
              intensity threshold ch Hz Ho H100) as (r & Hr & Hm & Hp).
  exists r. repeat split; auto.
  unfold runOptimization. now apply loop_get_last.
Qed.

Lemma leading_status_MAINTAIN_witness :
  exists r,
    ResultMap.get "X"
      (runOptimization [scenarioB; edge150] (#30)%num (#50)%num) = Some r /\
    recommendation r = MAINTAIN /\ priority r = LOW.
Proof.
  apply (leading_status_MAINTAIN [scenarioB] [] edge150
           (#30)%num (#50)%num).
  - intros ch' [].
  - left; reflexivity.
Defined.

Lemma recommend_INCREASE (pc : list string) (i t : number)
    (ch : ChannelRecord) (r : OptimizationResult) :
  recommend pc i t ch = Some r -> recommendation r = INCREASE ->
  (santoorReach ch >? #0)%num = true /\
  (gap ch <? gapThreshold i)%num = true /\
  (indexVsCompetition ch <? indexThreshold i)%num = true.
Proof.
  unfold recommend.
  destruct ((santoorReach ch === #0) && (maxCompReach ch === #0))%num;
    [discriminate|].
  destruct ((santoorReach ch === #0) && (maxCompReach ch >=? #2)
            && (channelShare ch >=? #1))%num;
    [intros H Hr; inversion H; subst r; discriminate Hr|].
  destruct (santoorReach ch >? #0)%num,
    (gap ch <? gapThreshold i)%num,
    (indexVsCompetition ch <? indexThreshold i)%num; cbn [andb];
    try (intros _ _; repeat split; reflexivity);
    repeat match goal with
      | |- context [if ?b then _ else _] => destruct b
      end; intros H Hr; inversion H; subst r; discriminate Hr.
Qed.

Lemma calculateStatus_trailing (i : number) (ch : ChannelRecord) :
  (santoorReach ch >? #0)%num = true ->
  (indexVsCompetition ch <? indexThreshold i)%num = true ->
  In (calculateStatus ch)
     ["MONOPOLY"; "CLOSE"; "BEHIND"; "CRITICAL"]%string.
Proof.
  intros Hs Hlt. unfold calculateStatus.
  rewrite (gtb_not_eqb _ _ Hs), Hs. cbn [andb].
  pose proof (lt_indexThreshold_not_ge_100 _ _ Hlt) as H100.
  destruct (indexVsCompetition ch >=? #150)%num eqn:H150;
    [apply ge_150_ge_100 in H150; congruence|].
  rewrite H100.
  repeat match goal with
    | |- context [if ?b then _ else _] => destruct b
    end; simpl; tauto.
Qed.

(** X5. INCREASE is only recommended where Santoor is on air and not
    ahead: every INCREASE entry was stored for a record with a positive
    [santoorReach] whose status is MONOPOLY, CLOSE, BEHIND or CRITICAL,
    never DOMINANT, LEADING, OPPORTUNITY or INACTIVE. *)
Theorem INCREASE_only_when_trailing
    (channels : list ChannelRecord) (intensity threshold : number)
    (k : string) (r : OptimizationResult) :
  In (k, r) (runOptimization channels intensity threshold) ->
  recommendation r = INCREASE ->
  exists ch, In ch channels /\ channel ch = k /\
             (santoorReach ch >? #0)%num = true /\
             In (calculateStatus ch)
                ["MONOPOLY"; "CLOSE"; "BEHIND"; "CRITICAL"]%string.
Proof.
  intros Hin Hr. unfold runOptimization in Hin.
  destruct (loop_entries _ _ _ _ _ _ _ Hin) as [[]|(ch & Hch & Hk & Hrec)].
  destruct (recommend_INCREASE _ _ _ _ _ Hrec Hr) as (Hs & _ & Hlt).
  exists ch. repeat split; auto.
  eapply calculateStatus_trailing; eauto.
Qed.

Lemma INCREASE_only_when_trailing_witness :
  exists ch, In ch [silent; scenarioB] /\ channel ch = "B"%string /\
             (santoorReach ch >? #0)%num = true /\
             In (calculateStatus ch)
                ["MONOPOLY"; "CLOSE"; "BEHIND"; "CRITICAL"]%string.
Proof.
  apply (INCREASE_only_when_trailing [silent; scenarioB]
           (#15)%num (#70)%num "B"%string
           {| result_channel := "B"; recommendation := INCREASE;
              priority := HIGH;
              reason := [Lit "Gap of "; ToFixed (#(-6))%num 1;
                         Lit " pts, Index "; ToFixed (#60)%num 0] |}).
  - vm_compute. left. reflexivity.
  - reflexivity.
Defined.

(** ** Raising the intensity *)

Lemma gapThreshold_mono (i i' : number) :
  (i <=? i')%num = true ->
  (gapThreshold i <=? gapThreshold i')%num = true.
Proof.
  intros H. unfold gapThreshold.
  destruct (i' <=? #10)%num eqn:H10'.
  { rewrite (leb_trans _ _ _ H H10'). reflexivity. }
  destruct (i' <=? #20)%num eqn:H20'.
  { rewrite (leb_trans _ _ _ H H20').
    destruct (i <=? #10)%num; reflexivity. }
  destruct (i <=? #10)%num; [reflexivity|].
  destruct (i <=? #20)%num; reflexivity.
Qed.

Lemma indexThreshold_mono (i i' : number) :
  (i <=? i')%num = true ->
  (indexThreshold i <=? indexThreshold i')%num = true.
Proof.
  intros H. unfold indexThreshold.
  destruct (i' <=? #10)%num eqn:H10'.
  { rewrite (leb_trans _ _ _ H H10'). reflexivity. }
  destruct (i' <=? #20)%num eqn:H20'.
  { rewrite (leb_trans _ _ _ H H20').
    destruct (i <=? #10)%num; reflexivity. }
  destruct (i <=? #10)%num; [reflexivity|].
  destruct (i <=? #20)%num; reflexivity.
Qed.

Lemma recommend_INCREASE_value (pc : list string) (i t : number)
    (ch : ChannelRecord) :
  (santoorReach ch >? #0)%num = true ->
  (gap ch <? gapThreshold i)%num = true ->
  (indexVsCompetition ch <? indexThreshold i)%num = true ->
  recommend pc i t ch =
    Some {| result_channel := channel ch; recommendation := INCREASE;
            priority := if (gap ch <? #(-5))%num then HIGH
                        else if (gap ch <? #(-2))%num then MEDIUM
                        else LOW;
            reason := [Lit "Gap of "; ToFixed (gap ch) 1;
                       Lit " pts, Index ";
                       ToFixed (indexVsCompetition ch) 0] |}.
Proof.
  intros Hs Hg Hi. unfold recommend.
  rewrite (gtb_not_eqb _ _ Hs), Hs, Hg, Hi. reflexivity.
Qed.

Lemma recommend_INCREASE_mono (pc pc' : list string) (i i' t t' : number)
    (ch : ChannelRecord) (r : OptimizationResult) :
  (i <=? i')%num = true ->
  recommend pc i t ch = Some r -> recommendation r = INCREASE ->
  recommend pc' i' t' ch = Some r.
Proof.
  intros Hle Hrec Hr.
  destruct (recommend_INCREASE _ _ _ _ _ Hrec Hr) as (Hs & Hg & Hi).
  rewrite (recommend_INCREASE_value pc i t ch Hs Hg Hi) in Hrec.
  rewrite <- Hrec. apply recommend_INCREASE_value; [exact Hs | |].
  - eapply ltb_leb_trans; [exact Hg | now apply gapThreshold_mono].
  - eapply ltb_leb_trans; [exact Hi | now apply indexThreshold_mono].
Qed.

(** X6. Raising the intensity never withdraws an INCREASE: with
    distinct channel names, an INCREASE entry of the mapping at
    intensity [i] is still in the mapping, with the same priority and
    reason, at every intensity [i' >= i]. *)
Theorem raising_intensity_keeps_INCREASE
    (channels : list ChannelRecord) (i i' threshold : number)
    (k : string) (r : OptimizationResult) :
  NoDup (map channel channels) ->
  (i <=? i')%num = true ->
  In (k, r) (runOptimization channels i threshold) ->
  recommendation r = INCREASE ->
  In (k, r) (runOptimization channels i' threshold).
Proof.
  intros Hnd Hle Hin Hr. unfold runOptimization in Hin.
  destruct (loop_entries _ _ _ _ _ _ _ Hin) as [[]|(ch & Hch & Hk & Hrec)].
  subst k. apply get_In. rewrite runOptimization_get by assumption.
  eapply recommend_INCREASE_mono; eauto.
Qed.

Lemma raising_intensity_keeps_INCREASE_witness :
  In ("B"%string,
      {| result_channel := "B"; recommendation := INCREASE;
         priority := HIGH;
         reason := [Lit "Gap of "; ToFixed (#(-6))%num 1;
                    Lit " pts, Index "; ToFixed (#60)%num 0] |})
     (runOptimization [scenarioE; scenarioB] (#30)%num (#70)%num).
Proof.
  apply (raising_intensity_keeps_INCREASE [scenarioE; scenarioB]
           (#5)%num (#30)%num (#70)%num).
  - repeat constructor; simpl; intuition discriminate.
  - reflexivity.
  - vm_compute. right. left. reflexivity.
  - reflexivity.
Defined.

(** ** The summary of a mapping *)

Lemma count_recommendation_partition (arr : list OptimizationResult) :
  (count_recommendation INCREASE arr + count_recommendation MAINTAIN arr
   + count_recommendation ADD arr + count_recommendation DECREASE arr
   = List.length arr)%nat.
Proof.
  unfold count_recommendation.
  induction arr as [|r arr IH]; simpl; [reflexivity|].
  destruct (recommendation r); simpl; lia.
Qed.

Lemma count_HIGH_bound (arr : list OptimizationResult) :
  (forall r, In r arr -> priority r = HIGH ->
             recommendation r = INCREASE \/ recommendation r = ADD) ->
  (List.length (filter (fun r => Priority_eqb (priority r) HIGH) arr)
   <= count_recommendation INCREASE arr + count_recommendation ADD arr)%nat.
Proof.
  unfold count_recommendation.
  induction arr as [|r arr IH]; simpl; intros H; [lia|].
  assert (IH' := IH (fun r' Hin => H r' (or_intror Hin))).
  destruct (priority r) eqn:Hp; simpl;
    try (destruct (recommendation r); simpl; lia).
  destruct (H r (or_introl eq_refl) Hp) as [-> | ->]; simpl; lia.
Qed.

Lemma count_none (rec : Recommendation) (arr : list OptimizationResult) :
  (forall r, In r arr -> recommendation r <> rec) ->
  count_recommendation rec arr = 0%nat.
Proof.
  unfold count_recommendation.
  induction arr as [|r arr IH]; simpl; intros H; [reflexivity|].
  assert (Hr := H r (or_introl eq_refl)).
  destruct (recommendation r), rec; simpl; try (exfalso; congruence);
    apply IH; auto.
Qed.

Lemma recommend_HIGH (pc : list string) (i t : number)
    (ch : ChannelRecord) (r : OptimizationResult) :
  recommend pc i t ch = Some r -> priority r <> LOW ->
  recommendation r = INCREASE \/ recommendation r = ADD.
Proof.
  unfold recommend.
  repeat match goal with
    | |- context [if ?b then _ else _] => destruct b
    end; intros H Hp; inversion H; subst r; simpl in *; auto;
    exfalso; apply Hp; reflexivity.
Qed.

Lemma In_values (m : ResultMap.t) (r : OptimizationResult) :
  In r (ResultMap.values m) -> exists k, In (k, r) m.
Proof.
  unfold ResultMap.values. intros H. apply in_map_iff in H.
  destruct H as ([k r'] & Heq & Hin). simpl in Heq. subst r'.
  now exists k.
Qed.

(** X7. The five counts of [getOptimizationSummary]: on any mapping the
    four recommendation counts add up to its size and [highPriority]
    is at most the size; on a mapping returned by [runOptimization],
    [decrease] is 0 and every high priority belongs to an INCREASE or
    an ADD, so [highPriority <= increase + add]. *)
Theorem getOptimizationSummary_counts
    (results : ResultMap.t)
    (channels : list ChannelRecord) (intensity threshold : number) :
  let s := getOptimizationSummary results in
  let s' :=
    getOptimizationSummary (runOptimization channels intensity threshold) in
  (Summary.increase s + Summary.maintain s + Summary.add s
   + Summary.decrease s = List.length results)%nat /\
  (Summary.highPriority s <= List.length results)%nat /\
  Summary.decrease s' = 0%nat /\
  (Summary.highPriority s' <= Summary.increase s' + Summary.add s')%nat.
Proof.
  cbv zeta. unfold getOptimizationSummary. cbn [Summary.increase
    Summary.maintain Summary.add Summary.decrease Summary.highPriority].
  split; [|split; [|split]].
  - rewrite count_recommendation_partition.
    unfold ResultMap.values. apply length_map.
  - etransitivity; [apply filter_length_le|].
    unfold ResultMap.values. now rewrite length_map.
  - apply count_none. intros r Hin.
    destruct (In_values _ _ Hin) as (k & Hk). unfold runOptimization in Hk.
    destruct (loop_entries _ _ _ _ _ _ _ Hk) as [[]|(ch & _ & _ & Hrec)].
    eapply recommend_not_DECREASE; eauto.
  - apply count_HIGH_bound. intros r Hin Hp.
    destruct (In_values _ _ Hin) as (k & Hk). unfold runOptimization in Hk.
    destruct (loop_entries _ _ _ _ _ _ _ Hk) as [[]|(ch & _ & _ & Hrec)].
    eapply recommend_HIGH; eauto. congruence.
Qed.

(** ** Styles and badges *)

(** X8. No style lookup comes back empty: [STATUS_STYLES] has an entry
    for the status of every record and [RECOMMENDATION_STYLES] has one
    for every recommendation. *)
Theorem styles_cover
    (ch : ChannelRecord) (rec : Recommendation) :
  (exists st, Object.get STATUS_STYLES (calculateStatus ch) = Some st) /\
  (exists st,
     Object.get RECOMMENDATION_STYLES (Recommendation_name rec) = Some st).
Proof.
  split.
  - pose proof (calculateStatus_in_statuses ch) as H. unfold statuses in H.
    simpl in H.
    repeat (destruct H as [<-|H]; [eexists; reflexivity|]).
    destruct H.
  - destruct rec; eexists; reflexivity.
Qed.

(** X9. The status badge of a table row: [STATUS_CLASSES] has no key for
    DOMINANT and INACTIVE, so exactly the records with one of these two
    statuses get the neutral fallback class; a recommendation badge
    never falls back. *)
Theorem badge_fallback (ch : ChannelRecord) (rec : Recommendation) :
  (App.statusClass (calculateStatus ch)
     = "signal-badge signal-neutral"%string <->
   calculateStatus ch = "DOMINANT"%string \/
   calculateStatus ch = "INACTIVE"%string) /\
  App.recClass rec <> "signal-badge signal-neutral"%string.
Proof.
  split.
  - pose proof (calculateStatus_in_statuses ch) as H. unfold statuses in H.
    simpl in H.
    repeat (destruct H as [<-|H];
            [vm_compute; split;
             [intros H'; try discriminate H'; tauto
             | intros [H'|H']; try discriminate H'; reflexivity]|]).
    destruct H.
  - destruct rec; vm_compute; discriminate.
Qed.

(** ** The summary panel *)

Lemma filter_disjoint_length {A : Type} (p q : A -> bool) (l : list A) :
  (forall x, p x = true -> q x = false) ->
  (List.length (filter p l) + List.length (filter q l)
   <= List.length l)%nat.
Proof.
  intros H. induction l as [|a l IH]; simpl; [lia|].
  destruct (p a) eqn:Hp; [rewrite (H a Hp)|destruct (q a)]; simpl; lia.
Qed.

Lemma filter_filter {A : Type} (p q : A -> bool) (l : list A) :
  filter q (filter p l) = filter (fun x => p x && q x) l.
Proof.
  induction l as [|a l IH]; simpl; [reflexivity|].
  destruct (p a); simpl; [destruct (q a)|]; now rewrite IH.
Qed.

Lemma opportunity_bool (c : ChannelRecord) :
  ((santoorReach c === #0) && (maxCompReach c >=? #2)
   && (channelShare c >=? #1))%num = true <-> opportunity c.
Proof.
  unfold opportunity. rewrite !andb_true_iff. tauto.
Qed.

(** X10. The counts of the summary panel: the active and the
    opportunity channels are disjoint parts of the relevant ones, which
    are part of all channels, and the opportunity count is the number of
    channels of the market whose status is OPPORTUNITY. *)
Theorem summary_counts (rawChannels : list ChannelRecord) (market : string) :
  let s := App.summary rawChannels market in
  (App.active s + App.opp s <= App.rel s)%nat /\
  (App.rel s <= App.total s)%nat /\
  App.opp s =
    List.length
      (filter (fun c => String.eqb (calculateStatus c) "OPPORTUNITY")
              rawChannels).
Proof.
  cbv zeta. unfold App.summary. cbn [App.active App.opp App.rel App.total].
  split; [|split].
  - apply filter_disjoint_length. intros c Hs.
    now rewrite (gtb_not_eqb _ _ Hs).
  - unfold filterRelevantChannels. apply filter_length_le.
  - unfold filterRelevantChannels. rewrite filter_filter. f_equal.
    apply filter_ext. intros c.
    destruct (String.eqb_spec (calculateStatus c) "OPPORTUNITY") as [He|Hne].
    + apply calculateStatus_OPPORTUNITY in He.
      destruct He as (Hs & H2 & H1).
      rewrite Hs, H2, H1, (ge_2_gt_half _ H2), orb_true_r. reflexivity.
    + destruct ((santoorReach c === #0) && (maxCompReach c >=? #2)
                && (channelShare c >=? #1))%num eqn:Ho;
        [|now rewrite andb_false_r].
      exfalso. apply Hne. apply calculateStatus_OPPORTUNITY.
      now apply opportunity_bool.
Qed.

(** X11. The status line of the summary panel: it is LEADING, CLOSE,
    BEHIND or CRITICAL, each of which has its own badge class; a market
    without active channels has average gap [0] and status CLOSE; and
    the ATC average is only there for Karnataka with at least one
    active channel. *)
Theorem summary_status (rawChannels : list ChannelRecord) (market : string) :
  let s := App.summary rawChannels market in
  In (App.status s) ["LEADING"; "CLOSE"; "BEHIND"; "CRITICAL"]%string /\
  App.statusClass (App.status s) <> "signal-badge signal-neutral"%string /\
  (App.active s = 0%nat ->
   App.avgGap s = (#0)%num /\ App.status s = "CLOSE"%string /\
   App.avgATC s = None) /\
  (market <> "Karnataka"%string -> App.avgATC s = None).
Proof.
  cbv zeta.
  assert (Hin : In (App.status (App.summary rawChannels market))
                   ["LEADING"; "CLOSE"; "BEHIND"; "CRITICAL"]%string).
  { unfold App.summary. cbn [App.status].
    repeat match goal with
      | |- context [if (?x >=? ?y)%num then _ else _] =>
          destruct (x >=? y)%num
      end; simpl; tauto. }
  split; [exact Hin|]. split; [|split].
  - revert Hin.
    generalize (App.status (App.summary rawChannels market)) as st.
    intros st Hin. simpl in Hin.
    repeat (destruct Hin as [<-|Hin]; [vm_compute; discriminate|]).
    destruct Hin.
  - unfold App.summary. cbn [App.active App.avgGap App.status App.avgATC].
    intros ->. cbn [Nat.eqb negb andb]. rewrite andb_false_r.
    repeat split.
  - unfold App.summary. cbn [App.avgATC]. intros Hm.
    destruct (String.eqb_spec market "Karnataka"); [contradiction|].
    reflexivity.
Qed.

Lemma summary_status_witness :
  App.avgGap (App.summary [scenarioA; silent] "Karnataka") = (#0)%num /\
  App.status (App.summary [scenarioA; silent] "Karnataka") = "CLOSE"%string /\
  App.avgATC (App.summary [scenarioA; silent] "Karnataka") = None.
Proof.
  apply (summary_status [scenarioA; silent] "Karnataka"). reflexivity.
Defined.

(** ** The sort state of the table *)

(** X12. Clicking a column header, as far as the sort state goes: the
    clicked column becomes the sort column; on the column that was the
    sort column already the direction is reversed; a column that was not
    the sort column starts descending; and clicking the same header
    three times leaves the state of one click. *)
Theorem handleSort_clicks (col : string) (s : App.SortState) :
  App.sortCol (App.handleSort col s) = col /\
  (App.sortCol s = col ->
   App.sortDir (App.handleSort col s)
   = match App.sortDir s with
     | App.asc => App.desc
     | App.desc => App.asc
     end) /\
  (App.sortCol s <> col ->
   App.sortDir (App.handleSort col s) = App.desc) /\
  App.handleSort col (App.handleSort col (App.handleSort col s))
  = App.handleSort col s.
Proof.
  destruct s as [c d]. unfold App.handleSort. cbn [App.sortCol App.sortDir].
  destruct (String.eqb_spec c col) as [->|Hne];
    cbn [App.sortCol App.sortDir]; rewrite ?String.eqb_refl;
    cbn [App.sortCol App.sortDir]; rewrite ?String.eqb_refl;
    repeat split; try tauto; destruct d; reflexivity.
Qed.

Lemma handleSort_clicks_witness :
  App.sortDir
    (App.handleSort "gap"
       {| App.sortCol := "santoorReach"; App.sortDir := App.asc |})
  = App.desc.
Proof.
  apply (handleSort_clicks "gap"
           {| App.sortCol := "santoorReach"; App.sortDir := App.asc |}).
  discriminate.
Defined.

(** ** Rounding keeps the sign *)

Module RoundingFacts.

Lemma shr_1_nonneg (mrs : shr_record) :
  0 <= shr_m mrs -> 0 <= shr_m (shr_1 mrs).
Proof.
  destruct mrs as [m r s]. simpl.
  destruct m as [|[p|p|]|p]; simpl; lia.
Qed.

Lemma iter_pos_invariant {A : Type} (P : A -> Prop) (f : A -> A) :
  (forall x, P x -> P (f x)) ->
  forall p x, P x -> P (iter_pos f p x).
Proof.
  intros Hf. induction p as [p IH|p IH|]; intros x Hx; simpl; auto.
Qed.

Lemma shr_nonneg (mrs : shr_record) (e n : Z) :
  0 <= shr_m mrs -> 0 <= shr_m (fst (shr mrs e n)).
Proof.
  intros H. destruct n as [|p|p]; simpl; auto.
  apply (iter_pos_invariant (fun r => 0 <= shr_m r)); auto.
  apply shr_1_nonneg.
Qed.

Lemma shr_record_of_loc_m (m : Z) (l : location) :
  shr_m (shr_record_of_loc m l) = m.
Proof. destruct l as [|[| |]]; reflexivity. Qed.

Lemma shr_fexp_nonneg (m e : Z) (l : location) :
  0 <= m -> 0 <= shr_m (fst (shr_fexp prec emax m e l)).
Proof.
  intros H. unfold shr_fexp. apply shr_nonneg.
  now rewrite shr_record_of_loc_m.
Qed.

Lemma round_nearest_even_nonneg (m : Z) (l : location) :
  0 <= m -> 0 <= round_nearest_even m l.
Proof.
  intros H. destruct l as [|[| |]]; simpl; try lia.
  destruct (Z.even m); lia.
Qed.

(** Rounding a magnitude never gives NaN, and the result carries the
    sign it was asked for. *)
Lemma binary_round_aux_sign_clear (m e : Z) (l : location) :
  0 <= m -> sign_clear (binary_round_aux prec emax false m e l).
Proof.
  intros H. unfold binary_round_aux.
  pose proof (shr_fexp_nonneg m e l H) as H1.
  destruct (shr_fexp prec emax m e l) as [mrs' e'].
  simpl fst in H1.
  pose proof (shr_fexp_nonneg _ e' loc_Exact
                (round_nearest_even_nonneg _ (loc_of_shr_record mrs') H1))
    as H2.
  destruct (shr_fexp prec emax
              (round_nearest_even (shr_m mrs') (loc_of_shr_record mrs'))
              e' loc_Exact) as [mrs'' e''].
  simpl fst in H2.
  destruct (shr_m mrs'') as [|p|p]; [reflexivity | | lia].
  destruct (e'' <=? emax - prec); reflexivity.
Qed.

Lemma mul_sign_clear (x y : number) :
  sign_clear x -> sign_clear y ->
  match x, y with
  | S754_zero _, S754_infinity _ => False
  | S754_infinity _, S754_zero _ => False
  | _, _ => True
  end ->
  sign_clear (Number.mul x y).
Proof.
  unfold Number.mul, SFmul.
  destruct x as [sx|sx| |sx mx ex], y as [sy|sy| |sy my ey]; simpl;
    intros Hx Hy Hxy; subst; try tauto; try reflexivity.
  apply binary_round_aux_sign_clear. lia.
Qed.

Lemma div_sign_clear (x : number) (my : positive) (ey : Z) :
  sign_clear x ->
  sign_clear (Number.div x (S754_finite false my ey)).
Proof.
  unfold Number.div, SFdiv.
  destruct x as [sx|sx| |sx mx ex]; simpl; intros Hx; subst;
    try tauto; try reflexivity.
  unfold SFdiv_core_binary.
  set (m' := match _ with Z.pos _ => _ | 0 => _ | Z.neg _ => _ end).
  assert (Hm' : 0 <= m').
  { subst m'.
    destruct (ex - ey - Z.min _ _); try lia.
    apply Z.shiftl_nonneg. lia. }
  clearbody m'.
  destruct (Z.div_eucl m' (Zpos my)) as [q r] eqn:Hqr.
  apply binary_round_aux_sign_clear.
  replace q with (m' / Zpos my) by (unfold Z.div; now rewrite Hqr).
  apply Z.div_pos; lia.
Qed.

Lemma add_sign_clear (mx : positive) (ex : Z) (y : number) :
  sign_clear y ->
  sign_clear (Operators.add (S754_finite false mx ex) y).
Proof.
  unfold Operators.add, SFadd.
  destruct y as [sy|sy| |sy my ey]; simpl; intros Hy; subst;
    try tauto; try reflexivity.
  set (a := fst (shl_align mx ex (Z.min ex ey))).
  set (b := fst (shl_align my ey (Z.min ex ey))).
  unfold binary_normalize, binary_round.
  change (cond_Zopp false (Zpos b)) with (Zpos b). cbv iota beta.
  match goal with
  | |- context [shl_align (a + b) ?e1 ?e2] =>
      destruct (shl_align (a + b) e1 e2) as [mz ez]
  end.
  apply binary_round_aux_sign_clear. lia.
Qed.

Lemma compare_Gt_leb (a b : number) :
  SFcompare a b = Some Gt -> SFleb b a = true.
Proof.
  unfold SFleb. intros H.
  destruct a as [[|]|[|]| |[|] ma ea], b as [[|]|[|]| |[|] mb eb];
    simpl in *; try discriminate; try reflexivity;
    injection H as H; cmp_cases.
Qed.

Lemma min_1_range (x : number) :
  sign_clear x ->
  ((#0) <=? Math.min (#1) x)%num = true /\
  (Math.min (#1) x <=? #1)%num = true.
Proof.
  intros Hx. unfold Math.min.
  change (#1)%num with (S754_finite false 4503599627370496 (-52)).
  destruct (SFcompare (S754_finite false 4503599627370496 (-52)) x)
    as [[| |]|] eqn:Hc.
  - destruct x; split; reflexivity.
  - split; reflexivity.
  - split; [|now apply compare_Gt_leb].
    destruct x as [sx|sx| |sx mx ex]; simpl in Hx; subst;
      try tauto; try reflexivity; discriminate Hc.
  - destruct x; simpl in Hx; try tauto; discriminate Hc.
Qed.

End RoundingFacts.

(** ** The heatmap *)

(** X13. The opacity of a heatmap cell is a valid opacity: for every
    value that is not NaN it lies between 0 and 1, and only NaN gives
    NaN. *)
Theorem getHeatmapOpacity_range (value : number) :
  (value = S754_nan -> Heatmap.getHeatmapOpacity value = S754_nan) /\
  (value <> S754_nan ->
   ((#0) <=? Heatmap.getHeatmapOpacity value)%num = true /\
   (Heatmap.getHeatmapOpacity value <=? #1)%num = true).
Proof.
  split; [intros ->; reflexivity|].
  intros Hn. unfold Heatmap.getHeatmapOpacity.
  destruct (value === #0)%num eqn:Hz; [split; reflexivity|].
  apply RoundingFacts.min_1_range.
  change (Operators.decimal 3 10)
    with (S754_finite false 5404319552844595 (-54)).
  apply RoundingFacts.add_sign_clear.
  change (Operators.decimal 7 10)
    with (S754_finite false 6305039478318694 (-53)).
  change (#20)%num with (S754_finite false 5629499534213120 (-48)).
  assert (Habs : sign_clear (Math.abs value) /\
                 match Math.abs value with
                 | S754_zero _ => False | _ => True end).
  { destruct value as [s|s| |s m e]; simpl; try tauto.
    unfold Number.eqb, SFeqb in Hz. simpl in Hz. discriminate Hz. }
  destruct Habs as [Ha Hnz].
  pose proof (RoundingFacts.div_sign_clear _ 5629499534213120 (-48) Ha)
    as Hd.
  apply RoundingFacts.mul_sign_clear; [exact Hd | reflexivity |].
  destruct (Number.div _ _); exact I.
Qed.

Lemma getHeatmapOpacity_range_witness :
  ((#0) <=? Heatmap.getHeatmapOpacity (#(-40))%num)%num = true /\
  (Heatmap.getHeatmapOpacity (#(-40))%num <=? #1)%num = true.
Proof.
  apply (getHeatmapOpacity_range (#(-40))%num). discriminate.
Defined.

(** X14. The color bands of the heatmap are monotone: on either scale
    (the green one for the metrics reach and atcIndex, the
    red-to-green one for every other metric) the color is one of the
    scale, and a larger value never gets a lower band. *)
Theorem getHeatmapColor_monotone (v1 v2 : number) (metric : string) :
  (v1 <=? v2)%num = true ->
  let scale :=
    if String.eqb metric "reach" || String.eqb metric "atcIndex"
    then Heatmap.reachScale else Heatmap.gapScale in
  In (Heatmap.getHeatmapColor v1 metric) scale /\
  In (Heatmap.getHeatmapColor v2 metric) scale /\
  (Heatmap.band scale (Heatmap.getHeatmapColor v1 metric)
   <= Heatmap.band scale (Heatmap.getHeatmapColor v2 metric))%nat.
Proof.
  intros Hle.
  assert (Hm : forall c, (v1 >=? c)%num = true -> (v2 >=? c)%num = true).
  { intros c Hc. unfold Number.geb in *.
    fold (Number.leb c v1) in Hc. fold (Number.leb c v2).
    eapply leb_trans; eauto. }
  cbv zeta. unfold Heatmap.getHeatmapColor.
  destruct (String.eqb metric "reach" || String.eqb metric "atcIndex");
    repeat match goal with
      | |- context [if (?x >=? ?c)%num then _ else _] =>
          let E := fresh "E" in destruct (x >=? c)%num eqn:E
      end;
    repeat match goal with
      | H : (v1 >=? ?c)%num = true |- _ => apply Hm in H
      end;
    try congruence;
    (split; [simpl; tauto | split; [simpl; tauto | vm_compute; lia]]).
Qed.

Lemma getHeatmapColor_monotone_witness :
  (Heatmap.band Heatmap.gapScale
     (Heatmap.getHeatmapColor (#(-6))%num "gap")
   <= Heatmap.band Heatmap.gapScale
        (Heatmap.getHeatmapColor (#3)%num "gap"))%nat.
Proof.
  apply (getHeatmapColor_monotone (#(-6))%num (#3)%num "gap").
  reflexivity.
Defined.

(** ** The protected set *)

Lemma insert_Permutation {A : Type} (cmp : A -> A -> number)
    (x : A) (l : list A) :
  Permutation (Array.insert cmp x l) (x :: l).
Proof.
  induction l as [|y l IH]; simpl; [reflexivity|].
  destruct (Number.gtb _ _); [|reflexivity].
  rewrite IH. apply perm_swap.
Qed.

Lemma sort_Permutation {A : Type} (cmp : A -> A -> number) (l : list A) :
  Permutation (Array.sort cmp l) l.
Proof.
  induction l as [|x l IH]; simpl; [reflexivity|].
  rewrite insert_Permutation. now constructor.
Qed.

Lemma slice0_firstn {A : Type} (l : list A) (fin : number) :
  exists k, Array.slice0 l fin = firstn k l.
Proof. unfold Array.slice0. eexists; reflexivity. Qed.

Lemma In_firstn_In {A : Type} (k : nat) (l : list A) (x : A) :
  In x (firstn k l) -> In x l.
Proof.
  intros H. rewrite <- (firstn_skipn k l). apply in_or_app. now left.
Qed.

(** X15. Only channels on which Santoor is on air can be protected:
    every name returned by [getProtectedChannels] is the name of an
    input record with a positive [santoorReach], and there are at most
    as many names as there are such records. *)
Theorem getProtectedChannels_sound
    (channels : list ChannelRecord) (threshold : number) :
  (forall name, In name (getProtectedChannels channels threshold) ->
     exists ch, In ch channels /\ channel ch = name /\
                (santoorReach ch >? #0)%num = true) /\
  (List.length (getProtectedChannels channels threshold)
   <= List.length (withSantoor channels))%nat /\
  (List.length (withSantoor channels) <= List.length channels)%nat.
Proof.
  unfold getProtectedChannels.
  destruct (slice0_firstn (sorted channels) (cutoff channels threshold))
    as (k & ->).
  split; [|split].
  - intros name Hin. apply in_map_iff in Hin.
    destruct Hin as (ch & Hname & Hin). apply In_firstn_In in Hin.
    unfold sorted in Hin.
    apply (Permutation_in _ (sort_Permutation _ _)) in Hin.
    unfold withSantoor in Hin. apply filter_In in Hin.
    exists ch. tauto.
  - rewrite length_map, length_firstn.
    etransitivity; [apply Nat.le_min_r|].
    unfold sorted.
    rewrite (Permutation_length
               (sort_Permutation byReachDesc (withSantoor channels))).
    apply Nat.le_refl.
  - unfold withSantoor. apply filter_length_le.
Qed.

Lemma getProtectedChannels_sound_witness :
  exists ch, In ch [scenarioA; scenarioD] /\ channel ch = "D"%string /\
             (santoorReach ch >? #0)%num = true.
Proof.
  apply (proj1 (getProtectedChannels_sound [scenarioA; scenarioD]
                  (#70)%num) "D"%string).
  vm_compute. left. reflexivity.
Defined.

Lemma slice0_zero_or_nan {A : Type} (l : list A) (fin : number) :
  match fin with
  | S754_zero _ => True
  | S754_nan => True
  | _ => False
  end -> Array.slice0 l fin = [].
Proof.
  unfold Array.slice0.
  destruct fin; simpl; try tauto; intros _;
    replace (Z.min 0 (Z.of_nat (List.length l))) with 0 by lia;
    reflexivity.
Qed.

(** X16. Thresholds that protect nothing: when [threshold] is [0],
    [-0] or NaN the protected set is empty, whatever the records. *)
Theorem getProtectedChannels_zero_threshold
    (channels : list ChannelRecord) (threshold : number) :
  (threshold === #0)%num = true \/ threshold = S754_nan ->
  getProtectedChannels channels threshold = [].
Proof.
  intros H. unfold getProtectedChannels.
  rewrite slice0_zero_or_nan; [reflexivity|].
  unfold cutoff.
  generalize ((#(Z.of_nat (List.length (sorted channels))))%num) as n.
  intros n.
  change (#100)%num with (S754_finite false 7036874417766400 (-46)).
  destruct H as [H| ->].
  - destruct threshold as [s|[|]| |[|] m e];
      try (unfold Number.eqb, SFeqb in H; simpl in H; discriminate H).
    destruct n as [sn|sn| |sn mn en]; simpl; exact I.
  - destruct n as [sn|sn| |sn mn en]; simpl; exact I.
Qed.

Lemma getProtectedChannels_zero_threshold_witness :
  getProtectedChannels [scenarioB; scenarioD] (#0)%num = [].
Proof.
  apply (getProtectedChannels_zero_threshold [scenarioB; scenarioD]
           (#0)%num).
  left. reflexivity.
Defined.

Lemma recommend_protected_reason (pc : list string) (i t : number)
    (ch : ChannelRecord) (r : OptimizationResult) :
  recommend pc i t ch = Some r ->
  reason r = [Lit "Top "; ToString t; Lit "% - protected"] ->
  Array.includes pc (channel ch) = true.
Proof.
  unfold recommend.
  destruct (Array.includes pc (channel ch)); [reflexivity|].
  repeat match goal with
    | |- context [if ?b then _ else _] => destruct b
    end; intros H Hr; inversion H; subst r; discriminate Hr.
Qed.

(** X17. What protection does and does not buy.  A record with a
    positive [santoorReach] whose name is protected gets INCREASE when
    its gap and its index are both below the cutoffs of the intensity,
    and otherwise MAINTAIN with priority LOW and the reason
    "Top <threshold>% - protected"; and that reason is only ever given
    to a protected name. *)
Theorem protected_outcome
    (pre post : list ChannelRecord) (ch : ChannelRecord)
    (intensity threshold : number) :
  let channels := pre ++ ch :: post in
  let results := runOptimization channels intensity threshold in
  ((forall ch', In ch' post -> channel ch' <> channel ch) ->
   Array.includes (getProtectedChannels channels threshold) (channel ch)
     = true ->
   (santoorReach ch >? #0)%num = true ->
   ResultMap.get (channel ch) results =
     Some (if ((gap ch <? gapThreshold intensity)
               && (indexVsCompetition ch <? indexThreshold intensity))%num
           then {| result_channel := channel ch;
                   recommendation := INCREASE;
                   priority := if (gap ch <? #(-5))%num then HIGH
                               else if (gap ch <? #(-2))%num then MEDIUM
                               else LOW;
                   reason := [Lit "Gap of "; ToFixed (gap ch) 1;
                              Lit " pts, Index ";
                              ToFixed (indexVsCompetition ch) 0] |}
           else {| result_channel := channel ch;
                   recommendation := MAINTAIN;
                   priority := LOW;
                   reason := [Lit "Top "; ToString threshold;
                              Lit "% - protected"] |})) /\
  (forall k r, In (k, r) results ->
     reason r = [Lit "Top "; ToString threshold; Lit "% - protected"] ->
     Array.includes (getProtectedChannels channels threshold) k = true).
Proof.
  cbv zeta. split.
  - intros Hpost Hp Hs. unfold runOptimization.
    apply loop_get_last; [|exact Hpost].
    destruct ((gap ch <? gapThreshold intensity)
              && (indexVsCompetition ch <? indexThreshold intensity))%num
      eqn:Hinc.
    + apply andb_prop in Hinc. destruct Hinc.
      now apply recommend_INCREASE_value.
    + now apply recommend_protected_maintain.
  - intros k r Hin Hr. unfold runOptimization in Hin.
    destruct (loop_entries _ _ _ _ _ _ _ Hin) as [[]|(c & _ & Hk & Hrec)].
    subst k. eapply recommend_protected_reason; eauto.
Qed.

Lemma protected_outcome_witness :
  ResultMap.get "C"
    (runOptimization [scenarioC; scenarioB] (#15)%num (#50)%num) =
  Some {| result_channel := "C"; recommendation := MAINTAIN;
          priority := LOW;
          reason := [Lit "Top "; ToString (#50)%num;
                     Lit "% - protected"] |}.
Proof.
  apply (proj1 (protected_outcome [] [scenarioB] scenarioC
                  (#15)%num (#50)%num)).
  - intros ch' [<-|[]]. discriminate.
  - reflexivity.
  - reflexivity.
Defined.

(** ** The sign of a difference *)

Module DifferenceFacts.

Lemma digits2_pos_bounds (p : positive) :
  2 ^ (Zpos (digits2_pos p) - 1) <= Zpos p < 2 ^ Zpos (digits2_pos p).
Proof.
  induction p as [p IH|p IH|]; simpl digits2_pos.
  - rewrite Pos2Z.inj_succ.
    replace (Z.succ (Zpos (digits2_pos p)) - 1)
      with (Z.succ (Zpos (digits2_pos p) - 1)) by lia.
    rewrite !Z.pow_succ_r by lia. lia.
  - rewrite Pos2Z.inj_succ.
    replace (Z.succ (Zpos (digits2_pos p)) - 1)
      with (Z.succ (Zpos (digits2_pos p) - 1)) by lia.
    rewrite !Z.pow_succ_r by lia. lia.
  - simpl. lia.
Qed.

(** A valid finite number: the exponent is the canonical one for the
    number of digits of the mantissa. *)
Lemma bounded_inv (m : positive) (e : Z) :
  bounded prec emax m e = true ->
  e = Z.max (Zpos (digits2_pos m) + e - 53) (-1074) /\ e <= 971.
Proof.
  unfold bounded, canonical_mantissa, fexp, emin, prec, emax.
  intros H. apply andb_prop in H. destruct H as [H1 H2].
  apply Z.eqb_eq in H1. apply Z.leb_le in H2. lia.
Qed.

Lemma shl_align_value (m : positive) (e e' : Z) :
  e' <= e ->
  Zpos (fst (shl_align m e e')) = Zpos m * 2 ^ (e - e').
Proof.
  intros H. unfold shl_align.
  destruct (e' - e) as [|d|d] eqn:Hd; try lia.
  - replace (e - e') with 0 by lia. simpl. lia.
  - simpl fst. replace (e - e') with (Zpos d) by lia.
    change (Pos.iter xO m d) with (shift_pos d m).
    rewrite shift_pos_correct, Z.pow_pos_fold. lia.
Qed.

(** On valid positive numbers the comparison is the comparison of the
    mantissas brought to the smaller exponent. *)
Lemma ltb_aligned (mx my : positive) (ex ey : Z) :
  bounded prec emax mx ex = true -> bounded prec emax my ey = true ->
  let ez := Z.min ex ey in
  SFltb (S754_finite false mx ex) (S754_finite false my ey)
  = (Zpos (fst (shl_align mx ex ez)) <? Zpos (fst (shl_align my ey ez))).
Proof.
  intros Hx Hy ez.
  rewrite !shl_align_value by (subst ez; lia).
  apply bounded_inv in Hx, Hy. destruct Hx as [Hx _], Hy as [Hy _].
  pose proof (digits2_pos_bounds mx) as Bx.
  pose proof (digits2_pos_bounds my) as By.
  set (dx := Zpos (digits2_pos mx)) in *.
  set (dy := Zpos (digits2_pos my)) in *.
  assert (Hdx : dx <= 53) by lia. assert (Hdy : dy <= 53) by lia.
  assert (Px : 2 ^ dx <= 2 ^ 53) by (apply Z.pow_le_mono_r; lia).
  assert (Py : 2 ^ dy <= 2 ^ 53) by (apply Z.pow_le_mono_r; lia).
  unfold SFltb, SFcompare.
  change (Pos.compare_cont Eq mx my) with (Pos.compare mx my).
  destruct (Z.compare_spec ex ey) as [Heq|Hlt|Hgt].
  - subst ey. subst ez. rewrite Z.min_id, Z.sub_diag. simpl (2 ^ 0).
    rewrite !Z.mul_1_r.
    destruct (Pos.compare_spec mx my) as [->|H|H]; symmetry.
    + apply Z.ltb_irrefl.
    + apply Z.ltb_lt. lia.
    + apply Z.ltb_ge. lia.
  - symmetry. apply Z.ltb_lt. subst ez.
    rewrite Z.min_l by lia. rewrite Z.sub_diag. simpl (2 ^ 0).
    assert (dy = 53) by lia.
    assert (2 ^ 52 <= Zpos my)
      by (replace 52 with (dy - 1) by lia; lia).
    assert (2 ^ 1 <= 2 ^ (ey - ex)) by (apply Z.pow_le_mono_r; lia).
    change (2 ^ 1) with 2 in *. change (2 ^ 53) with (2 ^ 52 * 2) in *.
    nia.
  - symmetry. apply Z.ltb_ge. subst ez.
    rewrite Z.min_r by lia. rewrite Z.sub_diag. simpl (2 ^ 0).
    assert (dx = 53) by lia.
    assert (2 ^ 52 <= Zpos mx)
      by (replace 52 with (dx - 1) by lia; lia).
    assert (2 ^ 1 <= 2 ^ (ex - ey)) by (apply Z.pow_le_mono_r; lia).
    change (2 ^ 1) with 2 in *. change (2 ^ 53) with (2 ^ 52 * 2) in *.
    nia.
Qed.

(** Shifting right by [p] bits divides the mantissa by [2^p]. *)
Lemma shr_1_div (mrs : shr_record) :
  0 <= shr_m mrs ->
  2 * shr_m (shr_1 mrs) <= shr_m mrs < 2 * (shr_m (shr_1 mrs) + 1).
Proof.
  destruct mrs as [m r s]. simpl.
  destruct m as [|[p|p|]|p]; simpl; lia.
Qed.

Lemma iter_shr_1_div (p : positive) : forall mrs,
  0 <= shr_m mrs ->
  let m' := shr_m (iter_pos shr_1 p mrs) in
  0 <= m' /\ 2 ^ Zpos p * m' <= shr_m mrs < 2 ^ Zpos p * (m' + 1).
Proof.
  induction p as [p IH|p IH|]; intros mrs Hm; cbv zeta; simpl iter_pos.
  - pose proof (shr_1_div mrs Hm) as H1.
    pose proof (RoundingFacts.shr_1_nonneg mrs Hm) as N1.
    destruct (IH _ N1) as (N2 & H2).
    destruct (IH _ N2) as (N3 & H3).
    split; [exact N3|].
    replace (Zpos p~1) with (Zpos p + Zpos p + 1) by lia.
    rewrite !Z.pow_add_r by lia. change (2 ^ 1) with 2.
    assert (0 < 2 ^ Zpos p) by (apply Z.pow_pos_nonneg; lia).
    nia.
  - destruct (IH _ Hm) as (N2 & H2).
    destruct (IH _ N2) as (N3 & H3).
    split; [exact N3|].
    replace (Zpos p~0) with (Zpos p + Zpos p) by lia.
    rewrite !Z.pow_add_r by lia.
    assert (0 < 2 ^ Zpos p) by (apply Z.pow_pos_nonneg; lia).
    nia.
  - pose proof (shr_1_div mrs Hm) as H1.
    pose proof (RoundingFacts.shr_1_nonneg mrs Hm) as N1.
    change (2 ^ 1) with 2. lia.
Qed.

(** Bringing a positive mantissa, at an exponent that is not below the
    smallest one, to its canonical exponent leaves it positive. *)
Lemma shr_fexp_pos (m e : Z) (l : location) :
  0 < m -> -1074 <= e ->
  0 < shr_m (fst (shr_fexp prec emax m e l)) /\
  -1074 <= snd (shr_fexp prec emax m e l).
Proof.
  intros Hm He. unfold shr_fexp, shr.
  destruct m as [|pm|pm]; try lia. simpl Zdigits2.
  pose proof (digits2_pos_bounds pm) as B.
  set (d := Zpos (digits2_pos pm)) in *.
  destruct (fexp prec emax (d + e) - e) as [|n|n] eqn:Hn; simpl fst;
    simpl snd; rewrite ?RoundingFacts.shr_record_of_loc_m; try lia.
  assert (Hnd : Zpos n <= d - 1)
    by (revert Hn; unfold fexp, emin, prec, emax; lia).
  pose proof (iter_shr_1_div n (shr_record_of_loc (Zpos pm) l)) as H.
  rewrite RoundingFacts.shr_record_of_loc_m in H.
  destruct (H ltac:(lia)) as (N & H').
  assert (2 ^ Zpos n <= 2 ^ (d - 1)) by (apply Z.pow_le_mono_r; lia).
  assert (0 < 2 ^ Zpos n) by (apply Z.pow_pos_nonneg; lia).
  split; [nia | lia].
Qed.

Lemma round_nearest_even_ge (m : Z) (l : location) :
  m <= round_nearest_even m l.
Proof.
  destruct l as [|[| |]]; simpl; try lia. destruct (Z.even m); lia.
Qed.

(** Rounding a positive magnitude at an exponent of at least -1074 gives
    a non-zero number of the requested sign. *)
Lemma binary_round_aux_pos (s : bool) (m e : Z) (l : location) :
  0 < m -> -1074 <= e ->
  match binary_round_aux prec emax s m e l with
  | S754_finite s' _ _ => s' = s
  | S754_infinity s' => s' = s
  | _ => False
  end.
Proof.
  intros Hm He. unfold binary_round_aux.
  destruct (shr_fexp_pos m e l Hm He) as (H1 & E1).
  destruct (shr_fexp prec emax m e l) as [mrs' e'].
  simpl fst in H1. simpl snd in E1.
  pose proof (round_nearest_even_ge (shr_m mrs') (loc_of_shr_record mrs'))
    as Hr.
  destruct (shr_fexp_pos
              (round_nearest_even (shr_m mrs') (loc_of_shr_record mrs'))
              e' loc_Exact ltac:(lia) E1) as (H2 & _).
  destruct (shr_fexp prec emax
              (round_nearest_even (shr_m mrs') (loc_of_shr_record mrs'))
              e' loc_Exact) as [mrs'' e''].
  simpl fst in H2.
  destruct (shr_m mrs'') as [|p|p]; try lia.
  destruct (e'' <=? emax - prec); reflexivity.
Qed.

Lemma binary_round_pos (s : bool) (m : positive) (e : Z) :
  -1074 <= e ->
  match binary_round prec emax s m e with
  | S754_finite s' _ _ => s' = s
  | S754_infinity s' => s' = s
  | _ => False
  end.
Proof.
  intros He. unfold binary_round.
  assert (Hs : -1074 <= snd (shl_align m e
                 (fexp prec emax (Zpos (digits2_pos m) + e)))).
  { unfold shl_align.
    destruct (fexp prec emax (Zpos (digits2_pos m) + e) - e) eqn:Hd;
      simpl snd; try lia.
    unfold fexp, emin, prec, emax. lia. }
  destruct (shl_align m e _) as [mz ez]. simpl snd in Hs.
  apply binary_round_aux_pos; lia.
Qed.

(** The comparator of the ranking: on valid positive reaches the
    difference [y - x] is above zero exactly when [y > x]. *)
Lemma sub_gt_0 (x y : number) :
  valid_binary prec emax x = true -> valid_binary prec emax y = true ->
  (x >? #0)%num = true -> (y >? #0)%num = true ->
  (Number.sub y x >? #0)%num = (y >? x)%num.
Proof.
  intros Vx Vy Hx Hy.
  destruct x as [sx|[|]| |[|] mx ex]; try discriminate Hx;
    destruct y as [sy|[|]| |[|] my ey]; try discriminate Hy;
    try reflexivity.
  simpl in Vx, Vy.
  unfold Number.gtb. rewrite (ltb_aligned mx my ex ey Vx Vy). cbv zeta.
  unfold Number.sub, SFsub. cbv zeta.
  set (a := fst (shl_align my ey (Z.min ey ex))).
  set (b := fst (shl_align mx ex (Z.min ey ex))).
  rewrite (Z.min_comm ex ey). fold a. fold b.
  change (cond_Zopp false (Zpos a)) with (Zpos a).
  change (cond_Zopp false (Zpos b)) with (Zpos b).
  apply bounded_inv in Vx, Vy.
  assert (He : -1074 <= Z.min ey ex) by lia.
  unfold binary_normalize.
  destruct (Zpos a - Zpos b) as [|p|p] eqn:Hd.
  - symmetry. apply Z.ltb_ge. lia.
  - pose proof (binary_round_pos false p _ He) as Hr.
    destruct (binary_round prec emax false p (Z.min ey ex))
      as [?|?| |? ? ?]; try tauto; subst;
      simpl; symmetry; apply Z.ltb_lt; lia.
  - pose proof (binary_round_pos true p _ He) as Hr.
    destruct (binary_round prec emax true p (Z.min ey ex))
      as [?|?| |? ? ?]; try tauto; subst;
      simpl; symmetry; apply Z.ltb_ge; lia.
Qed.

End DifferenceFacts.

(** ** The ranking behind the protected set *)

Lemma not_gtb_geb (x y : number) :
  (x >? #0)%num = true -> (y >? #0)%num = true ->
  (y >? x)%num = false -> (x >=? y)%num = true.
Proof.
  unfold Number.gtb, Number.geb, SFltb, SFleb.
  by_cases x; by_cases y; cmp_cases.
Qed.

Lemma gtb_eqb_apart (x y v : number) :
  (y >? x)%num = true -> (x === v)%num = true -> (y === v)%num = false.
Proof.
  unfold Number.gtb, Number.eqb, SFltb, SFeqb.
  by_cases x; by_cases y; by_cases v; cmp_cases.
Qed.

Section Ranking.

Let R (a b : ChannelRecord) : Prop :=
  (santoorReach a >=? santoorReach b)%num = true.

Let P (ch : ChannelRecord) : Prop :=
  valid_binary prec emax (santoorReach ch) = true /\
  (santoorReach ch >? #0)%num = true.

Lemma byReachDesc_gt (x y : ChannelRecord) :
  P x -> P y ->
  (byReachDesc x y >? #0)%num = (santoorReach y >? santoorReach x)%num.
Proof.
  intros [Vx Hx] [Vy Hy]. unfold byReachDesc.
  now apply DifferenceFacts.sub_gt_0.
Qed.

Lemma insert_StronglySorted (x : ChannelRecord) (l : list ChannelRecord) :
  P x -> Forall P l -> StronglySorted R l ->
  StronglySorted R (Array.insert byReachDesc x l).
Proof.
  intros Px Pl Hs. induction Hs as [|y l Hs IH Hy]; cbn [Array.insert].
  - repeat constructor.
  - inversion Pl as [|? ? Py Pl']; subst.
    rewrite (byReachDesc_gt x y Px Py).
    destruct (santoorReach y >? santoorReach x)%num eqn:Hgt.
    + constructor; [now apply IH|].
      apply Forall_forall. intros z Hz.
      apply (Permutation_in _ (insert_Permutation _ _ _)) in Hz.
      destruct Hz as [<-|Hz].
      * unfold R. now apply ltb_leb.
      * rewrite Forall_forall in Hy. now apply Hy.
    + assert (Rxy : R x y)
        by (apply not_gtb_geb; [apply Px | apply Py | exact Hgt]).
      constructor; [now constructor|].
      constructor; [exact Rxy|].
      apply Forall_forall. intros z Hz. rewrite Forall_forall in Hy.
      specialize (Hy z Hz). unfold R in *. unfold Number.geb in *.
      fold (Number.leb (santoorReach z) (santoorReach y)) in Hy.
      fold (Number.leb (santoorReach y) (santoorReach x)) in Rxy.
      fold (Number.leb (santoorReach z) (santoorReach x)).
      exact (leb_trans _ _ _ Hy Rxy).
Qed.

Lemma sort_StronglySorted (l : list ChannelRecord) :
  Forall P l -> StronglySorted R (Array.sort byReachDesc l).
Proof.
  induction l as [|x l IH]; cbn [Array.sort]; intros Pl; [constructor|].
  inversion Pl as [|? ? Px Pl']; subst.
  apply insert_StronglySorted; auto.
  apply Forall_forall. intros z Hz.
  apply (Permutation_in _ (sort_Permutation _ _)) in Hz.
  rewrite Forall_forall in Pl'. auto.
Qed.

Lemma insert_filter (v : number) (x : ChannelRecord)
    (l : list ChannelRecord) :
  P x -> Forall P l ->
  filter (fun ch => (santoorReach ch === v)%num)
         (Array.insert byReachDesc x l)
  = filter (fun ch => (santoorReach ch === v)%num) (x :: l).
Proof.
  intros Px Pl. induction l as [|y l IH]; [reflexivity|].
  inversion Pl as [|? ? Py Pl']; subst.
  cbn [Array.insert]. rewrite (byReachDesc_gt x y Px Py).
  destruct (santoorReach y >? santoorReach x)%num eqn:Hgt;
    [|reflexivity].
  cbn [filter]. rewrite (IH Pl'). cbn [filter].
  destruct (santoorReach x === v)%num eqn:Hx; [|reflexivity].
  now rewrite (gtb_eqb_apart _ _ _ Hgt Hx).
Qed.

Lemma sort_filter (v : number) (l : list ChannelRecord) :
  Forall P l ->
  filter (fun ch => (santoorReach ch === v)%num)
         (Array.sort byReachDesc l)
  = filter (fun ch => (santoorReach ch === v)%num) l.
Proof.
  induction l as [|x l IH]; intros Pl; [reflexivity|].
  inversion Pl as [|? ? Px Pl']; subst.
  cbn [Array.sort]. rewrite insert_filter; auto.
  - cbn [filter]. now rewrite (IH Pl').
  - apply Forall_forall. intros z Hz.
    apply (Permutation_in _ (sort_Permutation _ _)) in Hz.
    rewrite Forall_forall in Pl'. auto.
Qed.

Lemma StronglySorted_app_inv (l1 l2 : list ChannelRecord) :
  StronglySorted R (l1 ++ l2) ->
  forall a b, In a l1 -> In b l2 -> R a b.
Proof.
  induction l1 as [|x l1 IH]; simpl; intros Hs a b Ha Hb; [destruct Ha|].
  inversion Hs as [|? ? Hs' Hx]; subst.
  destruct Ha as [<-|Ha]; [|eauto].
  rewrite Forall_forall in Hx. apply Hx. apply in_or_app. now right.
Qed.

(** X18. The protected set is read off a ranking.  When the reaches are
    valid doubles, the ranking [sorted] holds the records with a
    positive [santoorReach], each once, in descending order of
    [santoorReach], records with equal reach in input order; the
    protected names are the names of a front part of it; and every
    record of that front part has at least the reach of every record
    behind it. *)
Theorem getProtectedChannels_ranking
    (channels : list ChannelRecord) (threshold : number) :
  (forall ch, In ch channels ->
     valid_binary prec emax (santoorReach ch) = true) ->
  let ranked := sorted channels in
  Permutation ranked (withSantoor channels) /\
  StronglySorted
    (fun a b => (santoorReach a >=? santoorReach b)%num = true) ranked /\
  (forall v,
     filter (fun ch => (santoorReach ch === v)%num) ranked =
     filter (fun ch => (santoorReach ch === v)%num)
            (withSantoor channels)) /\
  exists k,
    getProtectedChannels channels threshold
      = map channel (firstn k ranked) /\
    forall p u, In p (firstn k ranked) -> In u (skipn k ranked) ->
                (santoorReach p >=? santoorReach u)%num = true.
Proof.
  intros Hv. cbv zeta.
  assert (HP : Forall P (withSantoor channels)).
  { apply Forall_forall. intros ch Hin. unfold withSantoor in Hin.
    apply filter_In in Hin. split; [apply Hv|]; tauto. }
  assert (Hs : StronglySorted R (sorted channels))
    by (now apply sort_StronglySorted).
  split; [apply sort_Permutation|]. split; [exact Hs|].
  split; [intros v; now apply sort_filter|].
  unfold getProtectedChannels.
  destruct (slice0_firstn (sorted channels) (cutoff channels threshold))
    as (k & ->).
  exists k. split; [reflexivity|].
  intros p u Hp Hu. rewrite <- (firstn_skipn k (sorted channels)) in Hs.
  exact (StronglySorted_app_inv _ _ Hs p u Hp Hu).
Qed.

End Ranking.

Lemma getProtectedChannels_ranking_witness :
  Permutation (sorted [scenarioB; scenarioA; scenarioC])
              (withSantoor [scenarioB; scenarioA; scenarioC]).
Proof.
  apply (getProtectedChannels_ranking [scenarioB; scenarioA; scenarioC]
           (#50)%num).
  intros ch [<-|[<-|[<-|[]]]]; reflexivity.
Defined.

(* ================================================================= *)
(** ** Rounding to the nearest double, over the reals *)

Module Binary64.

Lemma bpow_gt_0 e : (0 < bpow e)%R.
Proof. apply powerRZ_lt; lra. Qed.

Lemma bpow_add a b : bpow (a + b) = (bpow a * bpow b)%R.
Proof. apply powerRZ_add; lra. Qed.

Lemma bpow_opp e : bpow (- e) = (/ bpow e)%R.
Proof. apply powerRZ_neg'. Qed.

Lemma bpow_IZR e : 0 <= e -> bpow e = IZR (2 ^ e).
Proof.
  destruct e as [|p|p]; intros H; [reflexivity | | lia].
  unfold bpow. rewrite <- Z.pow_pos_fold. symmetry. apply Zpower_pos_powerRZ.
Qed.

Lemma bpow_ge_1 e : 0 <= e -> (1 <= bpow e)%R.
Proof.
  intros H. rewrite bpow_IZR by exact H. apply IZR_le.
  assert (0 < 2 ^ e) by (apply Z.pow_pos_nonneg; lia). lia.
Qed.

Lemma bpow_le a b : a <= b -> (bpow a <= bpow b)%R.
Proof.
  intros H. replace b with (a + (b - a)) by lia. rewrite bpow_add.
  pose proof (bpow_gt_0 a). pose proof (bpow_ge_1 (b - a) ltac:(lia)).
  nra.
Qed.

Lemma bpow_succ a : bpow (a + 1) = (2 * bpow a)%R.
Proof. rewrite bpow_add. change (bpow 1) with (2 * 1)%R. lra. Qed.

Lemma bpow_lt a b : a < b -> (bpow a < bpow b)%R.
Proof.
  intros H. pose proof (bpow_le (a + 1) b ltac:(lia)) as H1.
  rewrite bpow_succ in H1. pose proof (bpow_gt_0 a). lra.
Qed.

Lemma bpow_lt_inv a b : (bpow a < bpow b)%R -> a < b.
Proof.
  intros H. destruct (Z_lt_le_dec a b) as [|Hle]; [assumption|].
  apply bpow_le in Hle. lra.
Qed.

Lemma bpow_le_inv a b : (bpow a <= bpow b)%R -> a <= b.
Proof.
  intros H. destruct (Z_le_gt_dec a b) as [|Hgt]; [assumption|].
  apply Z.gt_lt, bpow_lt in Hgt. lra.
Qed.

Lemma bpow_cancel a : (bpow a * bpow (- a) = 1)%R.
Proof. rewrite <- bpow_add. now replace (a + - a) with 0 by lia. Qed.

(** Number of binary digits *)
Lemma Zdigits2_bounds m :
  0 < m -> 2 ^ (Zdigits2 m - 1) <= m < 2 ^ Zdigits2 m.
Proof. destruct m; try lia. intros _. apply DifferenceFacts.digits2_pos_bounds. Qed.

Lemma Zdigits2_pos m : 0 < m -> 0 < Zdigits2 m.
Proof. destruct m; simpl; lia. Qed.

Lemma Zdigits2_unique m d :
  0 < d -> 2 ^ (d - 1) <= m < 2 ^ d -> Zdigits2 m = d.
Proof.
  intros Hd H.
  assert (Hm : 0 < m) by (assert (0 < 2 ^ (d - 1)) by (apply Z.pow_pos_nonneg; lia); lia).
  pose proof (Zdigits2_bounds m Hm) as H'. pose proof (Zdigits2_pos m Hm).
  destruct (Z.lt_trichotomy (Zdigits2 m) d) as [Hlt|[Heq|Hgt]]; [|exact Heq|].
  - assert (2 ^ Zdigits2 m <= 2 ^ (d - 1)) by (apply Z.pow_le_mono_r; lia). lia.
  - assert (2 ^ d <= 2 ^ (Zdigits2 m - 1)) by (apply Z.pow_le_mono_r; lia). lia.
Qed.

(** Shifting right *)
Lemma IZR_xO p : IZR (Zpos p~0) = (2 * IZR (Zpos p))%R.
Proof. change (Zpos p~0) with (2 * Zpos p). now rewrite mult_IZR. Qed.

Lemma IZR_xI p : IZR (Zpos p~1) = (2 * IZR (Zpos p) + 1)%R.
Proof. change (Zpos p~1) with (2 * Zpos p + 1). now rewrite plus_IZR, mult_IZR. Qed.

Lemma shr_1_inbetween mrs y :
  0 <= shr_m mrs -> inbetween_record mrs y ->
  inbetween_record (shr_1 mrs) (y / 2) /\ 0 <= shr_m (shr_1 mrs).
Proof.
  destruct mrs as [m r s]. unfold inbetween_record.
  cbv beta iota delta [shr_m] in *.
  intros Hm H. destruct m as [|[p|p|]|p]; try lia;
    try (pose proof (IZR_xO p) as E0); try (pose proof (IZR_xI p) as E1);
    destruct r, s;
    cbv beta iota zeta delta
      [shr_1 shr_m loc_of_shr_record inbetween orb] in *;
    (split; [lra | lia]).
Qed.

Lemma iter_shr_1_inbetween p : forall mrs y,
  0 <= shr_m mrs -> inbetween_record mrs y ->
  inbetween_record (iter_pos shr_1 p mrs) (y * bpow (- Zpos p)) /\
  0 <= shr_m (iter_pos shr_1 p mrs).
Proof.
  induction p as [p IH|p IH|]; intros mrs y Hm H; simpl iter_pos.
  - destruct (shr_1_inbetween _ _ Hm H) as [H1 Hm1].
    destruct (IH _ _ Hm1 H1) as [H2 Hm2].
    destruct (IH _ _ Hm2 H2) as [H3 Hm3].
    split; [|exact Hm3].
    replace (y * bpow (- Zpos p~1))%R
      with (y / 2 * bpow (- Zpos p) * bpow (- Zpos p))%R; [exact H3|].
    replace (- Zpos p~1) with (- Zpos p + - Zpos p + -1) by lia.
    rewrite !bpow_add. change (bpow (-1)) with (/ (2 * 1))%R. field.
  - destruct (IH _ _ Hm H) as [H2 Hm2].
    destruct (IH _ _ Hm2 H2) as [H3 Hm3].
    split; [|exact Hm3].
    replace (y * bpow (- Zpos p~0))%R
      with (y * bpow (- Zpos p) * bpow (- Zpos p))%R; [exact H3|].
    replace (- Zpos p~0) with (- Zpos p + - Zpos p) by lia.
    rewrite !bpow_add. ring.
  - destruct (shr_1_inbetween _ _ Hm H) as [H1 Hm1].
    split; [|exact Hm1].
    unfold Rdiv in H1. change (bpow (- Zpos 1)) with (/ (2 * 1))%R.
    rewrite Rmult_1_r. exact H1.
Qed.

Lemma shr_inbetween mrs e n x :
  0 <= shr_m mrs -> inbetween_record mrs (x * bpow (- e)) ->
  let '(mrs', e') := shr mrs e n in
  e' = e + Z.max n 0 /\ inbetween_record mrs' (x * bpow (- e')) /\
  0 <= shr_m mrs'.
Proof.
  intros Hm H. destruct n as [|p|p]; simpl shr.
  - rewrite Z.add_0_r. auto.
  - destruct (iter_shr_1_inbetween p _ _ Hm H) as [H1 Hm1].
    split; [lia|]. split; [|exact Hm1].
    replace (- (e + Zpos p)) with (- e + - Zpos p) by lia.
    rewrite bpow_add, <- Rmult_assoc. exact H1.
  - rewrite Z.add_0_r. auto.
Qed.

(** Position of a real between two integers *)
Lemma inbetween_bounds m l y :
  inbetween m l y -> (IZR m <= y < IZR m + 1)%R.
Proof. destruct l as [|[| |]]; cbv [inbetween]; intros H; lra. Qed.

Lemma IZR_lt_succ a b : (IZR a < IZR b + 1)%R -> a <= b.
Proof.
  intros H. rewrite <- (plus_IZR b 1) in H. apply lt_IZR in H. lia.
Qed.

Lemma inbetween_le m l y m' l' y' :
  inbetween m l y -> inbetween m' l' y' -> (y <= y')%R -> m <= m'.
Proof.
  intros H H' Hy. apply inbetween_bounds in H, H'.
  apply IZR_lt_succ. lra.
Qed.

Lemma round_nearest_even_bounds m l :
  m <= round_nearest_even m l <= m + 1.
Proof.
  destruct l as [|[| |]]; simpl; try lia. destruct (Z.even m); lia.
Qed.

Lemma round_nearest_even_mono m l y m' l' y' :
  inbetween m l y -> inbetween m' l' y' -> (y <= y')%R ->
  round_nearest_even m l <= round_nearest_even m' l'.
Proof.
  intros H H' Hy. pose proof (inbetween_le _ _ _ _ _ _ H H' Hy) as Hm.
  destruct (Z.eq_dec m m') as [<-|Hne].
  - destruct l as [|[| |]], l' as [|[| |]]; cbv [inbetween] in H, H';
      simpl; destruct (Z.even m); try lia; exfalso; lra.
  - pose proof (round_nearest_even_bounds m l).
    pose proof (round_nearest_even_bounds m' l'). lia.
Qed.

Lemma inbetween_integer m l k :
  inbetween m l (IZR k) -> round_nearest_even m l = k.
Proof.
  intros H. pose proof (inbetween_bounds _ _ _ H) as B.
  assert (m = k).
  { apply Z.le_antisymm; [apply le_IZR; lra | apply IZR_lt_succ; lra]. }
  subst m. destruct l as [|[| |]]; cbv [inbetween] in H; simpl;
    try reflexivity; exfalso; lra.
Qed.

Lemma round_nearest_even_ge_int m l y k :
  inbetween m l y -> (IZR k <= y)%R -> k <= round_nearest_even m l.
Proof.
  intros H Hk.
  rewrite <- (inbetween_integer k loc_Exact k eq_refl).
  eapply round_nearest_even_mono; [reflexivity | exact H | exact Hk].
Qed.

Lemma round_nearest_even_le_int m l y k :
  inbetween m l y -> (y <= IZR k)%R -> round_nearest_even m l <= k.
Proof.
  intros H Hk.
  rewrite <- (inbetween_integer k loc_Exact k eq_refl).
  eapply round_nearest_even_mono; [exact H | reflexivity | exact Hk].
Qed.

(** The rounding exponent *)
Lemma is_cexp_ge x e : is_cexp x e -> -1074 <= e.
Proof. intros [[-> _]|[H _]]; lia. Qed.

Lemma is_cexp_lt x e : is_cexp x e -> (x < bpow (e + 53))%R.
Proof. intros [[-> H]|[_ H]]; [exact H | apply H]. Qed.

Lemma is_cexp_mono x e x' e' :
  is_cexp x e -> is_cexp x' e' -> (x <= x')%R -> e <= e'.
Proof.
  intros [[-> H]|[He H]] [[-> H']|[He' H']] Hx; try lia.
  - exfalso. pose proof (bpow_le (-1021) (e + 52) ltac:(lia)). lra.
  - assert (H0 : (bpow (e + 52) < bpow (e' + 53))%R) by lra.
    apply bpow_lt_inv in H0. lia.
Qed.

Lemma is_cexp_unique x e e' : is_cexp x e -> is_cexp x e' -> e = e'.
Proof.
  intros H H'. apply Z.le_antisymm; eapply is_cexp_mono; eauto; lra.
Qed.

Lemma fexp_eq k : fexp prec emax k = Z.max (k - 53) (-1074).
Proof. reflexivity. Qed.

Lemma is_cexp_of_bounds x k :
  (bpow (k - 1) <= x < bpow k)%R -> is_cexp x (fexp prec emax k).
Proof.
  intros H. rewrite fexp_eq. unfold is_cexp.
  destruct (Z_lt_le_dec (-1074) (k - 53)) as [Hk|Hk].
  - right. rewrite Z.max_l by lia. split; [lia|].
    replace (k - 53 + 52) with (k - 1) by lia.
    replace (k - 53 + 53) with k by lia. exact H.
  - left. rewrite Z.max_r by lia. split; [reflexivity|].
    pose proof (bpow_le k (-1021) ltac:(lia)). lra.
Qed.

(** The two shifts of [binary_round_aux] *)
Lemma loc_of_shr_record_of_loc m l :
  loc_of_shr_record (shr_record_of_loc m l) = l.
Proof. destruct l as [|[| |]]; reflexivity. Qed.

Lemma bpow_scale x e : (x * bpow (- e) * bpow e = x)%R.
Proof. rewrite Rmult_assoc, (Rmult_comm (bpow (- e))), bpow_cancel. ring. Qed.

Lemma inbetween_digits m l x e :
  0 < m -> inbetween m l (x * bpow (- e)) ->
  (bpow (Zdigits2 m + e - 1) <= x < bpow (Zdigits2 m + e))%R.
Proof.
  intros Hm H. apply inbetween_bounds in H.
  pose proof (Zdigits2_bounds m Hm) as [B1 B2].
  pose proof (Zdigits2_pos m Hm) as Hd.
  apply IZR_le in B1. apply Z.le_succ_l, IZR_le in B2.
  rewrite succ_IZR in B2.
  rewrite <- bpow_IZR in B1, B2 by lia.
  rewrite <- (bpow_scale x e).
  replace (Zdigits2 m + e - 1) with (Zdigits2 m - 1 + e) by lia.
  rewrite !bpow_add. pose proof (bpow_gt_0 e).
  split; [apply Rmult_le_compat_r | apply Rmult_lt_compat_r]; lra.
Qed.

Lemma shr_fexp_spec m e l x :
  0 <= m -> inbetween m l (x * bpow (- e)) ->
  e <= fexp prec emax (Zdigits2 m + e) ->
  let '(mrs, e1) := shr_fexp prec emax m e l in
  is_cexp x e1 /\ inbetween_record mrs (x * bpow (- e1)) /\
  0 <= shr_m mrs.
Proof.
  intros Hm H Hpre. unfold shr_fexp.
  pose proof (shr_inbetween (shr_record_of_loc m l) e
                (fexp prec emax (Zdigits2 m + e) - e) x) as Hs.
  unfold inbetween_record in Hs at 1.
  rewrite RoundingFacts.shr_record_of_loc_m, loc_of_shr_record_of_loc in Hs.
  specialize (Hs Hm H).
  destruct (shr _ e _) as [mrs e1]. destruct Hs as (He1 & Hin & Hm1).
  split; [|split; assumption].
  replace e1 with (fexp prec emax (Zdigits2 m + e)) by lia.
  destruct (Z.eq_dec m 0) as [->|Hne].
  - simpl Zdigits2 in *. rewrite Z.add_0_l in *. rewrite fexp_eq in *.
    rewrite Z.max_r by lia. left. split; [reflexivity|].
    apply inbetween_bounds in H. simpl in H.
    rewrite <- (bpow_scale x e).
    pose proof (bpow_gt_0 e). pose proof (bpow_le e (-1021) ltac:(lia)).
    nra.
  - apply is_cexp_of_bounds. eapply inbetween_digits; [lia | exact H].
Qed.

Lemma pow2_53 : 2 ^ 53 = 9007199254740992.
Proof. reflexivity. Qed.

Lemma pow2_52 : 2 ^ 52 = 4503599627370496.
Proof. reflexivity. Qed.

Lemma renormalize mz e1 :
  0 <= mz <= 2 ^ 53 -> -1074 <= e1 ->
  (-1074 < e1 -> 2 ^ 52 <= mz) ->
  represents (F2R mz e1)
    (let '(mrs'', e'') := shr_fexp prec emax mz e1 loc_Exact in
     match shr_m mrs'' with
     | 0 => S754_zero false
     | Zpos m =>
         if e'' <=? emax - prec then S754_finite false m e''
         else S754_infinity false
     | Zneg _ => S754_nan
     end).
Proof.
  intros Hmz He1 Hnorm. unfold shr_fexp.
  destruct (Z.eq_dec mz (2 ^ 53)) as [->|Htop].
  - rewrite pow2_53. simpl Zdigits2.
    replace (fexp prec emax (54 + e1) - e1) with 1
      by (rewrite fexp_eq; lia).
    cbn [shr shr_record_of_loc iter_pos shr_1 shr_m orb].
    change (emax - prec) with 971.
    destruct (Z.leb_spec (e1 + 1) 971) as [Hle|Hgt].
    + right; left. exists 4503599627370496%positive, (e1 + 1).
      split; [reflexivity|]. split.
      * unfold bounded, canonical_mantissa. apply andb_true_intro.
        split; [apply Z.eqb_eq | apply Z.leb_le; exact Hle].
        rewrite fexp_eq. simpl digits2_pos. lia.
      * unfold F2R. rewrite bpow_succ.
        change (IZR 9007199254740992)
          with (IZR (2 * 4503599627370496)).
        rewrite mult_IZR. ring.
    + right; right. split; [|reflexivity].
      unfold F2R. rewrite <- pow2_53, <- bpow_IZR, <- bpow_add by lia.
      apply bpow_le. lia.
  - destruct mz as [|p|p]; try lia.
    + simpl Zdigits2. rewrite Z.add_0_l.
      destruct (fexp prec emax e1 - e1) as [|n|n] eqn:Hn;
        try (rewrite fexp_eq in Hn; lia);
        cbn [shr shr_record_of_loc shr_m];
        left; (split; [unfold F2R; simpl; ring | reflexivity]).
    + simpl Zdigits2.
      pose proof (DifferenceFacts.digits2_pos_bounds p) as [B1 B2].
      set (d := Zpos (digits2_pos p)) in *.
      assert (Hd : d <= 53).
      { destruct (Z_le_gt_dec d 53) as [|Hgt]; [assumption|].
        assert (2 ^ 53 <= 2 ^ (d - 1)) by (apply Z.pow_le_mono_r; lia).
        lia. }
      assert (Hcan : fexp prec emax (d + e1) = e1).
      { rewrite fexp_eq. destruct (Z.eq_dec e1 (-1074)) as [->|Hne];
          [lia|].
        assert (2 ^ 52 <= Zpos p) by (apply Hnorm; lia).
        assert (53 <= d).
        { destruct (Z_le_gt_dec 53 d) as [|Hgt]; [assumption|].
          assert (2 ^ d <= 2 ^ 52) by (apply Z.pow_le_mono_r; lia).
          lia. }
        lia. }
      rewrite Hcan, Z.sub_diag.
      cbn [shr shr_record_of_loc shr_m].
      change (emax - prec) with 971.
      destruct (Z.leb_spec e1 971) as [Hle|Hgt].
      * right; left. exists p, e1. split; [reflexivity|].
        split; [|reflexivity].
        unfold bounded, canonical_mantissa. apply andb_true_intro.
        split; [apply Z.eqb_eq; exact Hcan | apply Z.leb_le; exact Hle].
      * right; right. split; [|reflexivity].
        assert (H52 : 2 ^ 52 <= Zpos p) by (apply Hnorm; lia).
        apply IZR_le in H52. rewrite <- bpow_IZR in H52 by lia.
        unfold F2R. pose proof (bpow_gt_0 e1).
        pose proof (bpow_le 1024 (52 + e1) ltac:(lia)) as Hb.
        rewrite bpow_add in Hb. nra.
Qed.

(** Rounding a positive real given by its integer part at the exponent
    [e] and the position of the rest. *)
Lemma binary_round_aux_spec m e l x :
  (0 < x)%R -> 0 <= m -> inbetween m l (x * bpow (- e)) ->
  e <= fexp prec emax (Zdigits2 m + e) ->
  Rounded x (binary_round_aux prec emax false m e l).
Proof.
  intros Hx Hm H Hpre. unfold binary_round_aux.
  pose proof (shr_fexp_spec m e l x Hm H Hpre) as Hs.
  destruct (shr_fexp prec emax m e l) as [mrs' e1].
  destruct Hs as (Hc & Hin & Hm1).
  set (mz := round_nearest_even (shr_m mrs') (loc_of_shr_record mrs')).
  exists mz, e1. split.
  - exists (shr_m mrs'), (loc_of_shr_record mrs'). auto.
  - pose proof (is_cexp_ge _ _ Hc) as He1.
    pose proof (is_cexp_lt _ _ Hc) as Hlt.
    assert (Hy : (x * bpow (- e1) < IZR (2 ^ 53))%R).
    { rewrite <- bpow_IZR by lia.
      rewrite <- (bpow_scale x e1) in Hlt.
      rewrite (Z.add_comm e1), bpow_add in Hlt.
      pose proof (bpow_gt_0 e1). nra. }
    apply renormalize; [split | exact He1 |].
    + subst mz.
      pose proof (round_nearest_even_bounds (shr_m mrs')
                    (loc_of_shr_record mrs')). lia.
    + subst mz. eapply round_nearest_even_le_int; [exact Hin | lra].
    + intros Hnorm. destruct Hc as [[-> _]|[_ [Hlo _]]]; [lia|].
      subst mz. eapply round_nearest_even_ge_int; [exact Hin|].
      rewrite <- bpow_IZR by lia.
      rewrite <- (bpow_scale x e1) in Hlo.
      rewrite (Z.add_comm e1), bpow_add in Hlo.
      pose proof (bpow_gt_0 e1). nra.
Qed.

(** Rounding is monotone *)
Lemma F2R_le m m' e : m <= m' -> (F2R m e <= F2R m' e)%R.
Proof.
  intros H. unfold F2R. apply Rmult_le_compat_r.
  - left. apply bpow_gt_0.
  - now apply IZR_le.
Qed.

Lemma F2R_pow2 k e : 0 <= k -> F2R (2 ^ k) e = bpow (k + e).
Proof. intros H. unfold F2R. now rewrite <- bpow_IZR, bpow_add. Qed.

Lemma scaled_lt x e k :
  0 <= k -> (x < bpow (e + k))%R -> (x * bpow (- e) < IZR (2 ^ k))%R.
Proof.
  intros Hk H. rewrite <- bpow_IZR by exact Hk.
  rewrite <- (bpow_scale x e) in H. rewrite bpow_add in H.
  pose proof (bpow_gt_0 e). pose proof (bpow_gt_0 k). nra.
Qed.

Lemma scaled_ge x e k :
  0 <= k -> (bpow (e + k) <= x)%R -> (IZR (2 ^ k) <= x * bpow (- e))%R.
Proof.
  intros Hk H. rewrite <- bpow_IZR by exact Hk.
  rewrite <- (bpow_scale x e) in H. rewrite bpow_add in H.
  pose proof (bpow_gt_0 e). pose proof (bpow_gt_0 k). nra.
Qed.

Lemma rounded_mono x mz ez x' mz' ez' :
  rounded x mz ez -> rounded x' mz' ez' -> (x <= x')%R ->
  (F2R mz ez <= F2R mz' ez')%R.
Proof.
  intros (m & l & Hm & Hc & Hin & ->) (m' & l' & Hm' & Hc' & Hin' & ->) Hx.
  pose proof (is_cexp_mono _ _ _ _ Hc Hc' Hx) as He.
  destruct (Z.eq_dec ez ez') as [<-|Hne].
  - apply F2R_le. eapply round_nearest_even_mono; eauto.
    apply Rmult_le_compat_r; [left; apply bpow_gt_0 | exact Hx].
  - pose proof (is_cexp_ge _ _ Hc) as Hge.
    destruct Hc' as [[-> _]|[_ [Hlo _]]]; [lia|].
    pose proof (is_cexp_lt _ _ Hc) as Hlt.
    assert (H1 : round_nearest_even m l <= 2 ^ 53).
    { eapply round_nearest_even_le_int; [exact Hin|].
      left. apply scaled_lt; [lia | exact Hlt]. }
    assert (H2 : 2 ^ 52 <= round_nearest_even m' l').
    { eapply round_nearest_even_ge_int; [exact Hin'|].
      apply scaled_ge; [lia | exact Hlo]. }
    apply (F2R_le _ _ ez) in H1. apply (F2R_le _ _ ez') in H2.
    rewrite F2R_pow2 in H1, H2 by lia.
    pose proof (bpow_le (53 + ez) (52 + ez') ltac:(lia)). lra.
Qed.

Lemma rounded_exact x m0 e0 mz ez :
  is_cexp x e0 -> x = F2R m0 e0 -> rounded x mz ez -> F2R mz ez = x.
Proof.
  intros Hc0 Hx (m & l & Hm & Hc & Hin & ->).
  rewrite (is_cexp_unique _ _ _ Hc Hc0) in *.
  assert (Hy : (x * bpow (- e0))%R = IZR m0).
  { rewrite Hx. unfold F2R. rewrite Rmult_assoc, bpow_cancel. ring. }
  rewrite Hy in Hin. rewrite (inbetween_integer _ _ _ Hin). now symmetry.
Qed.

(** Valid finite numbers and their real values *)
Lemma F2R_pos m e : (0 < F2R (Zpos m) e)%R.
Proof.
  unfold F2R. apply Rmult_lt_0_compat; [|apply bpow_gt_0].
  now apply IZR_lt.
Qed.

Lemma bounded_is_cexp m e :
  bounded prec emax m e = true -> is_cexp (F2R (Zpos m) e) e.
Proof.
  intros Hb. apply DifferenceFacts.bounded_inv in Hb. destruct Hb as [Hb _].
  replace e with (fexp prec emax (Zdigits2 (Zpos m) + e)) at 2
    by (rewrite fexp_eq; simpl Zdigits2; lia).
  apply is_cexp_of_bounds.
  apply (inbetween_digits (Zpos m) loc_Exact); [lia|].
  unfold F2R. cbv [inbetween]. rewrite Rmult_assoc, bpow_cancel. ring.
Qed.

Lemma bounded_lt_emax m e :
  bounded prec emax m e = true -> (F2R (Zpos m) e < bpow 1024)%R.
Proof.
  intros Hb. pose proof (is_cexp_lt _ _ (bounded_is_cexp m e Hb)) as H.
  apply DifferenceFacts.bounded_inv in Hb.
  pose proof (bpow_le (e + 53) 1024 ltac:(lia)). lra.
Qed.

Lemma F2R_align m e ez :
  ez <= e -> F2R m e = (IZR (m * 2 ^ (e - ez)) * bpow ez)%R.
Proof.
  intros H. unfold F2R. rewrite mult_IZR, <- bpow_IZR by lia.
  rewrite Rmult_assoc, <- bpow_add. f_equal. f_equal. lia.
Qed.

Lemma leb_negb_ltb mx ex my ey :
  SFleb (S754_finite false mx ex) (S754_finite false my ey)
  = negb (SFltb (S754_finite false my ey) (S754_finite false mx ex)).
Proof.
  unfold SFleb, SFltb, SFcompare. cmp_cases.
Qed.

Lemma leb_finite mx ex my ey :
  bounded prec emax mx ex = true -> bounded prec emax my ey = true ->
  (SFleb (S754_finite false mx ex) (S754_finite false my ey) = true <->
   (F2R (Zpos mx) ex <= F2R (Zpos my) ey)%R).
Proof.
  intros Hx Hy. rewrite leb_negb_ltb.
  rewrite (DifferenceFacts.ltb_aligned my mx ey ex Hy Hx). cbv zeta.
  rewrite !DifferenceFacts.shl_align_value by lia.
  rewrite (F2R_align (Zpos mx) ex (Z.min ey ex)) by lia.
  rewrite (F2R_align (Zpos my) ey (Z.min ey ex)) by lia.
  pose proof (bpow_gt_0 (Z.min ey ex)) as Hb.
  set (a := Zpos mx * 2 ^ (ex - Z.min ey ex)).
  set (b := Zpos my * 2 ^ (ey - Z.min ey ex)).
  rewrite negb_true_iff, Z.ltb_ge. split; intros H.
  - apply IZR_le in H. nra.
  - apply le_IZR. nra.
Qed.

Lemma represents_le v f v' f' :
  represents v f -> represents v' f' -> (v <= v')%R -> SFleb f f' = true.
Proof.
  intros [[Hv ->]|[(m & e & -> & Hb & <-)|[Hv ->]]]
         [[Hv' ->]|[(m' & e' & -> & Hb' & <-)|[Hv' ->]]] Hle;
    try reflexivity.
  - pose proof (F2R_pos m e). lra.
  - now apply leb_finite.
  - pose proof (bpow_gt_0 1024). lra.
  - pose proof (bounded_lt_emax m' e' Hb'). lra.
Qed.

Lemma Rounded_mono x f x' f' :
  Rounded x f -> Rounded x' f' -> (x <= x')%R -> SFleb f f' = true.
Proof.
  intros (mz & ez & Hr & Hf) (mz' & ez' & Hr' & Hf') Hx.
  eapply represents_le; eauto. eapply rounded_mono; eauto.
Qed.

Lemma Rounded_self m e :
  bounded prec emax m e = true ->
  Rounded (F2R (Zpos m) e) (S754_finite false m e).
Proof.
  intros Hb. exists (Zpos m), e. split.
  - exists (Zpos m), loc_Exact. repeat split; try lia.
    + now apply bounded_is_cexp.
    + unfold F2R. cbv [inbetween]. rewrite Rmult_assoc, bpow_cancel. ring.
  - right; left. exists m, e. auto.
Qed.

(** What a rounded number looks like *)
Lemma Rounded_cases x f :
  Rounded x f ->
  f = S754_zero false \/ f = S754_infinity false \/
  exists m e, f = S754_finite false m e /\ bounded prec emax m e = true.
Proof.
  intros (mz & ez & _ & [[_ ->]|[(m & e & -> & Hb & _)|[_ ->]]]); auto.
  right; right. eauto.
Qed.

Lemma Rounded_le_finite x f m e :
  Rounded x f -> bounded prec emax m e = true ->
  (x <= F2R (Zpos m) e)%R ->
  f = S754_zero false \/
  exists m' e', f = S754_finite false m' e' /\
                bounded prec emax m' e' = true /\
                (F2R (Zpos m') e' <= F2R (Zpos m) e)%R.
Proof.
  intros Hr Hb Hx.
  pose proof (Rounded_mono _ _ _ _ Hr (Rounded_self m e Hb) Hx) as Hle.
  destruct (Rounded_cases _ _ Hr) as [->|[->|(m' & e' & -> & Hb')]].
  - now left.
  - discriminate Hle.
  - right. exists m', e'. repeat split; auto. now apply leb_finite.
Qed.

(** The operations *)
Lemma F2R_digits m e :
  (bpow (Zpos (digits2_pos m) + e - 1) <= F2R (Zpos m) e
   < bpow (Zpos (digits2_pos m) + e))%R.
Proof.
  apply (inbetween_digits (Zpos m) loc_Exact); [lia|].
  unfold F2R. cbv [inbetween]. rewrite Rmult_assoc, bpow_cancel. ring.
Qed.

Lemma mul_spec mx ex my ey :
  bounded prec emax mx ex = true -> bounded prec emax my ey = true ->
  Rounded (F2R (Zpos mx) ex * F2R (Zpos my) ey)
          (Number.mul (S754_finite false mx ex) (S754_finite false my ey)).
Proof.
  intros Hx Hy. unfold Number.mul, SFmul. cbn [xorb].
  apply binary_round_aux_spec.
  - apply Rmult_lt_0_compat; apply F2R_pos.
  - lia.
  - unfold F2R. cbv [inbetween]. rewrite Pos2Z.inj_mul, mult_IZR.
    replace (- (ex + ey)) with (- ex + - ey) by lia. rewrite bpow_add.
    transitivity (IZR (Zpos mx) * IZR (Zpos my)
                  * (bpow ex * bpow (- ex)) * (bpow ey * bpow (- ey)))%R;
      [ring|].
    rewrite !bpow_cancel. ring.
  - apply DifferenceFacts.bounded_inv in Hx, Hy.
    destruct Hx as [Hx _], Hy as [Hy _].
    pose proof (DifferenceFacts.digits2_pos_bounds mx) as [Bx _].
    pose proof (DifferenceFacts.digits2_pos_bounds my) as [By _].
    pose proof (DifferenceFacts.digits2_pos_bounds (mx * my)) as [_ Bd].
    simpl Zdigits2. rewrite fexp_eq.
    set (dx := Zpos (digits2_pos mx)) in *.
    set (dy := Zpos (digits2_pos my)) in *.
    set (d := Zpos (digits2_pos (mx * my))) in *.
    assert (Hd : dx + dy - 1 <= d).
    { assert (Hp : 2 ^ (dx - 1 + (dy - 1)) < 2 ^ d).
      { rewrite Z.pow_add_r by lia. rewrite Pos2Z.inj_mul in Bd.
        assert (0 < 2 ^ (dx - 1)) by (apply Z.pow_pos_nonneg; lia).
        assert (0 < 2 ^ (dy - 1)) by (apply Z.pow_pos_nonneg; lia).
        nia. }
      apply Z.pow_lt_mono_r_iff in Hp; lia. }
    lia.
Qed.

Lemma new_location_spec b q r :
  0 < b -> 0 <= r < b ->
  inbetween q (new_location b r) (IZR q + IZR r / IZR b).
Proof.
  intros Hb Hr. set (t := (IZR r / IZR b)%R).
  assert (HB : (0 < IZR b)%R) by (now apply IZR_lt).
  assert (Ht : (t * IZR b = IZR r)%R) by (subst t; field; lra).
  clearbody t.
  assert (H0 : (0 <= IZR r)%R) by (apply IZR_le; lia).
  assert (H1 : (IZR r < IZR b)%R) by (apply IZR_lt; lia).
  unfold new_location, new_location_even, new_location_odd.
  destruct (Z.eq_dec r 0) as [->|Hne].
  - assert (t = 0%R) by nra.
    destruct (Z.even b);
      match goal with
      | |- context [if ?c then _ else _] => change c with true
      end; cbv [inbetween]; lra.
  - assert (Hpos : (0 < IZR r)%R) by (apply IZR_lt; lia).
    destruct (Z.even b) eqn:Heven;
      match goal with
      | |- context [if ?c then _ else _] =>
          replace c with false by (symmetry; now apply Z.eqb_neq)
      end.
    + destruct (Z.compare_spec (2 * r) b) as [He|Hl|Hg]; cbv [inbetween].
      * apply (f_equal IZR) in He. rewrite mult_IZR in He. nra.
      * apply IZR_lt in Hl. rewrite mult_IZR in Hl. split; nra.
      * apply IZR_lt in Hg. rewrite mult_IZR in Hg. split; nra.
    + assert (Hodd : 2 * r <> b).
      { intros <-. rewrite Z.even_mul in Heven. discriminate. }
      destruct (Z.compare_spec (2 * r + 1) b) as [He|Hl|Hg];
        cbv [inbetween].
      * assert (Hl : 2 * r < b) by lia.
        apply IZR_lt in Hl. rewrite mult_IZR in Hl. split; nra.
      * assert (Hl' : 2 * r < b) by lia.
        apply IZR_lt in Hl'. rewrite mult_IZR in Hl'. split; nra.
      * assert (Hg' : b < 2 * r) by lia.
        apply IZR_lt in Hg'. rewrite mult_IZR in Hg'. split; nra.
Qed.

Lemma quotient_gt A B a b :
  (bpow a <= A)%R -> (0 < B < bpow b)%R -> (bpow (a - b) < A / B)%R.
Proof.
  intros HA HB. set (x := (A / B)%R).
  assert (Hx : (x * B = A)%R) by (subst x; field; lra).
  clearbody x.
  pose proof (bpow_gt_0 (a - b)).
  assert (E : (bpow (a - b) * bpow b = bpow a)%R)
    by (rewrite <- bpow_add; f_equal; lia).
  nra.
Qed.

Lemma div_spec mx ex my ey :
  bounded prec emax mx ex = true -> bounded prec emax my ey = true ->
  Rounded (F2R (Zpos mx) ex / F2R (Zpos my) ey)
          (Number.div (S754_finite false mx ex) (S754_finite false my ey)).
Proof.
  intros Hx Hy. unfold Number.div, SFdiv, SFdiv_core_binary. cbn [xorb].
  simpl Zdigits2.
  set (dx := Zpos (digits2_pos mx)). set (dy := Zpos (digits2_pos my)).
  set (M := dx + ex - (dy + ey)).
  set (e' := Z.min (fexp prec emax M) (ex - ey)).
  set (s := ex - ey - e').
  assert (Hs : 0 <= s) by (subst s e'; lia).
  set (m' := match s with
             | 0 => Zpos mx
             | Zpos _ => Z.shiftl (Zpos mx) s
             | Zneg _ => 0
             end).
  assert (Hm' : m' = Zpos mx * 2 ^ s).
  { subst m'. destruct s as [|ps|ps] eqn:Es; try lia.
    now rewrite Z.shiftl_mul_pow2 by lia. }
  clearbody m'.
  pose proof (Z_div_mod m' (Zpos my) ltac:(lia)) as Hdiv.
  destruct (Z.div_eucl m' (Zpos my)) as [q r]. destruct Hdiv as [Hqr Hr].
  set (x := (F2R (Zpos mx) ex / F2R (Zpos my) ey)%R).
  pose proof (F2R_pos mx ex) as Px. pose proof (F2R_pos my ey) as Py.
  assert (Hxpos : (0 < x)%R) by (subst x; now apply Rdiv_lt_0_compat).
  assert (HB : (0 < IZR (Zpos my))%R) by (now apply IZR_lt).
  assert (Hq : 0 <= q) by nia.
  assert (Hy' : (x * bpow (- e') = IZR q + IZR r / IZR (Zpos my))%R).
  { subst x. unfold F2R.
    assert (E1 : (bpow ex * bpow (- e') = bpow s * bpow ey)%R).
    { rewrite <- !bpow_add. f_equal. subst s. lia. }
    assert (E2 : (IZR (Zpos mx) * bpow s
                  = IZR (Zpos my) * IZR q + IZR r)%R).
    { rewrite bpow_IZR by lia.
      rewrite <- !mult_IZR, <- plus_IZR. f_equal. lia. }
    pose proof (bpow_gt_0 ey) as Pey. revert E1 E2 HB Pey.
    generalize (IZR (Zpos mx)) (IZR (Zpos my)) (bpow ex) (bpow ey)
               (bpow (- e')) (bpow s) (IZR q) (IZR r).
    intros a b bx by_ c S q' r' E1 E2 HB Pey.
    replace (a * bx / (b * by_) * c)%R with (a * (bx * c) / (b * by_))%R
      by (field; lra).
    rewrite E1.
    replace (a * (S * by_) / (b * by_))%R with (a * S / b)%R
      by (field; lra).
    rewrite E2. field. lra. }
  assert (Hlow : (bpow (M - 1) < x)%R).
  { subst x M. replace (dx + ex - (dy + ey) - 1)
      with ((dx + ex - 1) - (dy + ey)) by lia.
    apply quotient_gt; [apply F2R_digits|].
    split; [exact Py | apply F2R_digits]. }
  apply binary_round_aux_spec; [exact Hxpos | exact Hq | |].
  - rewrite Hy'. apply new_location_spec; lia.
  - assert (Hin : inbetween q (new_location (Zpos my) r)
                    (x * bpow (- e')))
      by (rewrite Hy'; apply new_location_spec; lia).
    assert (He' : e' <= fexp prec emax M) by (subst e'; lia).
    rewrite fexp_eq in *.
    destruct (Z.eq_dec q 0) as [->|Hq0].
    + simpl Zdigits2. apply inbetween_bounds in Hin. simpl in Hin.
      assert (Hlt : (x < bpow e')%R).
      { rewrite <- (bpow_scale x e'). pose proof (bpow_gt_0 e'). nra. }
      assert (HM : (bpow (M - 1) < bpow e')%R) by lra.
      apply bpow_lt_inv in HM. lia.
    + pose proof (inbetween_digits q _ x e' ltac:(lia) Hin) as [_ Hup].
      assert (HM : (bpow (M - 1) < bpow (Zdigits2 q + e'))%R) by lra.
      apply bpow_lt_inv in HM. lia.
Qed.

(** Integers as numbers *)
Lemma F2R_0 m : F2R m 0 = IZR m.
Proof. unfold F2R. change (bpow 0) with 1%R. ring. Qed.

Lemma shl_align_fexp_spec p e :
  let '(mz, ez) :=
    shl_align p e (fexp prec emax (Zpos (digits2_pos p) + e)) in
  F2R (Zpos mz) ez = F2R (Zpos p) e /\
  ez <= fexp prec emax (Zdigits2 (Zpos mz) + ez).
Proof.
  set (d := Zpos (digits2_pos p)). set (e' := fexp prec emax (d + e)).
  pose proof (DifferenceFacts.shl_align_value p e e') as Hv.
  unfold shl_align in *.
  destruct (e' - e) as [|n|n] eqn:Hn; simpl fst in Hv.
  - split; [reflexivity|]. simpl Zdigits2. fold d. fold e'. lia.
  - split; [reflexivity|]. simpl Zdigits2. fold d. fold e'. lia.
  - specialize (Hv ltac:(lia)).
    assert (Hen : e - e' = Zpos n) by lia. rewrite Hen in Hv.
    split.
    + rewrite (F2R_align (Zpos p) e e') by lia. rewrite Hen.
      unfold F2R. now rewrite Hv.
    + replace (Zdigits2 (Zpos (Pos.iter xO p n)) + e') with (d + e);
        [subst e'; lia|].
      rewrite Hv. pose proof (DifferenceFacts.digits2_pos_bounds p) as B.
      fold d in B.
      rewrite (Zdigits2_unique (Zpos p * 2 ^ Zpos n) (d + Zpos n)); try lia.
      replace (d + Zpos n - 1) with (d - 1 + Zpos n) by lia.
      rewrite !Z.pow_add_r by lia.
      assert (0 < 2 ^ Zpos n) by (apply Z.pow_pos_nonneg; lia).
      nia.
Qed.

Lemma binary_round_spec p e :
  Rounded (F2R (Zpos p) e) (binary_round prec emax false p e).
Proof.
  unfold binary_round. pose proof (shl_align_fexp_spec p e) as H.
  destruct (shl_align p e _) as [mz ez]. destruct H as [Hv Hpre].
  rewrite <- Hv. apply binary_round_aux_spec; try lia.
  - apply F2R_pos.
  - unfold F2R. cbv [inbetween]. rewrite Rmult_assoc, bpow_cancel. ring.
Qed.

Lemma of_Z_spec k :
  0 < k < 2 ^ 53 ->
  exists m e, (#k)%num = S754_finite false m e /\
              bounded prec emax m e = true /\ F2R (Zpos m) e = IZR k.
Proof.
  intros Hk. destruct k as [|p|p]; try lia.
  unfold Number.of_Z, binary_normalize.
  pose proof (binary_round_spec p 0) as Hr. rewrite F2R_0 in Hr.
  destruct Hr as (mz & ez & Hr & Hf).
  pose proof (DifferenceFacts.digits2_pos_bounds p) as B.
  set (d := Zpos (digits2_pos p)) in *.
  assert (Hd : 1 <= d <= 53).
  { split; [subst d; lia|].
    destruct (Z_le_gt_dec d 53) as [|Hgt]; [assumption|].
    assert (2 ^ 53 <= 2 ^ (d - 1)) by (apply Z.pow_le_mono_r; lia). lia. }
  assert (Hval : F2R mz ez = IZR (Zpos p)).
  { apply (rounded_exact _ (Zpos p * 2 ^ (53 - d)) (d - 53)); [| |exact Hr].
    - replace (d - 53) with (fexp prec emax d) by (rewrite fexp_eq; lia).
      apply is_cexp_of_bounds.
      pose proof (F2R_digits p 0) as H0. rewrite F2R_0 in H0.
      fold d in H0. now rewrite !Z.add_0_r in H0.
    - rewrite <- (F2R_0 (Zpos p)).
      rewrite (F2R_align (Zpos p) 0 (d - 53)) by lia.
      replace (0 - (d - 53)) with (53 - d) by lia. reflexivity. }
  rewrite Hval in Hf.
  destruct Hf as [[H0 _]|[(m & e & Hm & Hb & Hv)|[Hinf _]]].
  - apply eq_IZR in H0. lia.
  - exists m, e. auto.
  - exfalso. destruct Hk as [_ Hk]. apply IZR_lt in Hk.
    rewrite <- bpow_IZR in Hk by lia.
    pose proof (bpow_le 53 1024 ltac:(lia)). lra.
Qed.

Lemma truncate_integer m e k :
  F2R (Zpos m) e = IZR k ->
  ToIntegerOrInfinity (S754_finite false m e) = Integer k.
Proof.
  intros H. unfold ToIntegerOrInfinity. cbv zeta. f_equal.
  destruct (Z_le_gt_dec 0 e) as [He|He].
  - rewrite Z.shiftl_mul_pow2 by lia. apply eq_IZR.
    rewrite <- H. unfold F2R. now rewrite mult_IZR, <- bpow_IZR.
  - replace e with (- (- e)) by lia.
    rewrite Z.shiftl_opp_r, Z.shiftr_div_pow2 by lia.
    assert (Hm : Zpos m = k * 2 ^ (- e)).
    { apply eq_IZR. rewrite mult_IZR, <- bpow_IZR by lia.
      rewrite <- H. unfold F2R.
      rewrite Rmult_assoc, bpow_cancel. ring. }
    rewrite Hm. apply Z.div_mul.
    assert (0 < 2 ^ (- e)) by (apply Z.pow_pos_nonneg; lia). lia.
Qed.

Lemma B2R_nonneg f : small f -> (0 <= B2R f)%R.
Proof.
  destruct f as [s|s| |s m e]; simpl; try tauto; try lra.
  intros [-> _]. left. apply F2R_pos.
Qed.

Lemma leb_antisym_eqb (a b : number) :
  SFleb a b = true -> SFleb b a = true -> (a === b)%num = true.
Proof.
  unfold Number.eqb, SFeqb, SFleb.
  by_cases a; by_cases b; cmp_cases.
Qed.

(** [Math.ceil] followed by the conversion of [slice] *)
Lemma ceil_spec f n :
  small f -> (B2R f <= IZR n)%R -> 0 <= n < 2 ^ 53 ->
  exists k, ToIntegerOrInfinity (Number.ceil f) = Integer k /\
            (Number.ceil f === #k)%num = true /\
            0 <= k <= n /\ (IZR (k - 1) < B2R f <= IZR k)%R.
Proof.
  intros Hs Hn Hn53.
  destruct f as [s|s| |s m e]; simpl in Hs; try tauto.
  - exists 0. simpl. repeat split; try lia; lra.
  - destruct Hs as [-> Hb]. simpl B2R in *.
    pose proof (F2R_pos m e) as Hpos.
    unfold Number.ceil.
    destruct (Z.leb_spec 0 e) as [He|He].
    + exists (Zpos m * 2 ^ e).
      assert (Hv : F2R (Zpos m) e = IZR (Zpos m * 2 ^ e))
        by (unfold F2R; now rewrite mult_IZR, <- bpow_IZR).
      assert (Hkn : 0 < Zpos m * 2 ^ e <= n).
      { split; [|apply le_IZR; lra].
        assert (0 < 2 ^ e) by (apply Z.pow_pos_nonneg; lia). nia. }
      split; [now apply truncate_integer|]. split; [|split].
      * destruct (of_Z_spec (Zpos m * 2 ^ e) ltac:(lia))
          as (mk & ek & Hk & Hbk & Hvk).
        rewrite Hk. apply leb_antisym_eqb; apply leb_finite; auto; lra.
      * lia.
      * rewrite Hv, minus_IZR. lra.
    + cbv zeta. set (d := 2 ^ (- e)).
      assert (Hd : 0 < d) by (apply Z.pow_pos_nonneg; lia).
      set (k := (Zpos m + d - 1) / d).
      pose proof (Z.div_mod (Zpos m + d - 1) d ltac:(lia)) as Hdm.
      pose proof (Z.mod_pos_bound (Zpos m + d - 1) d Hd) as Hmod.
      fold k in Hdm.
      assert (Hv : (F2R (Zpos m) e * IZR d = IZR (Zpos m))%R).
      { unfold F2R, d. rewrite <- bpow_IZR by lia.
        rewrite Rmult_assoc, bpow_cancel. ring. }
      assert (HD : (0 < IZR d)%R) by (now apply IZR_lt).
      assert (Hk1 : (k - 1) * d < Zpos m) by nia.
      assert (Hk2 : Zpos m <= k * d) by nia.
      apply IZR_lt in Hk1. apply IZR_le in Hk2.
      rewrite mult_IZR in Hk1, Hk2.
      assert (Hbounds : (IZR (k - 1) < F2R (Zpos m) e <= IZR k)%R)
        by (split; nra).
      assert (Hkn : 1 <= k <= n).
      { split; [nia|]. apply IZR_lt_succ.
        rewrite minus_IZR in Hbounds. lra. }
      destruct (of_Z_spec k ltac:(lia)) as (mk & ek & Hk & _ & Hvk).
      exists k. fold (Number.of_Z k).
      split; [|split; [|split; [lia | exact Hbounds]]].
      * rewrite Hk. now apply truncate_integer.
      * rewrite Hk. unfold Number.eqb, SFeqb, SFcompare.
        now rewrite Z.compare_refl, Pos.compare_cont_refl.
Qed.

(** Order and real values *)
Lemma leb_B2R f f' :
  small f -> small f' -> SFleb f f' = true -> (B2R f <= B2R f')%R.
Proof.
  destruct f as [s|s| |s m e], f' as [s'|s'| |s' m' e']; simpl;
    try tauto; intros Hs Hs' H; try lra.
  - destruct Hs' as [-> _]. left. apply F2R_pos.
  - destruct Hs as [-> _]. discriminate H.
  - destruct Hs as [-> Hb], Hs' as [-> Hb']. simpl.
    now apply leb_finite.
Qed.

Lemma Rounded0_mono x f x' f' :
  Rounded0 x f -> Rounded0 x' f' -> (x <= x')%R -> SFleb f f' = true.
Proof.
  intros [[-> [s ->]]|[Hx Hr]] [[-> [s' ->]]|[Hx' Hr']] Hle.
  - reflexivity.
  - destruct (Rounded_cases _ _ Hr') as [->|[->|(m & e & -> & _)]];
      reflexivity.
  - lra.
  - eapply Rounded_mono; eauto.
Qed.

Lemma Rounded0_small x f m e :
  Rounded0 x f -> bounded prec emax m e = true ->
  (x <= F2R (Zpos m) e)%R ->
  small f /\ (B2R f <= F2R (Zpos m) e)%R.
Proof.
  intros [[-> [s ->]]|[Hx Hr]] Hb Hle.
  - split; [exact I|]. simpl. left. apply F2R_pos.
  - destruct (Rounded_le_finite _ _ _ _ Hr Hb Hle)
      as [->|(m' & e' & -> & Hb' & Hle')].
    + split; [exact I|]. simpl. left. apply F2R_pos.
    + split; [split; auto | exact Hle'].
Qed.

Lemma div_Rounded0 t my ey :
  small t -> bounded prec emax my ey = true ->
  Rounded0 (B2R t / F2R (Zpos my) ey)
           (Number.div t (S754_finite false my ey)).
Proof.
  destruct t as [s|s| |s m e]; simpl; try tauto.
  - intros _ _. left. split; [unfold Rdiv; ring | eexists; reflexivity].
  - intros [-> Hb] Hb'. right. split.
    + apply Rdiv_lt_0_compat; apply F2R_pos.
    + now apply div_spec.
Qed.

Lemma mul_Rounded0 a b :
  small a -> small b -> Rounded0 (B2R a * B2R b) (Number.mul a b).
Proof.
  destruct a as [sa|sa| |sa ma ea], b as [sb|sb| |sb mb eb]; simpl;
    try tauto; intros Ha Hb;
    try (left; split; [ring | eexists; reflexivity]).
  destruct Ha as [-> Ha], Hb as [-> Hb]. right. split.
  - apply Rmult_lt_0_compat; apply F2R_pos.
  - now apply mul_spec.
Qed.

(** The cutoff of the protected set *)
Lemma hundred_value : F2R 7036874417766400 (-46) = 100%R.
Proof.
  unfold F2R. change (-46) with (Z.opp 46).
  rewrite bpow_opp, bpow_IZR by lia.
  change (2 ^ 46) with 70368744177664. lra.
Qed.

Lemma one_value : F2R 4503599627370496 (-52) = 1%R.
Proof.
  unfold F2R. change (-52) with (Z.opp 52).
  rewrite bpow_opp, bpow_IZR by lia.
  change (2 ^ 52) with 4503599627370496. lra.
Qed.

Lemma threshold_small t :
  valid_binary prec emax t = true ->
  ((#0) <=? t)%num = true -> (t <=? #100)%num = true ->
  small t /\ (B2R t <= 100)%R.
Proof.
  intros Hv H0 H100.
  assert (Hs : small t).
  { destruct t as [s|[|]| |[|] m e]; simpl; auto; discriminate. }
  split; [exact Hs|]. rewrite <- hundred_value.
  apply (leb_B2R t (S754_finite false 7036874417766400 (-46)));
    [exact Hs | split; reflexivity | exact H100].
Qed.

Lemma length_small n :
  0 <= n < 2 ^ 53 -> small (#n)%num /\ B2R (#n)%num = IZR n.
Proof.
  intros Hn. destruct (Z.eq_dec n 0) as [->|Hne].
  - split; [exact I | reflexivity].
  - destruct (of_Z_spec n ltac:(lia)) as (m & e & -> & Hb & Hv).
    split; [split; auto | exact Hv].
Qed.

Lemma quotient_facts t :
  small t -> (B2R t <= 100)%R ->
  Rounded0 (B2R t / 100) (Number.div t (#100)%num) /\
  small (Number.div t (#100)%num) /\
  (B2R (Number.div t (#100)%num) <= 1)%R.
Proof.
  intros Hs Ht.
  change (#100)%num with (S754_finite false 7036874417766400 (-46)).
  pose proof (div_Rounded0 t 7036874417766400 (-46) Hs eq_refl) as Hr.
  rewrite hundred_value in Hr. split; [exact Hr|].
  rewrite <- one_value.
  apply (Rounded0_small _ _ 4503599627370496 (-52) Hr eq_refl).
  rewrite one_value. lra.
Qed.

Lemma product_facts n t :
  0 <= n < 2 ^ 53 -> small t -> (B2R t <= 100)%R ->
  let q := Number.div t (#100)%num in
  let p := Number.mul (#n)%num q in
  Rounded0 (IZR n * B2R q) p /\ small p /\ (B2R p <= IZR n)%R.
Proof.
  intros Hn Hs Ht q p.
  destruct (quotient_facts t Hs Ht) as (_ & Hq & Hq1).
  destruct (length_small n Hn) as (Hsn & Hvn).
  pose proof (mul_Rounded0 _ _ Hsn Hq) as Hr. rewrite Hvn in Hr.
  fold q in Hq, Hq1, Hr. fold p in Hr.
  split; [exact Hr|].
  pose proof (B2R_nonneg _ Hq) as Hq0.
  destruct (Z.eq_dec n 0) as [->|Hne].
  - destruct Hr as [[_ [s Hp]]|[Hpos _]]; [|lra].
    rewrite Hp. split; [exact I | simpl; lra].
  - destruct (of_Z_spec n ltac:(lia)) as (m & e & Hm & Hb & Hv).
    rewrite <- Hv. apply (Rounded0_small _ _ m e Hr Hb).
    rewrite Hv. assert (0 <= IZR n)%R by (apply IZR_le; lia). nra.
Qed.

Lemma product_mono n t1 t2 :
  0 <= n < 2 ^ 53 ->
  small t1 -> (B2R t1 <= 100)%R -> small t2 -> (B2R t2 <= 100)%R ->
  (t1 <=? t2)%num = true ->
  (B2R (Number.mul (#n)%num (Number.div t1 (#100)%num))
   <= B2R (Number.mul (#n)%num (Number.div t2 (#100)%num)))%R.
Proof.
  intros Hn Hs1 Ht1 Hs2 Ht2 Hle.
  destruct (quotient_facts t1 Hs1 Ht1) as (Hr1 & Hq1 & _).
  destruct (quotient_facts t2 Hs2 Ht2) as (Hr2 & Hq2 & _).
  destruct (product_facts n t1 Hn Hs1 Ht1) as (Hp1 & Hsp1 & _).
  destruct (product_facts n t2 Hn Hs2 Ht2) as (Hp2 & Hsp2 & _).
  pose proof (leb_B2R _ _ Hs1 Hs2 Hle) as Hb.
  assert (Hq : (B2R (Number.div t1 (#100)%num)
                <= B2R (Number.div t2 (#100)%num))%R).
  { apply leb_B2R; auto. eapply Rounded0_mono; eauto.
    unfold Rdiv. lra. }
  apply leb_B2R; auto. eapply Rounded0_mono; eauto.
  assert (0 <= IZR n)%R by (apply IZR_le; lia). nra.
Qed.

Lemma product_100 n :
  0 <= n < 2 ^ 53 ->
  B2R (Number.mul (#n)%num (Number.div (#100)%num (#100)%num)) = IZR n.
Proof.
  intros Hn.
  change (Number.div (#100)%num (#100)%num)
    with (S754_finite false 4503599627370496 (-52)).
  destruct (length_small n Hn) as (Hsn & Hvn).
  assert (Hs1 : small (S754_finite false 4503599627370496 (-52)))
    by (split; reflexivity).
  pose proof (mul_Rounded0 _ _ Hsn Hs1) as Hr.
  simpl (B2R (S754_finite _ _ _)) in Hr. rewrite one_value, Hvn in Hr.
  rewrite Rmult_1_r in Hr.
  destruct (Z.eq_dec n 0) as [->|Hne].
  - destruct Hr as [[_ [s ->]]|[Hpos _]]; [reflexivity | lra].
  - destruct (of_Z_spec n ltac:(lia)) as (m & e & Hm & Hb & Hv).
    assert (Hself : Rounded0 (IZR n) (S754_finite false m e)).
    { right. split; [apply IZR_lt; lia|]. rewrite <- Hv.
      now apply Rounded_self. }
    assert (Hsm : small (S754_finite false m e)) by (split; auto).
    destruct (Rounded0_small _ _ m e Hr Hb ltac:(lra)) as (Hsp & Hle).
    apply Rle_antisym; [lra|].
    rewrite <- Hv. change (F2R (Zpos m) e) with (B2R (S754_finite false m e)).
    apply leb_B2R; auto. eapply Rounded0_mono; eauto. lra.
Qed.

Lemma cutoff_facts channels t :
  Z.of_nat (List.length channels) < 2 ^ 53 ->
  valid_binary prec emax t = true ->
  ((#0) <=? t)%num = true -> (t <=? #100)%num = true ->
  let n := Z.of_nat (List.length (sorted channels)) in
  let p := Number.mul (#n)%num (Number.div t (#100)%num) in
  exists k,
    ToIntegerOrInfinity (cutoff channels t) = Integer k /\
    (cutoff channels t === #k)%num = true /\
    0 <= k <= n /\ (IZR (k - 1) < B2R p <= IZR k)%R /\
    small t /\ (B2R t <= 100)%R /\ 0 <= n < 2 ^ 53.
Proof.
  intros Hlen Hv H0 H100 n p.
  assert (Hn : 0 <= n < 2 ^ 53).
  { subst n. unfold sorted.
    rewrite (Permutation_length
               (sort_Permutation byReachDesc (withSantoor channels))).
    unfold withSantoor.
    pose proof (filter_length_le
                  (fun ch => (santoorReach ch >? #0)%num) channels). lia. }
  destruct (threshold_small t Hv H0 H100) as (Hs & Ht).
  destruct (product_facts n t Hn Hs Ht) as (_ & Hsp & Hpn).
  destruct (ceil_spec _ n Hsp Hpn Hn) as (k & Hk & Heq & Hkn & Hb).
  exists k. unfold cutoff. fold n. repeat split; auto; tauto.
Qed.

End Binary64.

Lemma slice0_Integer {A : Type} (l : list A) (fin : number) (k : Z) :
  ToIntegerOrInfinity fin = Integer k ->
  0 <= k <= Z.of_nat (List.length l) ->
  Array.slice0 l fin = firstn (Z.to_nat k) l.
Proof.
  intros H Hk. unfold Array.slice0. rewrite H.
  destruct (Z.ltb_spec k 0); [lia|]. now rewrite Z.min_l by lia.
Qed.

Lemma sorted_length (channels : list ChannelRecord) :
  List.length (sorted channels) = List.length (withSantoor channels).
Proof.
  unfold sorted.
  apply (Permutation_length
           (sort_Permutation byReachDesc (withSantoor channels))).
Qed.

Lemma firstn_prefix {A : Type} (k1 k2 : nat) (l : list A) :
  (k1 <= k2)%nat -> exists rest, firstn k2 l = firstn k1 l ++ rest.
Proof.
  revert k2 l. induction k1 as [|k1 IH]; intros k2 l H.
  - now exists (firstn k2 l).
  - destruct k2 as [|k2]; [lia|]. destruct l as [|a l].
    + now exists [].
    + destruct (IH k2 l ltac:(lia)) as (rest & Hr).
      exists rest. simpl. now rewrite Hr.
Qed.

(** X19. The size of the protected set.  For a threshold between 0 and
    100 the number of protected names is the double
    [Math.ceil(count * (threshold / 100))], where [count] is the number
    of records with a positive [santoorReach], the quotient and the
    product being the rounded ones of the source; it never exceeds
    [count], and the names are those of the first records of the
    ranking. *)
Theorem getProtectedChannels_size
    (channels : list ChannelRecord) (threshold : number) :
  Z.of_nat (List.length channels) < 2 ^ 53 ->
  valid_binary prec emax threshold = true ->
  ((#0) <=? threshold)%num = true -> (threshold <=? #100)%num = true ->
  let count := List.length (withSantoor channels) in
  let size := List.length (getProtectedChannels channels threshold) in
  (size <= count)%nat /\
  (Number.ceil
     (Number.mul (#(Z.of_nat count))%num
                 (Number.div threshold (#100)%num))
   === #(Z.of_nat size))%num = true /\
  getProtectedChannels channels threshold
  = map channel (firstn size (sorted channels)).
Proof.
  intros Hlen Hv H0 H100. cbv zeta.
  destruct (Binary64.cutoff_facts channels threshold Hlen Hv H0 H100)
    as (k & Hk & Heq & Hkn & _).
  assert (Hgpc : getProtectedChannels channels threshold
                 = map channel (firstn (Z.to_nat k) (sorted channels))).
  { unfold getProtectedChannels. now rewrite (slice0_Integer _ _ k Hk Hkn). }
  assert (Hsize : List.length (getProtectedChannels channels threshold)
                  = Z.to_nat k).
  { rewrite Hgpc, length_map, length_firstn. lia. }
  rewrite Hsize, Z2Nat.id by lia.
  split; [rewrite <- sorted_length; lia|]. split; [|exact Hgpc].
  unfold cutoff in Heq. now rewrite sorted_length in Heq.
Qed.

Lemma getProtectedChannels_size_witness :
  (List.length (getProtectedChannels [scenarioB; scenarioA; scenarioC]
                  (#50)%num)
   <= List.length (withSantoor [scenarioB; scenarioA; scenarioC]))%nat.
Proof.
  apply (getProtectedChannels_size [scenarioB; scenarioA; scenarioC]
           (#50)%num); reflexivity.
Defined.

(** X20. A higher threshold protects more: for two thresholds between
    0 and 100, the protected list of the smaller one is a prefix of the
    protected list of the larger one. *)
Theorem getProtectedChannels_monotone
    (channels : list ChannelRecord) (t1 t2 : number) :
  Z.of_nat (List.length channels) < 2 ^ 53 ->
  valid_binary prec emax t1 = true -> valid_binary prec emax t2 = true ->
  ((#0) <=? t1)%num = true -> (t1 <=? t2)%num = true ->
  (t2 <=? #100)%num = true ->
  exists rest,
    getProtectedChannels channels t2
    = getProtectedChannels channels t1 ++ rest.
Proof.
  intros Hlen Hv1 Hv2 H0 H12 H100.
  assert (H0' : ((#0) <=? t2)%num = true) by (eapply leb_trans; eauto).
  assert (H100' : (t1 <=? #100)%num = true) by (eapply leb_trans; eauto).
  destruct (Binary64.cutoff_facts channels t1 Hlen Hv1 H0 H100')
    as (k1 & Hk1 & _ & Hkn1 & Hb1 & Hs1 & Ht1 & Hn).
  destruct (Binary64.cutoff_facts channels t2 Hlen Hv2 H0' H100)
    as (k2 & Hk2 & _ & Hkn2 & Hb2 & Hs2 & Ht2 & _).
  pose proof (Binary64.product_mono _ t1 t2 Hn Hs1 Ht1 Hs2 Ht2 H12) as Hm.
  assert (Hk : k1 <= k2) by (apply Binary64.IZR_lt_succ;
                             rewrite minus_IZR in Hb1; lra).
  unfold getProtectedChannels.
  rewrite (slice0_Integer _ _ k1 Hk1 Hkn1), (slice0_Integer _ _ k2 Hk2 Hkn2).
  destruct (firstn_prefix (Z.to_nat k1) (Z.to_nat k2) (sorted channels)
              ltac:(lia)) as (rest & ->).
  exists (map channel rest). apply map_app.
Qed.

Lemma getProtectedChannels_monotone_witness :
  exists rest,
    getProtectedChannels [scenarioB; scenarioA; scenarioC] (#90)%num
    = getProtectedChannels [scenarioB; scenarioA; scenarioC] (#50)%num
      ++ rest.
Proof.
  apply (getProtectedChannels_monotone [scenarioB; scenarioA; scenarioC]
           (#50)%num (#90)%num); reflexivity.
Defined.

(** X21. At threshold 100 every channel on which Santoor is on air is
    protected: the result is the whole ranking, in its order, so the
    name of every record with a positive [santoorReach] is in it. *)
Theorem getProtectedChannels_100 (channels : list ChannelRecord) :
  Z.of_nat (List.length channels) < 2 ^ 53 ->
  getProtectedChannels channels (#100)%num
  = map channel (sorted channels) /\
  forall ch, In ch channels -> (santoorReach ch >? #0)%num = true ->
             In (channel ch) (getProtectedChannels channels (#100)%num).
Proof.
  intros Hlen.
  destruct (Binary64.cutoff_facts channels (#100)%num Hlen
              eq_refl eq_refl eq_refl)
    as (k & Hk & _ & Hkn & Hb & _ & _ & Hn).
  rewrite Binary64.product_100 in Hb by exact Hn.
  assert (Hkeq : k = Z.of_nat (List.length (sorted channels))).
  { apply Z.le_antisymm; [lia|]. apply le_IZR. lra. }
  assert (Hall : getProtectedChannels channels (#100)%num
                 = map channel (sorted channels)).
  { unfold getProtectedChannels.
    rewrite (slice0_Integer _ _ k Hk Hkn), Hkeq, Nat2Z.id.
    now rewrite firstn_all. }
  split; [exact Hall|]. intros ch Hin Hs. rewrite Hall.
  apply in_map. unfold sorted.
  apply (Permutation_in _ (Permutation_sym (sort_Permutation _ _))).
  unfold withSantoor. apply filter_In. auto.
Qed.

Lemma getProtectedChannels_100_witness :
  getProtectedChannels [scenarioB; scenarioA; scenarioC] (#100)%num
  = map channel (sorted [scenarioB; scenarioA; scenarioC]).
Proof.
  exact (proj1 (getProtectedChannels_100
                  [scenarioB; scenarioA; scenarioC] eq_refl)).
Defined.
